(** * Volume resize reconciliation of the postgres operator

    A shallow embedding of [pkg/cluster/volumes.go]: enumeration of the
    persistent volumes of a cluster ([listPersistentVolumes]), the grow-only
    resize protocol ([resizeVolumes]), the pre-flight predicate
    ([volumesNeedResizing]) and the helpers [getPodNameFromPersistentVolume]
    and [quantityToGigabyte].

    The Kubernetes store, the resize backends and the filesystem resizer are
    collaborators outside the file.  Their calls are recorded in a trace, and
    what each call returns is given by an environment that may look at the
    trace so far. *)

From stdpp Require Import base gmap list strings.
From Stdlib Require Import ZArith Ascii.

Local Open Scope string_scope.
Local Open Scope list_scope.
Local Open Scope Z_scope.

(** ** Go strings and the [strings] / [strconv] functions the file calls *)

Module GoString.

(** [len(s)], a Go [int]. *)
Definition len (s : string) : Z := Z.of_nat (String.length s).

(** [s[n:]] for an in-range [n]; the callers check the range. *)
Fixpoint sliceFrom (n : nat) (s : string) : string :=
  match n, s with
  | O, _ => s
  | S n', String _ s' => sliceFrom n' s'
  | S _, EmptyString => EmptyString
  end.

(** Position of the last byte equal to [c], if there is one. *)
Fixpoint lastIndexByte (c : ascii) (s : string) : option nat :=
  match s with
  | EmptyString => None
  | String a s' =>
      match lastIndexByte c s' with
      | Some i => Some (S i)
      | None => if Ascii.eqb a c then Some O else None
      end
  end.

(** [strings.LastIndex(s, "-")]: the index of the last dash, or -1. *)
Definition LastIndexDash (s : string) : Z :=
  match lastIndexByte "-"%char s with
  | Some i => Z.of_nat i
  | None => -1
  end.

Definition digitOf (a : ascii) : option Z :=
  let n := Z.of_N (N_of_ascii a) in
  if (48 <=? n) && (n <=? 57) then Some (n - 48) else None.

(** The digit loop of [strconv.ParseInt] in base 10: [n = n*10 + d]. *)
Fixpoint parseDigits (s : string) (acc : Z) : option Z :=
  match s with
  | EmptyString => Some acc
  | String a s' =>
      match digitOf a with
      | Some d => parseDigits s' (acc * 10 + d)
      | None => None
      end
  end.

Definition minInt : Z := - 2 ^ 63.
Definition maxInt : Z := 2 ^ 63 - 1.

(** [strconv.Atoi] on a 64-bit platform: an optional sign, at least one
    decimal digit, nothing else, and a value that fits [int]; [None]
    stands for a non-nil error. *)
Definition Atoi (s : string) : option Z :=
  let '(neg, body) :=
    match s with
    | String "+"%char r => (false, r)
    | String "-"%char r => (true, r)
    | _ => (false, s)
    end in
  match body with
  | EmptyString => None
  | _ =>
      match parseDigits body 0 with
      | Some n =>
          let v := if neg then - n else n in
          if (minInt <=? v) && (v <=? maxInt) then Some v else None
      | None => None
      end
  end.

(** The conversion [int32(x)] keeps the low 32 bits, two's complement. *)
Definition int32 (x : Z) : Z := (x + 2 ^ 31) mod 2 ^ 32 - 2 ^ 31.

End GoString.

(** ** Constants of [pkg/util/constants] *)

(** Modelled from the spec: [constants.Gigabyte] is declared outside the
    given sources.  The spec parses sizes into whole gigabytes and reads
    the manifest size 15Gi as the target 15, which fixes the unit at 2^30
    bytes. *)
Definition Gigabyte : Z := 1073741824.

(** Modelled from the spec: [constants.DataVolumeName] is declared outside
    the given sources.  The spec names the data-volume prefix pgdata. *)
Definition DataVolumeName : string := "pgdata".

(** ** Records of the Kubernetes API that the file reads and writes *)

(** A [resource.Quantity], held as the number of base units (bytes) that
    [q.ScaledValue(0)] reports. *)
Definition Quantity : Type := Z.

Definition ScaledValue0 (q : Quantity) : Z := q.

(** The key [v1.ResourceStorage] of a [v1.ResourceList]. *)
Definition ResourceStorage : string := "storage".

Record ObjectReference : Type := {
  refNamespace : string;
  refName : string;
}.

(** [v1.PersistentVolumeSpec]: the capacity map and the claim
    back-reference, a pointer that may be nil. *)
Record PersistentVolumeSpec : Type := {
  Capacity : gmap string Quantity;
  ClaimRef : option ObjectReference;
}.

Record PersistentVolume : Type := {
  pvName : string;
  pvSpec : PersistentVolumeSpec;
}.

Record PersistentVolumeClaim : Type := {
  pvcName : string;
  pvcNamespace : string;
  pvcVolumeName : string;
}.

(** [spec.NamespacedName] and the part of [spec.Volume] that is read. *)
Record NamespacedName : Type := {
  Namespace : string;
  Name : string;
}.

Record Volume : Type := {
  Size : string;
}.

(** [pv.Spec.Capacity[v1.ResourceStorage]]: a missing key reads as the zero
    quantity. *)
Definition storageOf (pv : PersistentVolume) : Quantity :=
  default 0 (Capacity (pvSpec pv) !! ResourceStorage).

(** [pv.Spec.Capacity[v1.ResourceStorage] = q] *)
Definition setStorage (q : Quantity) (pv : PersistentVolume) : PersistentVolume :=
  {| pvName := pvName pv;
     pvSpec := {| Capacity := <[ResourceStorage := q]> (Capacity (pvSpec pv));
                  ClaimRef := ClaimRef (pvSpec pv) |} |}.

(** ** Errors *)

(** One constructor per [fmt.Errorf] of the file, carrying what the message
    is formatted from, and one for errors that come from a collaborator. *)
Inductive Error : Type :=
  | External (msg : string)
  | CouldNotListClaims (e : Error)
  | CouldNotListClusterClaims (e : Error)
  | CouldNotConvertClaimName (name : string)
  | CouldNotGetPersistentVolume (e : Error)
  | CouldNotParseVolumeSize (e : Error)
  | CouldNotParseManifestSize (e : Error)
  | CouldNotListPersistentVolumes (e : Error)
  | CannotShrink
  | CouldNotConnect (e : Error)
  | CouldNotResizeEBSVolume (id : string) (e : Error)
  | CouldNotResizeFilesystem (pod : NamespacedName) (e : Error)
  | CouldNotUpdatePersistentVolume (e : Error)
  | NotCompatibleWithProviders.

(** How a call of [resizeVolumes] ends: with its [error] result (nil or
    not), or with a run-time panic. *)
Inductive Outcome : Type :=
  | Returned (err : option Error)
  | Panicked.

(** ** Calls to the collaborators *)

(** A backend is referred to by its identity (the pointer behind the
    interface value), so that one backend listed twice shares its state. *)
Definition Handle : Type := nat.

Inductive Event : Type :=
  | EvListClaims
  | EvGetVolume (name : string)
  | EvUpdateVolume (name : string) (q : Quantity) (ok : bool)
  | EvBelongs (r : Handle) (pv : string)
  | EvIsConnected (r : Handle)
  | EvConnect (r : Handle) (ok : bool)
  | EvDisconnect (r : Handle) (ok : bool)
  | EvGetProviderVolumeID (r : Handle) (pv : string)
  | EvResizeVolume (r : Handle) (id : string) (size : Z)
  | EvResizeFilesystem (pod : NamespacedName).

(** Modelled from the spec: the interface [volumes.VolumeResizer] and its
    implementations are declared outside the given sources.  The spec lists
    its operations: an ownership predicate on the volume record, a test and
    an open/closed flag for the connection (the only state a backend owns),
    connect and disconnect, the resolution of the provider's volume
    identifier, and the resize of the block device; all but the first two
    may fail.  The flag is kept in the world; what the operations answer is
    given here. *)
Record VolumeResizer : Type := {
  VolumeBelongsToProvider : PersistentVolume → bool;
  ConnectToProvider : list Event → option Error;
  DisconnectFromProvider : list Event → option Error;
  GetProviderVolumeID : list Event → PersistentVolume → Error + string;
  ResizeVolume : list Event → string → Z → option Error;
}.

(** What the collaborators answer, given the calls made so far:
    [resource.ParseQuantity] of the Kubernetes library, the backends, the
    store client, and the method [resizePostgresFilesystem] of the cluster,
    which is declared in another file and runs the filesystem resizer in
    the pod. *)
Record Env : Type := {
  ParseQuantity : string → Error + Quantity;
  resizerOf : Handle → VolumeResizer;
  listClaimsFails : list Event → option Error;
  getVolumeFails : list Event → string → option Error;
  updateVolumeFails : list Event → PersistentVolume → option Error;
  resizePostgresFilesystem : list Event → NamespacedName → option Error;
}.

(** The state outside the function: the claims selected by the cluster's
    labels, the volume records of the store by name, the replica count of
    the stateful set, the backends whose connection is open, and the calls
    made so far. *)
Record World : Type := {
  claims : list PersistentVolumeClaim;
  volumes : gmap string PersistentVolumeSpec;
  Replicas : Z;
  connected : gset Handle;
  trace : list Event;
}.

Definition log (e : Event) (w : World) : World :=
  {| claims := claims w; volumes := volumes w; Replicas := Replicas w;
     connected := connected w; trace := trace w ++ [e] |}.

Definition setVolumes (vs : gmap string PersistentVolumeSpec) (w : World) : World :=
  {| claims := claims w; volumes := vs; Replicas := Replicas w;
     connected := connected w; trace := trace w |}.

Definition setConnected (cs : gset Handle) (w : World) : World :=
  {| claims := claims w; volumes := volumes w; Replicas := Replicas w;
     connected := cs; trace := trace w |}.

(** ** Enumeration: [listPersistentVolumeClaims], [listPersistentVolumes] *)

Section Enumeration.

Variable env : Env.

Definition listPersistentVolumeClaims (w : World)
  : (Error + list PersistentVolumeClaim) * World :=
  match listClaimsFails env (trace w) with
  | Some e => (inl (CouldNotListClaims e), log EvListClaims w)
  | None => (inr (claims w), log EvListClaims w)
  end.

(** [c.KubeClient.PersistentVolumes().Get(name, ...)] *)
Definition getPersistentVolume (name : string) (w : World)
  : (Error + PersistentVolume) * World :=
  let w' := log (EvGetVolume name) w in
  match getVolumeFails env (trace w) name with
  | Some e => (inl e, w')
  | None =>
      match volumes w !! name with
      | Some s => (inr {| pvName := name; pvSpec := s |}, w')
      | None => (inl (External "not found"), w')
      end
  end.

(** What the loop body of [listPersistentVolumes] decides from the name
    of a claim, before the volume is fetched. *)
Inductive ClaimDecision : Type :=
  | Keep
  | Skip
  | Malformed.

Definition claimDecision (name : string) (lastPodIndex : Z) : ClaimDecision :=
  let lastDash := GoString.LastIndexDash name in
  if (0 <? lastDash) && (lastDash <? GoString.len name - 1) then
    match GoString.Atoi (GoString.sliceFrom (Z.to_nat (lastDash + 1)) name) with
    | None => Malformed
    | Some pvcNumber =>
        if lastPodIndex <? GoString.int32 pvcNumber then Skip else Keep
    end
  else Keep.

Fixpoint listLoop (lastPodIndex : Z) (pvcs : list PersistentVolumeClaim)
    (result : list PersistentVolume) (w : World)
  : (Error + list PersistentVolume) * World :=
  match pvcs with
  | [] => (inr result, w)
  | pvc :: rest =>
      match claimDecision (pvcName pvc) lastPodIndex with
      | Malformed => (inl (CouldNotConvertClaimName (pvcName pvc)), w)
      | Skip => listLoop lastPodIndex rest result w
      | Keep =>
          match getPersistentVolume (pvcVolumeName pvc) w with
          | (inl e, w') => (inl (CouldNotGetPersistentVolume e), w')
          | (inr pv, w') => listLoop lastPodIndex rest (result ++ [pv]) w'
          end
      end
  end.

Definition listPersistentVolumes (w : World)
  : (Error + list PersistentVolume) * World :=
  match listPersistentVolumeClaims w with
  | (inl e, w') => (inl (CouldNotListClusterClaims e), w')
  | (inr pvcs, w') =>
      let lastPodIndex := GoString.int32 (Replicas w' - 1) in
      listLoop lastPodIndex pvcs [] w'
  end.

End Enumeration.

(** ** Sizes and pod names *)

(** [q.ScaledValue(0) / (1 * constants.Gigabyte)]: Go's integer division
    truncates toward zero. *)
Definition quantityToGigabyte (q : Quantity) : Z :=
  Z.quot (ScaledValue0 q) (1 * Gigabyte).

(** [getPodNameFromPersistentVolume]; [None] stands for the run-time panic
    of a nil claim reference or of a slice start beyond the end of the
    name. *)
Definition getPodNameFromPersistentVolume (pv : PersistentVolume)
  : option NamespacedName :=
  match ClaimRef (pvSpec pv) with
  | None => None
  | Some ref =>
      let namespace := refNamespace ref in
      let start := GoString.len DataVolumeName + 1 in
      if start <=? GoString.len (refName ref) then
        Some {| Namespace := namespace;
                Name := GoString.sliceFrom (Z.to_nat start) (refName ref) |}
      else None
  end.

(** ** The resize protocol *)

(** The local state of one call of [resizeVolumes].

    The inner statement [for _, resizer := range resizers] declares its
    variable with [:=].  The language specification that applies to this
    package (it predates modules and has no go.mod that asks for Go 1.22
    loop variables) says of such variables that their scope is the block
    of the [for] statement and that they are re-used in each iteration.
    The function literal deferred at lines 114 to 118 refers to that
    variable; it does not copy the value the variable holds when the
    [defer] statement runs.  So [loopVars] holds the current value of the
    variable [resizer] of each execution of the inner [for] statement, in
    the order in which they were entered, and [deferred] holds, most
    recent first, the variable each deferred function literal refers
    to. *)
Record Frame : Type := {
  world : World;
  totalCompatible : Z;
  loopVars : list Handle;
  deferred : list nat;
}.

Definition enter (w : World) : Frame :=
  {| world := w; totalCompatible := 0; loopVars := []; deferred := [] |}.

Definition withWorld (w : World) (fr : Frame) : Frame :=
  {| world := w; totalCompatible := totalCompatible fr;
     loopVars := loopVars fr; deferred := deferred fr |}.

Definition countCompatible (fr : Frame) : Frame :=
  {| world := world fr; totalCompatible := totalCompatible fr + 1;
     loopVars := loopVars fr; deferred := deferred fr |}.

Definition declareVar (r : Handle) (fr : Frame) : Frame :=
  {| world := world fr; totalCompatible := totalCompatible fr;
     loopVars := loopVars fr ++ [r]; deferred := deferred fr |}.

Definition assignVar (cell : nat) (r : Handle) (fr : Frame) : Frame :=
  {| world := world fr; totalCompatible := totalCompatible fr;
     loopVars := <[cell := r]> (loopVars fr); deferred := deferred fr |}.

Definition deferDisconnect (cell : nat) (fr : Frame) : Frame :=
  {| world := world fr; totalCompatible := totalCompatible fr;
     loopVars := loopVars fr; deferred := cell :: deferred fr |}.

(** What a loop body tells its loop: go on, or leave the function. *)
Inductive Flow : Type :=
  | Next
  | Return (o : Outcome).

Section Resize.

Variable env : Env.

(** *** Calls to a backend, to the filesystem resizer and to the store *)

Definition belongs (r : Handle) (pv : PersistentVolume) (w : World) : bool * World :=
  (VolumeBelongsToProvider (resizerOf env r) pv, log (EvBelongs r (pvName pv)) w).

(** Modelled from the spec: [IsConnectedToProvider] reads the connection
    flag of the backend, a successful [ConnectToProvider] sets it and a
    successful [DisconnectFromProvider] clears it; the implementations are
    outside the given sources. *)
Definition isConnected (r : Handle) (w : World) : bool * World :=
  (bool_decide (r ∈ connected w), log (EvIsConnected r) w).

Definition connect (r : Handle) (w : World) : option Error * World :=
  match ConnectToProvider (resizerOf env r) (trace w) with
  | Some e => (Some e, log (EvConnect r false) w)
  | None => (None, log (EvConnect r true) (setConnected ({[r]} ∪ connected w) w))
  end.

Definition disconnect (r : Handle) (w : World) : option Error * World :=
  match DisconnectFromProvider (resizerOf env r) (trace w) with
  | Some e => (Some e, log (EvDisconnect r false) w)
  | None => (None, log (EvDisconnect r true) (setConnected (connected w ∖ {[r]}) w))
  end.

Definition getProviderVolumeID (r : Handle) (pv : PersistentVolume) (w : World)
  : (Error + string) * World :=
  (GetProviderVolumeID (resizerOf env r) (trace w) pv,
   log (EvGetProviderVolumeID r (pvName pv)) w).

Definition resizeVolume (r : Handle) (id : string) (size : Z) (w : World)
  : option Error * World :=
  (ResizeVolume (resizerOf env r) (trace w) id size, log (EvResizeVolume r id size) w).

Definition resizeFilesystem (pod : NamespacedName) (w : World) : option Error * World :=
  (resizePostgresFilesystem env (trace w) pod, log (EvResizeFilesystem pod) w).

(** [c.KubeClient.PersistentVolumes().Update(pv)] *)
Definition updatePersistentVolume (pv : PersistentVolume) (w : World)
  : option Error * World :=
  match updateVolumeFails env (trace w) pv with
  | Some e => (Some e, log (EvUpdateVolume (pvName pv) (storageOf pv) false) w)
  | None =>
      (None, log (EvUpdateVolume (pvName pv) (storageOf pv) true)
               (setVolumes (<[pvName pv := pvSpec pv]> (volumes w)) w))
  end.

(** *** [listVolumesWithManifestSize] *)

Definition listVolumesWithManifestSize (newVolume : Volume) (w : World)
  : (Error + list PersistentVolume * Z) * World :=
  match ParseQuantity env (Size newVolume) with
  | inl e => (inl (CouldNotParseManifestSize e), w)
  | inr newSize =>
      let manifestSize := quantityToGigabyte newSize in
      match listPersistentVolumes env w with
      | (inl e, w') => (inl (CouldNotListPersistentVolumes e), w')
      | (inr vols, w') => (inr (vols, manifestSize), w')
      end
  end.

(** *** [resizeVolumes] *)

Section Batch.

Variable newQuantity : Quantity.
Variable newSize : Z.

(** Lines 109 to 119: connect a backend that is not connected, and
    defer its release. *)
Definition ensureConnected (cell : nat) (r : Handle) (fr : Frame) : Flow * Frame :=
  match isConnected r (world fr) with
  | (true, w1) => (Next, withWorld w1 fr)
  | (false, w1) =>
      match connect r w1 with
      | (Some e, w2) => (Return (Returned (Some (CouldNotConnect e))), withWorld w2 fr)
      | (None, w2) => (Next, deferDisconnect cell (withWorld w2 fr))
      end
  end.

(** Lines 120 to 139: grow the block device, then the filesystem, then
    record the new capacity. *)
Definition growVolume (r : Handle) (pv : PersistentVolume) (fr : Frame)
  : Flow * PersistentVolume * Frame :=
  match getProviderVolumeID r pv (world fr) with
  | (inl e, w1) => (Return (Returned (Some e)), pv, withWorld w1 fr)
  | (inr awsVolumeID, w1) =>
      match resizeVolume r awsVolumeID newSize w1 with
      | (Some e, w2) =>
          (Return (Returned (Some (CouldNotResizeEBSVolume awsVolumeID e))), pv,
           withWorld w2 fr)
      | (None, w2) =>
          match getPodNameFromPersistentVolume pv with
          | None => (Return Panicked, pv, withWorld w2 fr)
          | Some podName =>
              match resizeFilesystem podName w2 with
              | (Some e, w3) =>
                  (Return (Returned (Some (CouldNotResizeFilesystem podName e))), pv,
                   withWorld w3 fr)
              | (None, w3) =>
                  let pv' := setStorage newQuantity pv in
                  match updatePersistentVolume pv' w3 with
                  | (Some e, w4) =>
                      (Return (Returned (Some (CouldNotUpdatePersistentVolume e))), pv',
                       withWorld w4 fr)
                  | (None, w4) => (Next, pv', withWorld w4 fr)
                  end
              end
          end
      end
  end.

(** The body of the inner loop, lines 105 to 139, with [resizer = r]. *)
Definition resizeWith (cell : nat) (r : Handle) (pv : PersistentVolume) (fr : Frame)
  : Flow * PersistentVolume * Frame :=
  match belongs r pv (world fr) with
  | (false, w1) => (Next, pv, withWorld w1 fr)
  | (true, w1) =>
      match ensureConnected cell r (countCompatible (withWorld w1 fr)) with
      | (Return o, fr1) => (Return o, pv, fr1)
      | (Next, fr1) => growVolume r pv fr1
      end
  end.

(** The inner loop over the backends, lines 104 to 140; each iteration
    first assigns the loop variable. *)
Fixpoint resizersLoop (cell : nat) (resizers : list Handle)
    (pv : PersistentVolume) (fr : Frame) : Flow * Frame :=
  match resizers with
  | [] => (Next, fr)
  | r :: rest =>
      match resizeWith cell r pv (assignVar cell r fr) with
      | (Return o, _, fr') => (Return o, fr')
      | (Next, pv', fr') => resizersLoop cell rest pv' fr'
      end
  end.

(** One execution of the inner [for] statement: its variable comes into
    being with the first backend. *)
Definition forResizers (resizers : list Handle) (pv : PersistentVolume) (fr : Frame)
  : Flow * Frame :=
  match resizers with
  | [] => (Next, fr)
  | r :: _ => resizersLoop (length (loopVars fr)) resizers pv (declareVar r fr)
  end.

(** The body of the outer loop, lines 97 to 140. *)
Definition resizeOne (resizers : list Handle) (pv : PersistentVolume) (fr : Frame)
  : Flow * Frame :=
  let volumeSize := quantityToGigabyte (storageOf pv) in
  if newSize <? volumeSize then (Return (Returned (Some CannotShrink)), fr)
  else if volumeSize =? newSize then (Next, fr)
  else forResizers resizers pv fr.

(** The outer loop over the volumes, lines 96 to 141. *)
Fixpoint volumesLoop (resizers : list Handle) (pvs : list PersistentVolume)
    (fr : Frame) : Flow * Frame :=
  match pvs with
  | [] => (Next, fr)
  | pv :: rest =>
      match resizeOne resizers pv fr with
      | (Return o, fr') => (Return o, fr')
      | (Next, fr') => volumesLoop resizers rest fr'
      end
  end.

End Batch.

(** The deferred closures run when the function is left, last deferred
    first, whether it returns or panics; each calls
    [DisconnectFromProvider] on what its variable holds by then, and only
    logs a failure. *)
Fixpoint runDeferred (ds : list nat) (vars : list Handle) (w : World) : World :=
  match ds with
  | [] => w
  | cell :: rest =>
      match vars !! cell with
      | Some r => runDeferred rest vars (snd (disconnect r w))
      | None => runDeferred rest vars w
      end
  end.

Definition leave (fr : Frame) : World :=
  runDeferred (deferred fr) (loopVars fr) (world fr).

(** Lines 142 to 145. *)
Definition afterLoop (pvs : list PersistentVolume) (fr : Frame) : Outcome :=
  if (0 <? Z.of_nat (length pvs)) && (totalCompatible fr =? 0)
  then Returned (Some NotCompatibleWithProviders)
  else Returned None.

Definition resizeVolumes (newVolume : Volume) (resizers : list Handle) (w : World)
  : Outcome * World :=
  match ParseQuantity env (Size newVolume) with
  | inl e => (Returned (Some (CouldNotParseVolumeSize e)), w)
  | inr newQuantity =>
      match listVolumesWithManifestSize newVolume w with
      | (inl e, w1) => (Returned (Some (CouldNotListPersistentVolumes e)), w1)
      | (inr (pvs, newSize), w1) =>
          match volumesLoop newQuantity newSize resizers pvs (enter w1) with
          | (Return o, fr) => (o, leave fr)
          | (Next, fr) => (afterLoop pvs fr, leave fr)
          end
      end
  end.

(** *** [volumesNeedResizing] *)

Fixpoint anyDiffers (manifestSize : Z) (vols : list PersistentVolume) : bool :=
  match vols with
  | [] => false
  | pv :: rest =>
      let currentSize := quantityToGigabyte (storageOf pv) in
      if negb (currentSize =? manifestSize) then true
      else anyDiffers manifestSize rest
  end.

Definition volumesNeedResizing (newVolume : Volume) (w : World)
  : (bool * option Error) * World :=
  match listVolumesWithManifestSize newVolume w with
  | (inl e, w') => ((false, Some e), w')
  | (inr (vols, manifestSize), w') => ((anyDiffers manifestSize vols, None), w')
  end.

End Resize.


(** ** Shapes of claim names, for the statements about enumeration *)

Module NameShape.

Import GoString.

(** A string of decimal digits and the number it denotes, digit by
    digit with its weight. *)
Fixpoint allDigits (s : string) : bool :=
  match s with
  | EmptyString => true
  | String a s' => bool_decide (is_Some (digitOf a)) && allDigits s'
  end.

Fixpoint decimalValue (s : string) : Z :=
  match s with
  | EmptyString => 0
  | String a s' => default 0 (digitOf a) * 10 ^ Z.of_nat (String.length s') + decimalValue s'
  end.

(** No dash anywhere in the string. *)
Fixpoint noDash (s : string) : bool :=
  match s with
  | EmptyString => true
  | String a s' => negb (Ascii.eqb a "-"%char) && noDash s'
  end.

End NameShape.

(** The volume a claim is bound to, as the store has it. *)
Definition resolve (store : gmap string PersistentVolumeSpec) (c : PersistentVolumeClaim)
  : option PersistentVolume :=
  (λ s, {| pvName := pvcVolumeName c; pvSpec := s |}) <$> store !! pvcVolumeName c.

(** The index of the last running pod, as [listPersistentVolumes] computes
    it, and whether the name test lets a claim through. *)
Definition lastPodIndexOf (w : World) : Z := GoString.int32 (Replicas w - 1).

Definition keeps (lastPodIndex : Z) (c : PersistentVolumeClaim) : bool :=
  match claimDecision (pvcName c) lastPodIndex with
  | Keep => true
  | _ => false
  end.

(** Two worlds that differ at most in the calls recorded. *)
Definition sameState (w w' : World) : Prop :=
  claims w' = claims w ∧ volumes w' = volumes w ∧
  Replicas w' = Replicas w ∧ connected w' = connected w.

(** ** Concrete clusters for the examples *)

Module Fixtures.

(** The part of [resource.ParseQuantity] that the examples use: a decimal
    number of bytes, alone or followed by the binary suffix Gi. *)
Fixpoint parseSuffixed (s : string) (acc : Z) : Error + Quantity :=
  match s with
  | EmptyString => inr acc
  | String "G"%char (String "i"%char EmptyString) => inr (acc * 2 ^ 30)
  | String a s' =>
      match GoString.digitOf a with
      | Some d => parseSuffixed s' (acc * 10 + d)
      | None => inl (External "unable to parse quantity's suffix")
      end
  end.

Definition parseQuantity (s : string) : Error + Quantity :=
  match s with
  | EmptyString => inl (External "empty quantity")
  | String a _ =>
      if bool_decide (is_Some (GoString.digitOf a)) then parseSuffixed s 0
      else inl (External "quantities must match the regular expression")
  end.

(** A backend that owns the volumes [owns] selects and never fails. *)
Definition backend (owns : PersistentVolume → bool) : VolumeResizer :=
  {| VolumeBelongsToProvider := owns;
     ConnectToProvider := λ _, None;
     DisconnectFromProvider := λ _, None;
     GetProviderVolumeID := λ _ pv, inr ("vol-" +:+ pvName pv);
     ResizeVolume := λ _ _ _, None |}.

(** An environment in which no call fails. *)
Definition calm (backends : Handle → VolumeResizer) : Env :=
  {| ParseQuantity := parseQuantity;
     resizerOf := backends;
     listClaimsFails := λ _, None;
     getVolumeFails := λ _ _, None;
     updateVolumeFails := λ _ _, None;
     resizePostgresFilesystem := λ _ _, None |}.

Definition ownsAll : PersistentVolume → bool := λ _, true.
Definition ownsNone : PersistentVolume → bool := λ _, false.
Definition ownsNamed (name : string) : PersistentVolume → bool :=
  λ pv, bool_decide (pvName pv = name).

Definition claim (name vol : string) : PersistentVolumeClaim :=
  {| pvcName := name; pvcNamespace := "default"; pvcVolumeName := vol |}.

Definition volumeSpec (q : Quantity) (claimName : string) : PersistentVolumeSpec :=
  {| Capacity := {[ResourceStorage := q]};
     ClaimRef := Some {| refNamespace := "default"; refName := claimName |} |}.

Definition cluster (cs : list PersistentVolumeClaim)
    (vs : gmap string PersistentVolumeSpec) (replicas : Z) : World :=
  {| claims := cs; volumes := vs; Replicas := replicas; connected := ∅; trace := [] |}.

(** Three claims of the stateful set db-cluster and their volumes. *)
Definition dbClaims : list PersistentVolumeClaim :=
  [claim "db-cluster-0" "pv-0"; claim "db-cluster-1" "pv-1"; claim "db-cluster-2" "pv-2"].

Definition dbVolumes : gmap string PersistentVolumeSpec :=
  {[ "pv-0" := volumeSpec (10 * Gigabyte) "db-cluster-0";
     "pv-1" := volumeSpec (10 * Gigabyte) "db-cluster-1";
     "pv-2" := volumeSpec (10 * Gigabyte) "db-cluster-2" ]}.

(** A claim whose ordinal does not fit a 64-bit integer, next to a
    regular one. *)
Definition hugeOrdinalClaims : list PersistentVolumeClaim :=
  [claim "db-cluster-0" "pv-0"; claim "db-cluster-99999999999999999999" "pv-1"].

(** A claim whose last token is not a number. *)
Definition namedClaims : list PersistentVolumeClaim :=
  [claim "pgdata-mycluster-abc" "pv-0"].

End Fixtures.

(** ** Concrete batches for the examples *)

Module Batches.

Import Fixtures.

(** One claim and its volume of 10Gi. *)
Definition oneClaim : list PersistentVolumeClaim := [claim "pgdata-db-0" "pv-0"].

Definition oneVolume : gmap string PersistentVolumeSpec :=
  {[ "pv-0" := volumeSpec (10 * Gigabyte) "pgdata-db-0" ]}.

(** Two claims: a volume of 5Gi, then one of 20Gi. *)
Definition twoClaims : list PersistentVolumeClaim :=
  [claim "pgdata-db-0" "pv-0"; claim "pgdata-db-1" "pv-1"].

Definition smallThenLarge : gmap string PersistentVolumeSpec :=
  {[ "pv-0" := volumeSpec (5 * Gigabyte) "pgdata-db-0";
     "pv-1" := volumeSpec (20 * Gigabyte) "pgdata-db-1" ]}.

(** A volume of 10Gi, then one of 20Gi. *)
Definition targetThenLarge : gmap string PersistentVolumeSpec :=
  {[ "pv-0" := volumeSpec (10 * Gigabyte) "pgdata-db-0";
     "pv-1" := volumeSpec (20 * Gigabyte) "pgdata-db-1" ]}.

(** Two volumes of 10Gi. *)
Definition twoSmall : gmap string PersistentVolumeSpec :=
  {[ "pv-0" := volumeSpec (10 * Gigabyte) "pgdata-db-0";
     "pv-1" := volumeSpec (10 * Gigabyte) "pgdata-db-1" ]}.

(** A volume whose claim back-reference is shorter than the prefix. *)
Definition shortRef : gmap string PersistentVolumeSpec :=
  {[ "pv-0" := volumeSpec (10 * Gigabyte) "pg" ]}.

(** Backend 0 owns every volume, any other backend owns none. *)
Definition firstOwns : Handle → VolumeResizer :=
  λ r, match r with O => backend ownsAll | _ => backend ownsNone end.

(** Every backend owns every volume. *)
Definition allOwn : Handle → VolumeResizer := λ _, backend ownsAll.

(** Backend 0 owns the volume pv-0 only. *)
Definition ownsFirstVolume : Handle → VolumeResizer :=
  λ r, match r with O => backend (ownsNamed "pv-0") | _ => backend ownsNone end.

(** What the store records as the storage capacity of a volume. *)
Definition recorded (name : string) (w : World) : option Quantity :=
  s ← volumes w !! name; Capacity s !! ResourceStorage.

End Batches.

(** ** Kinds of recorded calls *)

Definition isBlockResize (e : Event) : bool :=
  match e with
  | EvResizeVolume _ _ _ => true
  | _ => false
  end.

Definition isConnection (e : Event) : bool :=
  match e with
  | EvConnect _ _ | EvDisconnect _ _ => true
  | _ => false
  end.

(** ** How a call may change the world *)

(** The storage capacity a record of the store holds. *)
Definition capacityOf (s : PersistentVolumeSpec) : Quantity :=
  default 0 (Capacity s !! ResourceStorage).

(** A store update is in order when it writes the quantity [newQ] to a
    volume that [may] be written. *)
Definition updateInOrder (newQ : Quantity) (may : string → Prop) (e : Event) : Prop :=
  match e with
  | EvUpdateVolume name q _ => may name ∧ q = newQ
  | _ => True
  end.

(** From [w] to [w']: claims and replica count stay, calls are added to
    the trace, every added store update is in order, and a record of the
    store either stays or belongs to a volume that may be written and then
    holds the capacity [newQ]. *)
Definition evolves (newQ : Quantity) (may : string → Prop) (w w' : World) : Prop :=
  claims w' = claims w ∧ Replicas w' = Replicas w ∧
  (∃ evs, trace w' = trace w ++ evs ∧ Forall (updateInOrder newQ may) evs) ∧
  (∀ n, volumes w' !! n = volumes w !! n ∨
        (may n ∧ ∃ s', volumes w' !! n = Some s' ∧ capacityOf s' = newQ)).

(** The store holds the capacity [newQ] for the volume [n]. *)
Definition atTarget (newQ : Quantity) (w : World) (n : string) : Prop :=
  ∃ s, volumes w !! n = Some s ∧ capacityOf s = newQ.

(** Some backend of the list claims the volume; some volume of the batch
    that is below the target is claimed by some backend. *)
Definition hasOwner (env : Env) (resizers : list Handle) (pv : PersistentVolume) : bool :=
  existsb (λ r, VolumeBelongsToProvider (resizerOf env r) pv) resizers.

Definition anyCompatible (env : Env) (newSize : Z) (resizers : list Handle)
    (pvs : list PersistentVolume) : bool :=
  existsb (λ pv, (quantityToGigabyte (storageOf pv) <? newSize) && hasOwner env resizers pv)
    pvs.

(** The names a batch may write: those of its volumes below the target. *)
Definition below (newSize : Z) (pvs : list PersistentVolume) (n : string) : Prop :=
  ∃ pv, pv ∈ pvs ∧ pvName pv = n ∧ quantityToGigabyte (storageOf pv) < newSize.

(** ** The earlier revision of the resize loop *)

(** The other revision of the file among the sources has the same function
    with its loop arranged differently (lines 87 to 131 there): the backend
    loop comes first, the size tests come after the connection, and the
    release is deferred as [defer resizer.DisconnectFromProvider()], which
    evaluates the receiver when the [defer] statement runs.  It is embedded
    here on a batch already listed, to be compared with the revision
    above. *)
Module Earlier.

Section Loop.

Variable env : Env.
Variable newQuantity : Quantity.
Variable newSize : Z.

(** A deferred call with its receiver bound: it has a cell of its own. *)
Definition deferBound (r : Handle) (fr : Frame) : Frame :=
  deferDisconnect (length (loopVars fr)) (declareVar r fr).

Definition connectAndDefer (r : Handle) (fr : Frame) : Flow * Frame :=
  match isConnected r (world fr) with
  | (true, w1) => (Next, withWorld w1 fr)
  | (false, w1) =>
      match connect env r w1 with
      | (Some e, w2) => (Return (Returned (Some (CouldNotConnect e))), withWorld w2 fr)
      | (None, w2) => (Next, deferBound r (withWorld w2 fr))
      end
  end.

Definition bodyWith (r : Handle) (pv : PersistentVolume) (fr : Frame)
  : Flow * PersistentVolume * Frame :=
  match belongs env r pv (world fr) with
  | (false, w1) => (Next, pv, withWorld w1 fr)
  | (true, w1) =>
      match connectAndDefer r (countCompatible (withWorld w1 fr)) with
      | (Return o, fr1) => (Return o, pv, fr1)
      | (Next, fr1) =>
          let volumeSize := quantityToGigabyte (storageOf pv) in
          if newSize <? volumeSize then (Return (Returned (Some CannotShrink)), pv, fr1)
          else if negb (volumeSize =? newSize)
               then growVolume env newQuantity newSize r pv fr1
               else (Next, pv, fr1)
      end
  end.

Fixpoint backendsLoop (resizers : list Handle) (pv : PersistentVolume) (fr : Frame)
  : Flow * Frame :=
  match resizers with
  | [] => (Next, fr)
  | r :: rest =>
      match bodyWith r pv fr with
      | (Return o, _, fr') => (Return o, fr')
      | (Next, pv', fr') => backendsLoop rest pv' fr'
      end
  end.

Fixpoint batchLoop (resizers : list Handle) (pvs : list PersistentVolume) (fr : Frame)
  : Flow * Frame :=
  match pvs with
  | [] => (Next, fr)
  | pv :: rest =>
      match backendsLoop resizers pv fr with
      | (Return o, fr') => (Return o, fr')
      | (Next, fr') => batchLoop resizers rest fr'
      end
  end.

Definition resizeListed (resizers : list Handle) (pvs : list PersistentVolume) (w : World)
  : Outcome * World :=
  match batchLoop resizers pvs (enter w) with
  | (Return o, fr) => (o, leave env fr)
  | (Next, fr) => (afterLoop pvs fr, leave env fr)
  end.

End Loop.

End Earlier.

(** ** The connection calls of a run *)

Definition isDisconnect (e : Event) : bool :=
  match e with
  | EvDisconnect _ _ => true
  | _ => false
  end.

(** The calls to [ConnectToProvider] and [DisconnectFromProvider] of a
    trace, in order. *)
Definition connectionCalls (tr : list Event) : list Event :=
  filter (λ e, isConnection e = true) tr.

(** From [w] to [w'] no connection was opened or closed. *)
Definition quiet (w w' : World) : Prop :=
  connected w' = connected w ∧
  connectionCalls (trace w') = connectionCalls (trace w).

(** Since [w0], the backends [opened] were connected, each once and in
    that order, after at most one attempt in [failed] did not succeed; no
    backend was released, and one release is deferred for each backend
    opened. *)
Definition exiting (w0 : World) (opened failed : list Handle) (fr : Frame) : Prop :=
  connectionCalls (trace (world fr)) =
    connectionCalls (trace w0) ++ ((λ r, EvConnect r true) <$> opened)
                               ++ ((λ r, EvConnect r false) <$> failed)
  ∧ NoDup (opened ++ failed)
  ∧ (∀ r, r ∈ opened ++ failed → r ∉ connected w0)
  ∧ (length failed ≤ 1)%nat
  ∧ length (deferred fr) = length opened
  ∧ Forall (λ cell, (cell < length (loopVars fr))%nat) (deferred fr).

(** The same while the loops go on: no attempt failed, and the backends
    opened are the ones whose flag was set. *)
Definition opening (w0 : World) (opened : list Handle) (fr : Frame) : Prop :=
  exiting w0 opened [] fr
  ∧ connected (world fr) = connected w0 ∪ list_to_set opened.

Definition after (w0 : World) (flow : Flow) (fr : Frame) : Prop :=
  match flow with
  | Next => ∃ opened, opening w0 opened fr
  | Return _ => ∃ opened failed, exiting w0 opened failed fr
  end.

(** The environment in which the backends answer [DisconnectFromProvider]
    as [d] says and everything else is as in [env]. *)
Definition withDisconnect (d : Handle → list Event → option Error) (env : Env) : Env :=
  {| ParseQuantity := ParseQuantity env;
     resizerOf := λ r,
       {| VolumeBelongsToProvider := VolumeBelongsToProvider (resizerOf env r);
          ConnectToProvider := ConnectToProvider (resizerOf env r);
          DisconnectFromProvider := d r;
          GetProviderVolumeID := GetProviderVolumeID (resizerOf env r);
          ResizeVolume := ResizeVolume (resizerOf env r) |};
     listClaimsFails := listClaimsFails env;
     getVolumeFails := getVolumeFails env;
     updateVolumeFails := updateVolumeFails env;
     resizePostgresFilesystem := resizePostgresFilesystem env |}.


(** * The rest of the file *)

(** ** [deletePersistenVolumeClaims] *)

(** One call [c.KubeClient.PersistentVolumeClaims(namespace).Delete(name,
    c.deleteOptions)] and whether it returned nil. *)
Record DeleteCall : Type := {
  delNamespace : string;
  delName : string;
  delOk : bool;
}.

(** The lines the function hands to the logger: lines 33, 39, 41, 45 and
    47. *)
Inductive LogLine : Type :=
  | DeletingPVCs
  | DeletingPVC (namespace name : string)
  | CouldNotDeleteClaim (e : Error)
  | PVCsHaveBeenDeleted
  | NoPVCsToDelete.

(** The world during the sweep, the delete calls made so far and the lines
    logged so far. *)
Record Sweep : Type := {
  swept : World;
  deleteCalls : list DeleteCall;
  logged : list LogLine;
}.

Definition setClaims (cs : list PersistentVolumeClaim) (w : World) : World :=
  {| claims := cs; volumes := volumes w; Replicas := Replicas w;
     connected := connected w; trace := trace w |}.

(** The claim is the one a delete call names. *)
Definition namedBy (namespace name : string) (c : PersistentVolumeClaim) : bool :=
  bool_decide (pvcNamespace c = namespace) && bool_decide (pvcName c = name).

Section Delete.

Variable env : Env.

(** What the store answers to a delete, given the delete calls made so
    far: an error, or nil. *)
Variable deleteFails : list DeleteCall → string → string → option Error.

(** The call of line 40.  A delete that succeeds takes the claim of that
    namespace and name out of the store. *)
Definition deleteClaim (namespace name : string) (s : Sweep) : option Error * Sweep :=
  match deleteFails (deleteCalls s) namespace name with
  | Some e =>
      (Some e,
       {| swept := swept s;
          deleteCalls := deleteCalls s ++
            [{| delNamespace := namespace; delName := name; delOk := false |}];
          logged := logged s |})
  | None =>
      (None,
       {| swept := setClaims
                     (filter (λ c, namedBy namespace name c = false) (claims (swept s)))
                     (swept s);
          deleteCalls := deleteCalls s ++
            [{| delNamespace := namespace; delName := name; delOk := true |}];
          logged := logged s |})
  end.

Definition logLine (l : LogLine) (s : Sweep) : Sweep :=
  {| swept := swept s; deleteCalls := deleteCalls s; logged := logged s ++ [l] |}.

(** The loop of lines 38 to 43: a delete that fails is logged as a warning
    and the loop goes on. *)
Fixpoint deleteLoop (pvcs : list PersistentVolumeClaim) (s : Sweep) : Sweep :=
  match pvcs with
  | [] => s
  | pvc :: rest =>
      let s1 := logLine (DeletingPVC (pvcNamespace pvc) (pvcName pvc)) s in
      match deleteClaim (pvcNamespace pvc) (pvcName pvc) s1 with
      | (Some e, s2) => deleteLoop rest (logLine (CouldNotDeleteClaim e) s2)
      | (None, s2) => deleteLoop rest s2
      end
  end.

Definition deletePersistenVolumeClaims (w : World) : option Error * Sweep :=
  let s0 := {| swept := w; deleteCalls := []; logged := [DeletingPVCs] |} in
  match listPersistentVolumeClaims env w with
  | (inl e, w') =>
      (Some e, {| swept := w'; deleteCalls := []; logged := logged s0 |})
  | (inr pvcs, w') =>
      let s1 := deleteLoop pvcs
                  {| swept := w'; deleteCalls := []; logged := logged s0 |} in
      if 0 <? Z.of_nat (length pvcs)
      then (None, logLine PVCsHaveBeenDeleted s1)
      else (None, logLine NoPVCsToDelete s1)
  end.

End Delete.

(** The claims of a list that no successful call of [calls] names. *)
Definition survivors (calls : list DeleteCall) (cs : list PersistentVolumeClaim)
  : list PersistentVolumeClaim :=
  filter (λ c, existsb (λ d, delOk d && namedBy (delNamespace d) (delName d) c) calls
               = false) cs.

Definition isWarning (l : LogLine) : bool :=
  match l with
  | CouldNotDeleteClaim _ => true
  | _ => false
  end.

(** A call that only reads the store. *)
Definition isRead (e : Event) : bool :=
  match e with
  | EvListClaims | EvGetVolume _ => true
  | _ => false
  end.

(** ** What a resize leaves of a record *)

(** The record with its storage capacity replaced and nothing else. *)
Definition withCapacity (q : Quantity) (s : PersistentVolumeSpec) : PersistentVolumeSpec :=
  {| Capacity := <[ResourceStorage := q]> (Capacity s); ClaimRef := ClaimRef s |}.

(** Every record of [w] is the record [w0] has under that name, as it was
    or with the storage capacity [q]; no record was added or removed. *)
Definition regrown (q : Quantity) (w0 w : World) : Prop :=
  ∀ n, volumes w !! n = volumes w0 !! n
       ∨ ∃ s, volumes w0 !! n = Some s ∧ volumes w !! n = Some (withCapacity q s).

(** ** The calls a run may add *)

(** The backend a recorded call was made on, for the calls of the
    interface. *)
Definition backendOf (e : Event) : option Handle :=
  match e with
  | EvBelongs r _ | EvIsConnected r | EvConnect r _ | EvDisconnect r _
  | EvGetProviderVolumeID r _ | EvResizeVolume r _ _ => Some r
  | _ => None
  end.

(** A call that is made on a backend is made on one of [rs]. *)
Definition within (rs : list Handle) (e : Event) : Prop :=
  match backendOf e with
  | Some r => r ∈ rs
  | None => True
  end.

(** A call within [rs] that is not a release. *)
Definition loopCall (rs : list Handle) (e : Event) : Prop :=
  within rs e ∧ isDisconnect e = false.

(** A release of one of the backends [vars]. *)
Definition releaseOf (vars : list Handle) (e : Event) : Prop :=
  ∃ r ok, e = EvDisconnect r ok ∧ r ∈ vars.

(** From [w] to [w'] calls were added to the trace, each satisfying [P]. *)
Definition adds (P : Event → Prop) (w w' : World) : Prop :=
  ∃ evs, trace w' = trace w ++ evs ∧ Forall P evs.

(** ** The order of the calls that grow a volume *)

Definition isUpdate (e : Event) : bool :=
  match e with
  | EvUpdateVolume _ _ _ => true
  | _ => false
  end.

(** The trace [tr] ends with the three calls that grow the volume [name]:
    the lookup of its provider id on a backend, the resize of the block
    device on that backend and the resize of the filesystem in the pod,
    each answered without an error. *)
Definition endsWithResize (env : Env) (tr : list Event) (name : string) : Prop :=
  ∃ tr0 r pv id size pod,
    tr = tr0 ++ [EvGetProviderVolumeID r name; EvResizeVolume r id size;
                 EvResizeFilesystem pod]
    ∧ pvName pv = name
    ∧ GetProviderVolumeID (resizerOf env r) tr0 pv = inr id
    ∧ ResizeVolume (resizerOf env r) (tr0 ++ [EvGetProviderVolumeID r name]) id size
      = None
    ∧ resizePostgresFilesystem env
        (tr0 ++ [EvGetProviderVolumeID r name; EvResizeVolume r id size]) pod = None.

(** From [w0] to [w] calls were added to the trace, and each update of a
    volume record among them comes directly after the three calls that grow
    that volume. *)
Definition ordered (env : Env) (w0 w : World) : Prop :=
  ∃ evs, trace w = trace w0 ++ evs
         ∧ ∀ pre n q ok post,
             evs = pre ++ EvUpdateVolume n q ok :: post →
             endsWithResize env (trace w0 ++ pre) n.

(** ** Calls that fail *)

(** The two recorded calls that carry their failure: an attempt to
    connect a backend and an update of a volume record. *)
Definition isFailure (e : Event) : bool :=
  match e with
  | EvConnect _ false | EvUpdateVolume _ _ false => true
  | _ => false
  end.

(** The outcome [o] is the error the function builds from the failure of
    the call [f] (lines 112 and 137). *)
Definition reports (o : Outcome) (f : Event) : Prop :=
  match f with
  | EvConnect _ _ => ∃ e, o = Returned (Some (CouldNotConnect e))
  | EvUpdateVolume _ _ _ => ∃ e, o = Returned (Some (CouldNotUpdatePersistentVolume e))
  | _ => False
  end.

(** From [w0] to [w] calls were added of which none failed, or of which
    the last one failed and the flow leaves the function with its error. *)
Definition stops (w0 : World) (flow : Flow) (w : World) : Prop :=
  adds (λ e, isFailure e = false) w0 w
  ∨ ∃ evs f o,
      flow = Return o
      ∧ trace w = trace w0 ++ evs ++ [f]
      ∧ Forall (λ e, isFailure e = false) evs
      ∧ isFailure f = true
      ∧ reports o f.

(** A backend that refuses every connection and claims the volumes
    [owns]. *)
Definition refusing (owns : PersistentVolume → bool) : VolumeResizer :=
  {| VolumeBelongsToProvider := owns;
     ConnectToProvider := λ _, Some (External "refused");
     DisconnectFromProvider := λ _, None;
     GetProviderVolumeID := λ _ pv, inr ("vol-" +:+ pvName pv);
     ResizeVolume := λ _ _ _, None |}.

(** ** Releases in the earlier revision *)

(** The cells of the deferred releases hold the backends [opened], the
    one opened last first. *)
Definition holds (opened : list Handle) (fr : Frame) : Prop :=
  Forall2 (λ cell r, loopVars fr !! cell = Some r) (deferred fr) (reverse opened).

(** The calls [released] are one release of each of the backends [rs], in
    that order. *)
Definition releasesOf (released : list Event) (rs : list Handle) : Prop :=
  Forall2 (λ e r, ∃ ok, e = EvDisconnect r ok) released rs.

(** [after] for the earlier revision: the deferred releases moreover hold
    the backends opened. *)
Definition afterBound (w0 : World) (flow : Flow) (fr : Frame) : Prop :=
  match flow with
  | Next => ∃ opened, opening w0 opened fr ∧ holds opened fr
  | Return _ => ∃ opened failed, exiting w0 opened failed fr ∧ holds opened fr
  end.

(** ** The listing of the earlier revision *)

(** The other revision of the file selects the volumes by the provisioner
    annotations of claims and volumes, not by the ordinal of the claim
    name (lines 52 to 74 there). *)
Module Provisioned.

(** What the loop reads of a claim and of a volume. *)
Record Claim : Type := {
  claimAnnotations : gmap string string;
  claimVolumeName : string;
}.

Record Vol : Type := {
  volName : string;
  volAnnotations : gmap string string;
}.

(** [m[k]] on a Go map of strings: the empty string for a missing key. *)
Definition annotation (m : gmap string string) (k : string) : string :=
  default "" (m !! k).

(** The three [fmt.Errorf] of the function. *)
Inductive ListingError : Type :=
  | ClaimsNotListed (e : Error)
  | VolumeNotFetched (e : Error)
  | MismatchedProvisioner (name : string).

Section Listing.

(** The constants of the package [constants], which is not among the
    sources. *)
Variable VolumeClaimStorageProvisionerAnnotation : string.
Variable VolumeStorateProvisionerAnnotation : string.
Variable EBSProvisioner : string.

(** What [c.KubeClient.PersistentVolumes().Get(name)] answers, given the
    names fetched so far. *)
Variable getVolume : list string → string → Error + Vol.

Definition claimIsEBS (pvc : Claim) : bool :=
  bool_decide (annotation (claimAnnotations pvc) VolumeClaimStorageProvisionerAnnotation
               = EBSProvisioner).

Definition volumeIsEBS (pv : Vol) : bool :=
  bool_decide (annotation (volAnnotations pv) VolumeStorateProvisionerAnnotation
               = EBSProvisioner).

(** The loop of lines 59 to 71; [fetched] are the names asked of the
    store so far. *)
Fixpoint listLoop (pvcs : list Claim) (result : list Vol) (fetched : list string)
  : (ListingError + list Vol) * list string :=
  match pvcs with
  | [] => (inr result, fetched)
  | pvc :: rest =>
      if negb (claimIsEBS pvc) then listLoop rest result fetched
      else
        match getVolume fetched (claimVolumeName pvc) with
        | inl e => (inl (VolumeNotFetched e), fetched ++ [claimVolumeName pvc])
        | inr pv =>
            if negb (volumeIsEBS pv)
            then (inl (MismatchedProvisioner (volName pv)),
                  fetched ++ [claimVolumeName pvc])
            else listLoop rest (result ++ [pv]) (fetched ++ [claimVolumeName pvc])
        end
  end.

(** [listPersistentVolumes], given what [listPersistentVolumeClaims]
    returned. *)
Definition listPersistentVolumes (listed : Error + list Claim)
  : (ListingError + list Vol) * list string :=
  match listed with
  | inl e => (inl (ClaimsNotListed e), [])
  | inr pvcs => listLoop pvcs [] []
  end.

End Listing.

End Provisioned.
(** * Properties *)

(** Reduce matches on pairs and projections of frames, nothing else. *)
Ltac pairs :=
  cbn [fst snd world totalCompatible loopVars deferred withWorld countCompatible
       deferDisconnect assignVar declareVar] in *.

(** ** Names of claims *)

Module Names.

Import GoString NameShape.

Lemma append_nil (t : string) : EmptyString +:+ t = t.
Proof. reflexivity. Qed.

Lemma append_cons (a : ascii) (s t : string) :
  String a s +:+ t = String a (s +:+ t).
Proof. reflexivity. Qed.

Lemma length_append (s t : string) :
  String.length (s +:+ t) = (String.length s + String.length t)%nat.
Proof.
  induction s as [|a s IH]; [by rewrite append_nil |].
  rewrite append_cons. simpl. by rewrite IH.
Qed.

Lemma lastIndexByte_noDash (s : string) :
  noDash s = true → lastIndexByte "-"%char s = None.
Proof.
  induction s as [|a s IH]; simpl; [done |].
  intros [Ha Hs]%andb_prop. rewrite (IH Hs).
  by destruct (Ascii.eqb a "-"%char).
Qed.

Lemma lastIndexByte_append (c : ascii) (s t : string) :
  lastIndexByte c (s +:+ t) =
    match lastIndexByte c t with
    | Some i => Some (String.length s + i)%nat
    | None => lastIndexByte c s
    end.
Proof.
  induction s as [|a s IH].
  - rewrite append_nil. simpl. by destruct (lastIndexByte c t).
  - rewrite append_cons. simpl. rewrite IH. by destruct (lastIndexByte c t).
Qed.

(** The last dash of [base-tok] is the one written, when [tok] has none. *)
Lemma LastIndexDash_token (base tok : string) :
  noDash tok = true →
  LastIndexDash (base +:+ String "-"%char tok) = Z.of_nat (String.length base).
Proof.
  intros Htok. unfold LastIndexDash.
  rewrite lastIndexByte_append. simpl.
  rewrite (lastIndexByte_noDash _ Htok). simpl.
  by rewrite Nat.add_0_r.
Qed.

Lemma LastIndexDash_noDash (s : string) :
  noDash s = true → LastIndexDash s = -1.
Proof. intros H. unfold LastIndexDash. by rewrite lastIndexByte_noDash. Qed.

Lemma sliceFrom_append (base t : string) :
  sliceFrom (String.length base) (base +:+ t) = t.
Proof.
  induction base as [|a s IH]; [by rewrite append_nil |].
  rewrite append_cons. simpl. apply IH.
Qed.

Lemma sliceFrom_token (base tok : string) :
  sliceFrom (Z.to_nat (Z.of_nat (String.length base) + 1))
    (base +:+ String "-"%char tok) = tok.
Proof.
  replace (Z.to_nat (Z.of_nat (String.length base) + 1))
    with (String.length (base +:+ "-")) by (rewrite length_append; simpl; lia).
  replace (base +:+ String "-"%char tok) with ((base +:+ "-") +:+ tok).
  - apply sliceFrom_append.
  - clear. induction base as [|a s IH]; [done |].
    rewrite !append_cons. by rewrite IH.
Qed.

Lemma digitOf_range (a : ascii) (d : Z) : digitOf a = Some d → 0 ≤ d ≤ 9.
Proof.
  unfold digitOf. intros H.
  destruct (48 <=? Z.of_N (N_of_ascii a)) eqn:H1;
    destruct (Z.of_N (N_of_ascii a) <=? 57) eqn:H2; simpl in H; try done.
  inversion H. lia.
Qed.

Lemma allDigits_noDash (s : string) : allDigits s = true → noDash s = true.
Proof.
  induction s as [|a s IH]; simpl; [done |].
  intros [Ha Hs]%andb_prop. rewrite (IH Hs), andb_true_r.
  apply bool_decide_eq_true in Ha as [d Hd].
  destruct (Ascii.eqb_spec a "-"%char) as [->|]; [|done].
  by vm_compute in Hd.
Qed.

Lemma decimalValue_nonneg (s : string) : 0 ≤ decimalValue s.
Proof.
  induction s as [|a s IH]; simpl; [done |].
  destruct (digitOf a) as [d|] eqn:Hd; simpl; [|lia].
  apply digitOf_range in Hd.
  assert (0 ≤ 10 ^ Z.of_nat (String.length s)) by (apply Z.pow_nonneg; lia).
  nia.
Qed.

(** The digit loop computes the positional value. *)
Lemma parseDigits_value (s : string) (acc : Z) :
  allDigits s = true →
  parseDigits s acc = Some (acc * 10 ^ Z.of_nat (String.length s) + decimalValue s).
Proof.
  revert acc. induction s as [|a s IH]; intros acc; simpl.
  - intros _. f_equal. lia.
  - intros [Ha Hs]%andb_prop.
    apply bool_decide_eq_true in Ha as [d Hd]. rewrite Hd. simpl.
    rewrite (IH _ Hs). f_equal.
    rewrite Nat2Z.inj_succ, Z.pow_succ_r by lia. ring.
Qed.

Lemma Atoi_digits (s : string) :
  s ≠ EmptyString → allDigits s = true → decimalValue s ≤ maxInt →
  Atoi s = Some (decimalValue s).
Proof.
  intros Hne Hd Hmax. unfold Atoi.
  destruct s as [|a s]; [done |].
  assert (Hsign : a ≠ "+"%char ∧ a ≠ "-"%char).
  { simpl in Hd. apply andb_prop in Hd as [Ha _].
    apply bool_decide_eq_true in Ha as [d Ha].
    split; intros ->; by vm_compute in Ha. }
  destruct Hsign as [Hp Hm].
  assert (Hbody :
    match String a s with
    | String "+"%char r => (false, r)
    | String "-"%char r => (true, r)
    | _ => (false, String a s)
    end = (false, String a s)).
  { destruct a as [[] [] [] [] [] [] [] []]; try reflexivity; congruence. }
  rewrite Hbody. rewrite (parseDigits_value _ 0 Hd).
  rewrite Z.mul_0_l, Z.add_0_l.
  pose proof (decimalValue_nonneg (String a s)) as Hnn.
  assert (Hlo : (minInt <=? decimalValue (String a s)) = true)
    by (apply Z.leb_le; unfold minInt; lia).
  assert (Hhi : (decimalValue (String a s) <=? maxInt) = true) by (by apply Z.leb_le).
  by rewrite Hlo, Hhi.
Qed.

Lemma int32_small (x : Z) : - 2 ^ 31 ≤ x < 2 ^ 31 → int32 x = x.
Proof.
  intros H. unfold int32.
  rewrite Z.mod_small; lia.
Qed.

End Names.

(** ** Enumeration *)

Module Enumeration.

Import GoString NameShape.

Lemma sameState_refl (w : World) : sameState w w.
Proof. by unfold sameState. Qed.

Lemma sameState_log (e : Event) (w : World) : sameState w (log e w).
Proof. by unfold sameState. Qed.

Lemma sameState_trans (w1 w2 w3 : World) :
  sameState w1 w2 → sameState w2 w3 → sameState w1 w3.
Proof. unfold sameState. intros (-> & -> & -> & ->) (-> & -> & -> & ->). done. Qed.

Lemma getPersistentVolume_world (env : Env) (name : string) (w : World) :
  snd (getPersistentVolume env name w) = log (EvGetVolume name) w.
Proof.
  unfold getPersistentVolume.
  destruct (getVolumeFails env (trace w) name); [done |].
  by destruct (volumes w !! name).
Qed.

Lemma getPersistentVolume_found (env : Env) (name : string) (w w' : World)
    (pv : PersistentVolume) :
  getPersistentVolume env name w = (inr pv, w') →
  pvName pv = name ∧ volumes w !! name = Some (pvSpec pv).
Proof.
  unfold getPersistentVolume.
  destruct (getVolumeFails env (trace w) name); [done |].
  destruct (volumes w !! name) as [s|]; [|done].
  intros H. inversion H. done.
Qed.

Lemma listLoop_sameState (env : Env) (lpi : Z) (pvcs : list PersistentVolumeClaim) :
  ∀ acc w, sameState w (snd (listLoop env lpi pvcs acc w)).
Proof.
  induction pvcs as [|c pvcs IH]; intros acc w; simpl; [apply sameState_refl |].
  destruct (claimDecision (pvcName c) lpi); simpl; try apply sameState_refl; [|apply IH].
  pose proof (getPersistentVolume_world env (pvcVolumeName c) w) as Hw.
  destruct (getPersistentVolume env (pvcVolumeName c) w) as [[e|pv] w1]; simpl in Hw; subst.
  - apply sameState_log.
  - eapply sameState_trans; [apply sameState_log | apply IH].
Qed.

(** A listing that succeeds returns, in order, the volumes of the claims
    that pass the name test, as the store has them. *)
Lemma listLoop_ok (env : Env) (lpi : Z) (pvcs : list PersistentVolumeClaim) :
  ∀ acc w vols w',
    listLoop env lpi pvcs acc w = (inr vols, w') →
    ∃ rest, vols = acc ++ rest ∧
      Forall2 (λ c pv, resolve (volumes w) c = Some pv)
        (filter (λ c, keeps lpi c = true) pvcs) rest.
Proof.
  induction pvcs as [|c pvcs IH]; intros acc w vols w'; simpl.
  - intros H. inversion H; subst. exists []. by rewrite app_nil_r.
  - unfold keeps at 1.
    destruct (claimDecision (pvcName c) lpi) eqn:Hd.
    + pose proof (getPersistentVolume_world env (pvcVolumeName c) w) as Hw.
      destruct (getPersistentVolume env (pvcVolumeName c) w) as [[e|pv] w1] eqn:Hg;
        [done |].
      simpl in Hw. subst w1.
      apply getPersistentVolume_found in Hg as [Hn Hs].
      intros H. apply IH in H as (rest & -> & HF).
      exists (pv :: rest). split; [by rewrite <- app_assoc |].
      rewrite filter_cons_True by (unfold keeps; by rewrite Hd).
      constructor; [|done].
      unfold resolve. rewrite Hs. simpl. destruct pv; simpl in *; by subst.
    + intros H. apply IH in H as (rest & -> & HF).
      exists rest. split; [done |].
      rewrite filter_cons_False; [done |]. unfold keeps. by rewrite Hd.
    + done.
Qed.

Lemma listPersistentVolumes_sameState (env : Env) (w : World) :
  sameState w (snd (listPersistentVolumes env w)).
Proof.
  unfold listPersistentVolumes, listPersistentVolumeClaims.
  destruct (listClaimsFails env (trace w)); simpl; [apply sameState_log |].
  eapply sameState_trans; [apply (sameState_log EvListClaims) | apply listLoop_sameState].
Qed.

Lemma listPersistentVolumes_ok (env : Env) (w w' : World) (vols : list PersistentVolume) :
  listPersistentVolumes env w = (inr vols, w') →
  Forall2 (λ c pv, resolve (volumes w) c = Some pv)
    (filter (λ c, keeps (lastPodIndexOf w) c = true) (claims w)) vols.
Proof.
  unfold listPersistentVolumes, listPersistentVolumeClaims.
  destruct (listClaimsFails env (trace w)); simpl; [done |].
  intros H. apply listLoop_ok in H as (rest & -> & HF). done.
Qed.

(** A claim whose name fails the conversion makes the listing fail. *)
Lemma listLoop_malformed (env : Env) (lpi : Z) (pvcs : list PersistentVolumeClaim)
    (c : PersistentVolumeClaim) :
  c ∈ pvcs → claimDecision (pvcName c) lpi = Malformed →
  ∀ acc w, ∃ e, fst (listLoop env lpi pvcs acc w) = inl e.
Proof.
  intros Hin Hd. induction pvcs as [|c' pvcs IH]; [by apply not_elem_of_nil in Hin |].
  intros acc w. simpl.
  apply elem_of_cons in Hin as [<-|Hin'].
  - rewrite Hd. eauto.
  - destruct (claimDecision (pvcName c') lpi); [| by apply IH | eauto].
    destruct (getPersistentVolume env (pvcVolumeName c') w) as [[e|pv] w1]; [eauto |].
    by apply IH.
Qed.

End Enumeration.

(** ** The name test of the enumeration *)

Module NameTest.

Import GoString NameShape Names Enumeration.

Lemma length_nonempty (s : string) : s ≠ EmptyString → (0 < String.length s)%nat.
Proof. destruct s; [done | simpl; lia]. Qed.

(** A name [base-N] with a decimal [N] below 2^31 is skipped exactly when
    [N] is above the index of the last pod. *)
Lemma claimDecision_ordinal (base ds : string) (lastPodIndex : Z) :
  base ≠ EmptyString → ds ≠ EmptyString → allDigits ds = true →
  decimalValue ds < 2 ^ 31 →
  claimDecision (base +:+ String "-"%char ds) lastPodIndex =
    if lastPodIndex <? decimalValue ds then Skip else Keep.
Proof.
  intros Hb Hds Hd Hlt. unfold claimDecision.
  rewrite (LastIndexDash_token base ds (allDigits_noDash _ Hd)).
  unfold len. rewrite length_append. simpl String.length.
  pose proof (length_nonempty _ Hb). pose proof (length_nonempty _ Hds).
  assert (H1 : (0 <? Z.of_nat (String.length base)) = true) by (apply Z.ltb_lt; lia).
  assert (H2 : (Z.of_nat (String.length base)
                <? Z.of_nat (String.length base + S (String.length ds)) - 1) = true)
    by (apply Z.ltb_lt; lia).
  rewrite H1, H2. simpl andb. cbv iota.
  rewrite sliceFrom_token.
  rewrite Atoi_digits; [| done | done | unfold maxInt; lia].
  rewrite int32_small; [done |].
  pose proof (decimalValue_nonneg ds). lia.
Qed.

Lemma claimDecision_noDash (name : string) (lastPodIndex : Z) :
  noDash name = true → claimDecision name lastPodIndex = Keep.
Proof.
  intros H. unfold claimDecision. by rewrite (LastIndexDash_noDash _ H).
Qed.

Lemma claimDecision_endsWithDash (base : string) (lastPodIndex : Z) :
  claimDecision (base +:+ "-") lastPodIndex = Keep.
Proof.
  unfold claimDecision.
  rewrite (LastIndexDash_token base EmptyString eq_refl).
  unfold len. rewrite length_append. simpl String.length.
  assert (H : (Z.of_nat (String.length base)
               <? Z.of_nat (String.length base + 1) - 1) = false)
    by (apply Z.ltb_ge; lia).
  rewrite H. by rewrite andb_false_r.
Qed.

Lemma claimDecision_malformed (base tok : string) (lastPodIndex : Z) :
  base ≠ EmptyString → tok ≠ EmptyString → noDash tok = true → Atoi tok = None →
  claimDecision (base +:+ String "-"%char tok) lastPodIndex = Malformed.
Proof.
  intros Hb Ht Hnd Hna. unfold claimDecision.
  rewrite (LastIndexDash_token base tok Hnd).
  unfold len. rewrite length_append. simpl String.length.
  apply length_nonempty in Hb. apply length_nonempty in Ht.
  assert (H1 : (0 <? Z.of_nat (String.length base)) = true) by (apply Z.ltb_lt; lia).
  assert (H2 : (Z.of_nat (String.length base)
                <? Z.of_nat (String.length base + S (String.length tok)) - 1) = true)
    by (apply Z.ltb_lt; lia).
  rewrite H1, H2. simpl andb. cbv iota.
  by rewrite sliceFrom_token, Hna.
Qed.

(** A token with a character that is no digit, and no sign in front, is
    not a number for [Atoi]. *)
Lemma parseDigits_nondigit (s : string) (acc : Z) :
  allDigits s = false → parseDigits s acc = None.
Proof.
  revert acc. induction s as [|a s IH]; intros acc; simpl; [done |].
  destruct (digitOf a) as [d|] eqn:Hd; [|done].
  rewrite bool_decide_eq_true_2 by eauto. simpl. apply IH.
Qed.

Lemma Atoi_nonnumeric (a : ascii) (s : string) :
  a ≠ "+"%char → a ≠ "-"%char → allDigits (String a s) = false →
  Atoi (String a s) = None.
Proof.
  intros Hp Hm Hd. unfold Atoi.
  assert (Hbody :
    match String a s with
    | String "+"%char r => (false, r)
    | String "-"%char r => (true, r)
    | _ => (false, String a s)
    end = (false, String a s)).
  { destruct a as [[] [] [] [] [] [] [] []]; try reflexivity; congruence. }
  rewrite Hbody. by rewrite (parseDigits_nondigit _ 0 Hd).
Qed.

Lemma kept_in_listing (store : gmap string PersistentVolumeSpec) (lpi : Z)
    (cs : list PersistentVolumeClaim) (vols : list PersistentVolume)
    (c : PersistentVolumeClaim) :
  Forall2 (λ c pv, resolve store c = Some pv) (filter (λ c, keeps lpi c = true) cs) vols →
  c ∈ cs → keeps lpi c = true →
  ∃ pv, resolve store c = Some pv ∧ pv ∈ vols.
Proof.
  intros HF Hin Hk.
  assert (c ∈ filter (λ c, keeps lpi c = true) cs) as Hf
    by (by apply list_elem_of_filter).
  apply list_elem_of_lookup in Hf as [i Hi].
  destruct (Forall2_lookup_l _ _ _ _ _ HF Hi) as (pv & Hpv & Hres).
  exists pv. split; [done |]. by eapply list_elem_of_lookup_2.
Qed.

End NameTest.

(** ** Claims about the enumeration *)

Import GoString NameShape.

(** The narrowing conversion at line 68 wraps: an ordinal of 2^32 compares
    as 0 and the claim is kept. *)
Example ordinal_wraps_to_int32 :
  claimDecision "db-cluster-4294967296" (int32 (2 - 1)) = Keep.
Proof. reflexivity. Qed.

(** C7, as stated, fails: a claim whose name ends in the decimal ordinal
    99999999999999999999, far above the replica count 2, is not excluded
    with the volumes of the other claims returned; the conversion of the
    ordinal fails and the whole enumeration returns an error. *)
Lemma C7_counterexample :
  let w := Fixtures.cluster Fixtures.hugeOrdinalClaims Fixtures.dbVolumes 2 in
  allDigits "99999999999999999999" = true ∧
  Replicas w - 1 < decimalValue "99999999999999999999" ∧
  fst (listPersistentVolumes (Fixtures.calm (λ _, Fixtures.backend Fixtures.ownsAll)) w)
    = inl (CouldNotConvertClaimName "db-cluster-99999999999999999999").
Proof. vm_compute. repeat split; reflexivity. Qed.

(** C7, amended.  An enumeration that succeeds returns, in the order of the
    claims, the volumes of exactly the claims that pass the name test.  A
    claim named base-N, with a non-empty base and a decimal ordinal N below
    2^31, is skipped exactly when N is strictly greater than the replica
    count minus one, and passes otherwise.  In particular db-cluster-2 is
    skipped when the replica count is 2 and kept when it is 3. *)
Theorem C7_ordinal_filter (env : Env) (w w' : World) (vols : list PersistentVolume)
    (c : PersistentVolumeClaim) (base ds : string) :
  listPersistentVolumes env w = (inr vols, w') →
  0 ≤ Replicas w < 2 ^ 31 →
  c ∈ claims w →
  pvcName c = base +:+ String "-"%char ds →
  base ≠ EmptyString → ds ≠ EmptyString →
  allDigits ds = true → decimalValue ds < 2 ^ 31 →
  Forall2 (λ c pv, resolve (volumes w) c = Some pv)
    (filter (λ c, keeps (lastPodIndexOf w) c = true) (claims w)) vols
  ∧ (claimDecision (pvcName c) (lastPodIndexOf w) = Skip ↔ Replicas w - 1 < decimalValue ds)
  ∧ (claimDecision (pvcName c) (lastPodIndexOf w) = Keep ↔ decimalValue ds ≤ Replicas w - 1)
  ∧ claimDecision "db-cluster-2" (int32 (2 - 1)) = Skip
  ∧ claimDecision "db-cluster-2" (int32 (3 - 1)) = Keep.
Proof.
  intros Hl Hr Hin Hname Hb Hds Hd Hlt.
  split; [by eapply Enumeration.listPersistentVolumes_ok |].
  rewrite Hname, (NameTest.claimDecision_ordinal base ds _ Hb Hds Hd Hlt).
  unfold lastPodIndexOf. rewrite Names.int32_small by lia.
  destruct (Z.ltb_spec (Replicas w - 1) (decimalValue ds)).
  - repeat split; try done; lia.
  - repeat split; try done; lia.
Qed.

Lemma C7_ordinal_filter_witness :
  let w := Fixtures.cluster Fixtures.dbClaims Fixtures.dbVolumes 2 in
  claimDecision "db-cluster-2" (lastPodIndexOf w) = Skip ↔ Replicas w - 1 < decimalValue "2".
Proof.
  set (env := Fixtures.calm (λ _, Fixtures.backend Fixtures.ownsAll)).
  set (w0 := Fixtures.cluster Fixtures.dbClaims Fixtures.dbVolumes 2).
  destruct (listPersistentVolumes env w0) as [[e|vols] w'] eqn:Hl;
    [vm_compute in Hl; discriminate |].
  refine (proj1 (proj2
    (C7_ordinal_filter env w0 w' vols (Fixtures.claim "db-cluster-2" "pv-2")
       "db-cluster" "2" Hl _ _ _ _ _ _ _))).
  - vm_compute. split; [discriminate | reflexivity].
  - unfold w0, Fixtures.cluster, Fixtures.dbClaims. simpl. set_solver.
  - reflexivity.
  - discriminate.
  - discriminate.
  - reflexivity.
  - vm_compute. reflexivity.
Defined.

(** C8, as stated, fails: a claim whose last dash-delimited token is not a
    number is not listed as eligible; the enumeration aborts with an
    error. *)
Lemma C8_counterexample :
  let w := Fixtures.cluster Fixtures.namedClaims Fixtures.dbVolumes 1 in
  allDigits "abc" = false ∧
  fst (listPersistentVolumes (Fixtures.calm (λ _, Fixtures.backend Fixtures.ownsAll)) w)
    = inl (CouldNotConvertClaimName "pgdata-mycluster-abc").
Proof. vm_compute. split; reflexivity. Qed.

(** C8, amended.  A claim whose name has no dash, or ends in a dash, passes
    the name test for every replica count, and an enumeration that succeeds
    returns its volume.  A claim whose name is base-token, with a non-empty
    base and a non-empty last token that [strconv.Atoi] does not accept,
    makes the enumeration fail with an error. *)
Theorem C8_names_without_ordinal (env : Env) (w : World) (c : PersistentVolumeClaim)
    (base tok : string) :
  c ∈ claims w →
  (noDash (pvcName c) = true ∨ pvcName c = base +:+ "-" →
     (∀ lastPodIndex, claimDecision (pvcName c) lastPodIndex = Keep) ∧
     (∀ vols w', listPersistentVolumes env w = (inr vols, w') →
        ∃ pv, resolve (volumes w) c = Some pv ∧ pv ∈ vols))
  ∧ (pvcName c = base +:+ String "-"%char tok →
     base ≠ EmptyString → tok ≠ EmptyString → noDash tok = true → Atoi tok = None →
     ∃ e, fst (listPersistentVolumes env w) = inl e).
Proof.
  intros Hin. split.
  - intros Hshape.
    assert (Hkeep : ∀ lastPodIndex, claimDecision (pvcName c) lastPodIndex = Keep).
    { intros lpi. destruct Hshape as [Hnd| ->].
      - by apply NameTest.claimDecision_noDash.
      - apply NameTest.claimDecision_endsWithDash. }
    split; [done |].
    intros vols w' Hl. apply Enumeration.listPersistentVolumes_ok in Hl.
    eapply NameTest.kept_in_listing; [done | done |].
    unfold keeps. by rewrite Hkeep.
  - intros Hname Hb Ht Hnd Hna.
    pose proof (NameTest.claimDecision_malformed base tok (lastPodIndexOf w) Hb Ht Hnd Hna)
      as Hm.
    rewrite <- Hname in Hm.
    unfold listPersistentVolumes, listPersistentVolumeClaims.
    destruct (listClaimsFails env (trace w)); simpl; [eauto |].
    by eapply Enumeration.listLoop_malformed.
Qed.

Lemma C8_names_without_ordinal_witness :
  (∀ lastPodIndex, claimDecision "pgdata" lastPodIndex = Keep) ∧
  (∃ e, fst (listPersistentVolumes
               (Fixtures.calm (λ _, Fixtures.backend Fixtures.ownsAll))
               (Fixtures.cluster Fixtures.namedClaims Fixtures.dbVolumes 1)) = inl e).
Proof.
  split.
  - refine (proj1 (proj1
      (C8_names_without_ordinal
         (Fixtures.calm (λ _, Fixtures.backend Fixtures.ownsAll))
         (Fixtures.cluster [Fixtures.claim "pgdata" "pv-0"] Fixtures.dbVolumes 1)
         (Fixtures.claim "pgdata" "pv-0") "" "" _) _)).
    + simpl. set_solver.
    + left. reflexivity.
  - refine (proj2
      (C8_names_without_ordinal
         (Fixtures.calm (λ _, Fixtures.backend Fixtures.ownsAll))
         (Fixtures.cluster Fixtures.namedClaims Fixtures.dbVolumes 1)
         (Fixtures.claim "pgdata-mycluster-abc" "pv-0") "pgdata-mycluster" "abc" _)
      _ _ _ _ _).
    + unfold Fixtures.namedClaims. simpl. set_solver.
    + reflexivity.
    + discriminate.
    + discriminate.
    + reflexivity.
    + reflexivity.
Defined.

(** ** The loops of [resizeVolumes] *)

Module Loops.

Lemma listVolumesWithManifestSize_ok (env : Env) (nv : Volume) (w w1 : World)
    (pvs : list PersistentVolume) (newSize : Z) :
  listVolumesWithManifestSize env nv w = (inr (pvs, newSize), w1) →
  ∃ q, ParseQuantity env (Size nv) = inr q ∧ newSize = quantityToGigabyte q ∧
       listPersistentVolumes env w = (inr pvs, w1).
Proof.
  unfold listVolumesWithManifestSize.
  destruct (ParseQuantity env (Size nv)) as [e|q]; [done |].
  destruct (listPersistentVolumes env w) as [[e|vols] w'] eqn:Hl; [done |].
  intros H. inversion H; subst. eauto.
Qed.

Lemma resizeVolumes_unfold (env : Env) (nv : Volume) (rs : list Handle) (w w1 : World)
    (newQ : Quantity) (pvs : list PersistentVolume) (newSize : Z) :
  ParseQuantity env (Size nv) = inr newQ →
  listVolumesWithManifestSize env nv w = (inr (pvs, newSize), w1) →
  resizeVolumes env nv rs w =
    match volumesLoop env newQ newSize rs pvs (enter w1) with
    | (Return o, fr) => (o, leave env fr)
    | (Next, fr) => (afterLoop pvs fr, leave env fr)
    end.
Proof. intros Hp Hl. unfold resizeVolumes. by rewrite Hp, Hl. Qed.

Section Batch.

Variable env : Env.
Variable newQ : Quantity.
Variable newSize : Z.
Variable rs : list Handle.

Lemma resizeOne_at_target (pv : PersistentVolume) (fr : Frame) :
  quantityToGigabyte (storageOf pv) = newSize →
  resizeOne env newQ newSize rs pv fr = (Next, fr).
Proof.
  intros H. unfold resizeOne. rewrite H.
  by rewrite Z.ltb_irrefl, Z.eqb_refl.
Qed.

Lemma resizeOne_too_large (pv : PersistentVolume) (fr : Frame) :
  newSize < quantityToGigabyte (storageOf pv) →
  resizeOne env newQ newSize rs pv fr = (Return (Returned (Some CannotShrink)), fr).
Proof.
  intros H. unfold resizeOne. apply Z.ltb_lt in H. by rewrite H.
Qed.

Lemma resizeOne_smaller (pv : PersistentVolume) (fr : Frame) :
  quantityToGigabyte (storageOf pv) < newSize →
  resizeOne env newQ newSize rs pv fr = forResizers env newQ newSize rs pv fr.
Proof.
  intros H. unfold resizeOne.
  assert (H1 : (newSize <? quantityToGigabyte (storageOf pv)) = false)
    by (apply Z.ltb_ge; lia).
  assert (H2 : (quantityToGigabyte (storageOf pv) =? newSize) = false)
    by (apply Z.eqb_neq; lia).
  by rewrite H1, H2.
Qed.

Lemma volumesLoop_app (pre post : list PersistentVolume) (fr : Frame) :
  volumesLoop env newQ newSize rs (pre ++ post) fr =
    match volumesLoop env newQ newSize rs pre fr with
    | (Return o, fr') => (Return o, fr')
    | (Next, fr') => volumesLoop env newQ newSize rs post fr'
    end.
Proof.
  revert fr. induction pre as [|pv pre IH]; intros fr; simpl; [done |].
  destruct (resizeOne env newQ newSize rs pv fr) as [[|o] fr']; [apply IH | done].
Qed.

Lemma volumesLoop_all_at_target (pvs : list PersistentVolume) (fr : Frame) :
  Forall (λ pv, quantityToGigabyte (storageOf pv) = newSize) pvs →
  volumesLoop env newQ newSize rs pvs fr = (Next, fr).
Proof.
  induction 1 as [|pv pvs Hpv _ IH]; simpl; [done |].
  by rewrite resizeOne_at_target.
Qed.

End Batch.

Lemma leave_enter (env : Env) (w : World) : leave env (enter w) = w.
Proof. reflexivity. Qed.

End Loops.

(** ** Claims about single volumes of a batch *)

(** C5.  A volume whose current size in whole gigabytes equals the target
    is passed over by the loop body with the local state and the world
    exactly as they were: no call to any backend, to the filesystem
    resizer or to the store is recorded for it.  The run over a batch is
    the same as the run over the batch without that volume. *)
Theorem C5_at_target_untouched (env : Env) (newQuantity : Quantity) (newSize : Z)
    (resizers : list Handle) (pv : PersistentVolume) (fr : Frame) :
  quantityToGigabyte (storageOf pv) = newSize →
  resizeOne env newQuantity newSize resizers pv fr = (Next, fr)
  ∧ ∀ pre post,
      volumesLoop env newQuantity newSize resizers (pre ++ pv :: post) fr =
      volumesLoop env newQuantity newSize resizers (pre ++ post) fr.
Proof.
  intros H. split; [by apply Loops.resizeOne_at_target |].
  intros pre post. rewrite !Loops.volumesLoop_app.
  destruct (volumesLoop env newQuantity newSize resizers pre fr) as [[|o] fr']; [|done].
  simpl. by rewrite Loops.resizeOne_at_target.
Qed.

Lemma C5_at_target_untouched_witness :
  let pv := {| pvName := "pv-0";
               pvSpec := Fixtures.volumeSpec (10 * Gigabyte) "pgdata-db-0" |} in
  let fr := enter (Fixtures.cluster Batches.oneClaim Batches.oneVolume 1) in
  resizeOne (Fixtures.calm Batches.allOwn) (10 * Gigabyte) 10 [0%nat; 1%nat] pv fr
    = (Next, fr).
Proof.
  intros pv fr.
  refine (proj1 (C5_at_target_untouched (Fixtures.calm Batches.allOwn)
                   (10 * Gigabyte) 10 [0%nat; 1%nat] pv fr _)).
  reflexivity.
Defined.

(** ** Claims about whole batches *)

(** A non-empty batch in which every volume is at the target reaches line
    142 with nothing counted as compatible. *)
Lemma resizeVolumes_all_at_target (env : Env) (nv : Volume) (rs : list Handle)
    (w w1 : World) (pvs : list PersistentVolume) (newSize : Z) :
  listVolumesWithManifestSize env nv w = (inr (pvs, newSize), w1) →
  Forall (λ pv, quantityToGigabyte (storageOf pv) = newSize) pvs →
  resizeVolumes env nv rs w =
    (match pvs with
     | [] => Returned None
     | _ :: _ => Returned (Some NotCompatibleWithProviders)
     end, w1).
Proof.
  intros Hl Hall.
  destruct (Loops.listVolumesWithManifestSize_ok _ _ _ _ _ _ Hl) as (q & Hq & _ & _).
  rewrite (Loops.resizeVolumes_unfold _ _ _ _ _ _ _ _ Hq Hl).
  rewrite Loops.volumesLoop_all_at_target by done.
  rewrite Loops.leave_enter. by destruct pvs.
Qed.

(** C1: the code at an input where it departs from the claim.  One volume
    of 10Gi, the manifest asks for 10Gi, and the only backend owns the
    volume: nothing is to be done, yet the call returns the error of line
    143, with no backend asked. *)
Lemma C1_all_at_target_is_an_error :
  let w := Fixtures.cluster Batches.oneClaim Batches.oneVolume 1 in
  let run := resizeVolumes (Fixtures.calm Batches.allOwn) {| Size := "10Gi" |} [0%nat] w in
  fst run = Returned (Some NotCompatibleWithProviders) ∧
  trace (snd run) = [EvListClaims; EvGetVolume "pv-0"] ∧
  Batches.recorded "pv-0" (snd run) = Some (10 * Gigabyte).
Proof. vm_compute. repeat split; reflexivity. Qed.

(** C3, as stated, fails: the first volume (5Gi) is grown to the target
    10Gi and its new capacity is stored before the second volume (20Gi) is
    found too large and the call returns the shrink error. *)
Lemma C3_counterexample :
  let w := Fixtures.cluster Batches.twoClaims Batches.smallThenLarge 2 in
  let run := resizeVolumes (Fixtures.calm Batches.allOwn) {| Size := "10Gi" |} [0%nat] w in
  fst run = Returned (Some CannotShrink) ∧
  Batches.recorded "pv-0" w = Some (5 * Gigabyte) ∧
  Batches.recorded "pv-0" (snd run) = Some (10 * Gigabyte).
Proof. vm_compute. repeat split; reflexivity. Qed.

(** C3, amended.  When a volume of the batch is larger than the target, the
    call ends as if the batch stopped just before that volume: the volumes
    before it are processed as usual (those that were grown keep their new
    recorded capacity), the call returns the shrink error unless one of
    them already failed, and neither that volume nor any volume after it
    is touched.  When every volume before it is at the target, the call
    returns the shrink error and leaves the store as it was. *)
Theorem C3_shrink_stops_the_batch (env : Env) (newVolume : Volume)
    (resizers : list Handle) (w w1 : World) (newQuantity : Quantity)
    (pre post : list PersistentVolume) (v : PersistentVolume) (newSize : Z) :
  ParseQuantity env (Size newVolume) = inr newQuantity →
  listVolumesWithManifestSize env newVolume w = (inr (pre ++ v :: post, newSize), w1) →
  newSize < quantityToGigabyte (storageOf v) →
  resizeVolumes env newVolume resizers w =
    match volumesLoop env newQuantity newSize resizers pre (enter w1) with
    | (Return o, fr) => (o, leave env fr)
    | (Next, fr) => (Returned (Some CannotShrink), leave env fr)
    end
  ∧ (Forall (λ pv, quantityToGigabyte (storageOf pv) = newSize) pre →
     resizeVolumes env newVolume resizers w = (Returned (Some CannotShrink), w1)
     ∧ volumes w1 = volumes w).
Proof.
  intros Hq Hl Hlarge.
  assert (Hrun : resizeVolumes env newVolume resizers w =
    match volumesLoop env newQuantity newSize resizers pre (enter w1) with
    | (Return o, fr) => (o, leave env fr)
    | (Next, fr) => (Returned (Some CannotShrink), leave env fr)
    end).
  { rewrite (Loops.resizeVolumes_unfold _ _ _ _ _ _ _ _ Hq Hl).
    rewrite Loops.volumesLoop_app.
    destruct (volumesLoop env newQuantity newSize resizers pre (enter w1)) as [[|o] fr];
      [|done].
    simpl. by rewrite Loops.resizeOne_too_large. }
  split; [done |].
  intros Hpre. rewrite Hrun.
  rewrite Loops.volumesLoop_all_at_target by done.
  rewrite Loops.leave_enter. split; [done |].
  destruct (Loops.listVolumesWithManifestSize_ok _ _ _ _ _ _ Hl) as (q & _ & _ & Hlist).
  pose proof (Enumeration.listPersistentVolumes_sameState env w) as Hs.
  rewrite Hlist in Hs. simpl in Hs. by destruct Hs as (_ & -> & _).
Qed.

Lemma C3_shrink_stops_the_batch_witness :
  let env := Fixtures.calm Batches.allOwn in
  let w := Fixtures.cluster Batches.twoClaims Batches.targetThenLarge 2 in
  let w1 := snd (listVolumesWithManifestSize env {| Size := "10Gi" |} w) in
  resizeVolumes env {| Size := "10Gi" |} [0%nat] w = (Returned (Some CannotShrink), w1)
  ∧ volumes w1 = volumes w.
Proof.
  intros env w w1.
  refine (proj2
    (C3_shrink_stops_the_batch env {| Size := "10Gi" |} [0%nat] w w1 (10 * Gigabyte)
       [{| pvName := "pv-0";
           pvSpec := Fixtures.volumeSpec (10 * Gigabyte) "pgdata-db-0" |}]
       []
       {| pvName := "pv-1";
          pvSpec := Fixtures.volumeSpec (20 * Gigabyte) "pgdata-db-1" |}
       10 _ _ _) _).
  - reflexivity.
  - vm_compute. reflexivity.
  - vm_compute. reflexivity.
  - repeat constructor.
Defined.

(** C2, as stated, fails: two backends both claim the one volume of the
    batch, every call succeeds, and the call returns nil after growing the
    volume through both of them. *)
Lemma C2_counterexample :
  let w := Fixtures.cluster Batches.oneClaim Batches.oneVolume 1 in
  let run := resizeVolumes (Fixtures.calm Batches.allOwn) {| Size := "20Gi" |}
               [0%nat; 1%nat] w in
  fst run = Returned None ∧
  filter (λ e, isBlockResize e = true) (trace (snd run)) =
    [EvResizeVolume 0%nat "vol-pv-0" 20; EvResizeVolume 1%nat "vol-pv-0" 20].
Proof. vm_compute. split; reflexivity. Qed.

(** A volume that no backend claims is passed over without an error when
    another volume of the batch finds a backend. *)
Example unclaimed_volume_is_skipped :
  let w := Fixtures.cluster Batches.twoClaims Batches.twoSmall 2 in
  let run := resizeVolumes (Fixtures.calm Batches.ownsFirstVolume) {| Size := "20Gi" |}
               [0%nat] w in
  fst run = Returned None ∧
  Batches.recorded "pv-0" (snd run) = Some (20 * Gigabyte) ∧
  Batches.recorded "pv-1" (snd run) = Some (10 * Gigabyte).
Proof. vm_compute. repeat split; reflexivity. Qed.

(** C6: the code at an input where it departs from the claim.  Backend 0
    owns the only volume, backend 1 owns none, and neither is connected.
    Backend 0 is connected while the volume is grown.  When the function
    is left, the deferred closure reads the loop variable, which by then
    holds backend 1: backend 1 is disconnected, backend 0 never is and
    stays connected. *)
Lemma C6_disconnects_the_wrong_backend :
  let w := Fixtures.cluster Batches.oneClaim Batches.oneVolume 1 in
  let run := resizeVolumes (Fixtures.calm Batches.firstOwns) {| Size := "20Gi" |}
               [0%nat; 1%nat] w in
  fst run = Returned None ∧
  filter (λ e, isConnection e = true) (trace (snd run)) =
    [EvConnect 0%nat true; EvDisconnect 1%nat true] ∧
  elements (connected (snd run)) = [0%nat].
Proof. vm_compute. repeat split; reflexivity. Qed.

(** ** The pod name of a volume *)

Module PodName.

Import GoString.

Lemma short_name_panics (pv : PersistentVolume) (ref : ObjectReference) :
  ClaimRef (pvSpec pv) = Some ref →
  (getPodNameFromPersistentVolume pv = None ↔
   len (refName ref) < len DataVolumeName + 1).
Proof.
  intros Href. unfold getPodNameFromPersistentVolume. rewrite Href.
  destruct (Z.leb_spec (len DataVolumeName + 1) (len (refName ref))); split;
    try done; lia.
Qed.

Lemma strips_by_position (pv : PersistentVolume) (ref : ObjectReference)
    (prefix rest : string) :
  ClaimRef (pvSpec pv) = Some ref →
  refName ref = prefix +:+ rest →
  String.length prefix = S (String.length DataVolumeName) →
  getPodNameFromPersistentVolume pv =
    Some {| Namespace := refNamespace ref; Name := rest |}.
Proof.
  intros Href Hname Hlen. unfold getPodNameFromPersistentVolume. rewrite Href, Hname.
  unfold len. rewrite Names.length_append, Hlen.
  assert (H : (Z.of_nat (String.length DataVolumeName) + 1
               <=? Z.of_nat (S (String.length DataVolumeName) + String.length rest)) = true)
    by (apply Z.leb_le; lia).
  rewrite H. do 2 f_equal.
  replace (Z.to_nat (Z.of_nat (String.length DataVolumeName) + 1))
    with (String.length prefix) by lia.
  apply Names.sliceFrom_append.
Qed.

End PodName.

(** C10.  For a volume with a claim back-reference, the pod name is
    undefined (the slice is out of range) exactly when the name of the
    back-reference is shorter than the data-volume name plus one; otherwise
    the first seven characters are dropped whatever they are.  Nothing in
    [resizeVolumes] checks the length: when such a volume needs growing and
    its backend has connected, resolved the volume and grown the block
    device, the call panics. *)
Theorem C10_pod_name_needs_long_reference (env : Env) (newVolume : Volume)
    (r : Handle) (others : list Handle) (w w1 : World) (newQuantity : Quantity)
    (pv : PersistentVolume) (rest : list PersistentVolume) (newSize : Z)
    (ref : ObjectReference) (id : string) :
  ClaimRef (pvSpec pv) = Some ref →
  (getPodNameFromPersistentVolume pv = None ↔
   GoString.len (refName ref) < GoString.len DataVolumeName + 1)
  ∧ (∀ prefix name,
       refName ref = prefix +:+ name →
       String.length prefix = S (String.length DataVolumeName) →
       getPodNameFromPersistentVolume pv =
         Some {| Namespace := refNamespace ref; Name := name |})
  ∧ (GoString.len (refName ref) < GoString.len DataVolumeName + 1 →
     ParseQuantity env (Size newVolume) = inr newQuantity →
     listVolumesWithManifestSize env newVolume w = (inr (pv :: rest, newSize), w1) →
     quantityToGigabyte (storageOf pv) < newSize →
     VolumeBelongsToProvider (resizerOf env r) pv = true →
     (∀ tr, ConnectToProvider (resizerOf env r) tr = None) →
     (∀ tr, GetProviderVolumeID (resizerOf env r) tr pv = inr id) →
     (∀ tr, ResizeVolume (resizerOf env r) tr id newSize = None) →
     fst (resizeVolumes env newVolume (r :: others) w) = Panicked).
Proof.
  intros Href. split; [by apply PodName.short_name_panics |].
  split; [intros prefix name; by apply PodName.strips_by_position |].
  intros Hshort Hq Hl Hsmall Hown Hconn Hid Hres.
  apply (PodName.short_name_panics pv ref Href) in Hshort.
  rewrite (Loops.resizeVolumes_unfold _ _ _ _ _ _ _ _ Hq Hl).
  simpl volumesLoop. rewrite Loops.resizeOne_smaller by done.
  unfold forResizers. simpl resizersLoop.
  unfold resizeWith, belongs. rewrite Hown.
  unfold ensureConnected, isConnected, connect.
  assert (Hgrow : ∀ fr, fst (fst (growVolume env newQuantity newSize r pv fr))
                        = Return Panicked).
  { intros fr. unfold growVolume, getProviderVolumeID, resizeVolume.
    rewrite Hid. simpl. rewrite Hres. by rewrite Hshort. }
  case_bool_decide.
  - match goal with |- context [growVolume _ _ _ _ _ ?fr] =>
      pose proof (Hgrow fr) as Hg;
      destruct (growVolume env newQuantity newSize r pv fr) as [[f pv'] fr']
    end.
    simpl in Hg. by subst f.
  - simpl. rewrite Hconn.
    match goal with |- context [growVolume _ _ _ _ _ ?fr] =>
      pose proof (Hgrow fr) as Hg;
      destruct (growVolume env newQuantity newSize r pv fr) as [[f pv'] fr']
    end.
    simpl in Hg. by subst f.
Qed.

Lemma C10_pod_name_needs_long_reference_witness :
  let env := Fixtures.calm Batches.allOwn in
  let w := Fixtures.cluster Batches.oneClaim Batches.shortRef 1 in
  fst (resizeVolumes env {| Size := "20Gi" |} [0%nat] w) = Panicked.
Proof.
  intros env w.
  refine (proj2 (proj2
    (C10_pod_name_needs_long_reference env {| Size := "20Gi" |} 0%nat [] w
       (snd (listVolumesWithManifestSize env {| Size := "20Gi" |} w))
       (20 * Gigabyte)
       {| pvName := "pv-0"; pvSpec := Fixtures.volumeSpec (10 * Gigabyte) "pg" |}
       [] 20 {| refNamespace := "default"; refName := "pg" |} "vol-pv-0" _))
    _ _ _ _ _ _ _ _).
  - reflexivity.
  - vm_compute. reflexivity.
  - reflexivity.
  - vm_compute. reflexivity.
  - vm_compute. reflexivity.
  - reflexivity.
  - intros tr. reflexivity.
  - intros tr. reflexivity.
  - intros tr. reflexivity.
Defined.

(** The scenario of the spec: the back-reference pgdata-mycluster-0 yields
    the pod mycluster-0; so does any other prefix of the same length. *)
Example pod_name_of_pgdata_mycluster_0 :
  getPodNameFromPersistentVolume
    {| pvName := "pv-0"; pvSpec := Fixtures.volumeSpec 0 "pgdata-mycluster-0" |}
  = Some {| Namespace := "default"; Name := "mycluster-0" |}
  ∧ getPodNameFromPersistentVolume
    {| pvName := "pv-0"; pvSpec := Fixtures.volumeSpec 0 "backup/mycluster-0" |}
  = Some {| Namespace := "default"; Name := "mycluster-0" |}.
Proof. split; reflexivity. Qed.

(** ** What a call may change *)

Module Evolution.

Section Evolves.

Variable env : Env.
Variable newQ : Quantity.

Lemma evolves_refl (may : string → Prop) (w : World) : evolves newQ may w w.
Proof.
  unfold evolves. repeat split; try done; [|by left].
  exists []. by rewrite app_nil_r.
Qed.

Lemma evolves_trans (may : string → Prop) (w1 w2 w3 : World) :
  evolves newQ may w1 w2 → evolves newQ may w2 w3 → evolves newQ may w1 w3.
Proof.
  intros (Hc1 & Hr1 & (evs1 & Ht1 & Hf1) & Hv1) (Hc2 & Hr2 & (evs2 & Ht2 & Hf2) & Hv2).
  unfold evolves. repeat split; [congruence | congruence | |].
  - exists (evs1 ++ evs2). rewrite Ht2, Ht1, app_assoc. split; [done |].
    by apply Forall_app.
  - intros n. destruct (Hv2 n) as [Heq|Hnew]; [|by right].
    rewrite Heq. apply Hv1.
Qed.

Lemma evolves_mono (may may' : string → Prop) (w w' : World) :
  (∀ n, may n → may' n) → evolves newQ may w w' → evolves newQ may' w w'.
Proof.
  intros Hsub (Hc & Hr & (evs & Ht & Hf) & Hv).
  unfold evolves. repeat split; try done.
  - exists evs. split; [done |].
    eapply Forall_impl; [exact Hf |].
    intros [] He; simpl in *; try done. destruct He. split; [by apply Hsub | done].
  - intros n. destruct (Hv n) as [Heq|[Hm Hs]]; [by left | right].
    split; [by apply Hsub | done].
Qed.

Lemma evolves_log (may : string → Prop) (e : Event) (w : World) :
  updateInOrder newQ may e → evolves newQ may w (log e w).
Proof.
  intros He. unfold evolves. simpl. repeat split; try done; [|by left].
  exists [e]. split; [done |]. by constructor.
Qed.

Lemma evolves_setConnected (may : string → Prop) (cs : gset Handle) (w : World) :
  evolves newQ may w (setConnected cs w).
Proof.
  unfold evolves. simpl. repeat split; try done; [|by left].
  exists []. by rewrite app_nil_r.
Qed.

Lemma evolves_sameState (may : string → Prop) (w w' : World) (evs : list Event) :
  sameState w w' → trace w' = trace w ++ evs →
  Forall (updateInOrder newQ may) evs → evolves newQ may w w'.
Proof.
  intros (Hc & Hv & Hr & _) Ht Hf. unfold evolves.
  repeat split; try done; [by exists evs | intros n; left; by rewrite Hv].
Qed.

Lemma evolves_atTarget (may : string → Prop) (w w' : World) (n : string) :
  evolves newQ may w w' → atTarget newQ w n → atTarget newQ w' n.
Proof.
  intros (_ & _ & _ & Hv) (s & Hs & Hcap). unfold atTarget.
  destruct (Hv n) as [Heq|[_ Hnew]]; [|done].
  exists s. by rewrite Heq.
Qed.

(** *** The calls *)

Lemma belongs_evolves (may : string → Prop) (r : Handle) (pv : PersistentVolume) (w : World) :
  evolves newQ may w (snd (belongs env r pv w)).
Proof. by apply evolves_log. Qed.

Lemma isConnected_evolves (may : string → Prop) (r : Handle) (w : World) :
  evolves newQ may w (snd (isConnected r w)).
Proof. by apply evolves_log. Qed.

Lemma connect_evolves (may : string → Prop) (r : Handle) (w : World) :
  evolves newQ may w (snd (connect env r w)).
Proof.
  unfold connect. destruct (ConnectToProvider (resizerOf env r) (trace w)); simpl.
  - by apply evolves_log.
  - eapply evolves_trans; [apply evolves_setConnected | by apply evolves_log].
Qed.

Lemma disconnect_evolves (may : string → Prop) (r : Handle) (w : World) :
  evolves newQ may w (snd (disconnect env r w)).
Proof.
  unfold disconnect. destruct (DisconnectFromProvider (resizerOf env r) (trace w)); simpl.
  - by apply evolves_log.
  - eapply evolves_trans; [apply evolves_setConnected | by apply evolves_log].
Qed.

Lemma getProviderVolumeID_evolves (may : string → Prop) (r : Handle)
    (pv : PersistentVolume) (w : World) :
  evolves newQ may w (snd (getProviderVolumeID env r pv w)).
Proof. by apply evolves_log. Qed.

Lemma resizeVolume_evolves (may : string → Prop) (r : Handle) (id : string) (size : Z)
    (w : World) :
  evolves newQ may w (snd (resizeVolume env r id size w)).
Proof. by apply evolves_log. Qed.

Lemma resizeFilesystem_evolves (may : string → Prop) (pod : NamespacedName) (w : World) :
  evolves newQ may w (snd (resizeFilesystem env pod w)).
Proof. by apply evolves_log. Qed.

Lemma storageOf_setStorage (q : Quantity) (pv : PersistentVolume) :
  storageOf (setStorage q pv) = q.
Proof. unfold storageOf, setStorage. simpl. by rewrite lookup_insert_eq. Qed.

Lemma updatePersistentVolume_evolves (may : string → Prop) (pv : PersistentVolume)
    (w : World) :
  may (pvName pv) → storageOf pv = newQ →
  evolves newQ may w (snd (updatePersistentVolume env pv w)).
Proof.
  intros Hmay Hq. unfold updatePersistentVolume.
  destruct (updateVolumeFails env (trace w) pv); simpl.
  - by apply evolves_log.
  - unfold evolves. simpl. repeat split; try done.
    + eexists [_]. split; [done |]. by constructor.
    + intros n. destruct (decide (pvName pv = n)) as [<-|Hne].
      * right. split; [done |]. eexists. by rewrite lookup_insert_eq.
      * left. by rewrite lookup_insert_ne.
Qed.

Lemma updatePersistentVolume_stored (pv : PersistentVolume) (w w' : World) :
  updatePersistentVolume env pv w = (None, w') →
  volumes w' !! pvName pv = Some (pvSpec pv).
Proof.
  unfold updatePersistentVolume.
  destruct (updateVolumeFails env (trace w) pv); [done |].
  intros H. inversion H; subst. simpl. by rewrite lookup_insert_eq.
Qed.

End Evolves.

End Evolution.

(** ** What the loop bodies do *)

Module Bodies.

Import Evolution.

Section Bodies.

Variable env : Env.
Variable newQ : Quantity.
Variable newSize : Z.

Lemma ensureConnected_spec (may : string → Prop) (cell : nat) (r : Handle) (fr : Frame) :
  evolves newQ may (world fr) (world (snd (ensureConnected env cell r fr)))
  ∧ totalCompatible (snd (ensureConnected env cell r fr)) = totalCompatible fr
  ∧ fst (ensureConnected env cell r fr) ≠ Return (Returned None).
Proof.
  unfold ensureConnected, isConnected.
  case_bool_decide; pairs.
  - split; [by apply evolves_log | done].
  - pose proof (connect_evolves env newQ may r (log (EvIsConnected r) (world fr))) as Hc.
    destruct (connect env r (log (EvIsConnected r) (world fr))) as [[e|] w2]; pairs.
    + split; [|done]. eapply evolves_trans; [|exact Hc]; by apply evolves_log.
    + split; [|done]. eapply evolves_trans; [|exact Hc]; by apply evolves_log.
Qed.

Lemma growVolume_spec (may : string → Prop) (r : Handle) (pv : PersistentVolume)
    (fr : Frame) :
  may (pvName pv) →
  evolves newQ may (world fr) (world (snd (growVolume env newQ newSize r pv fr)))
  ∧ totalCompatible (snd (growVolume env newQ newSize r pv fr)) = totalCompatible fr
  ∧ fst (fst (growVolume env newQ newSize r pv fr)) ≠ Return (Returned None)
  ∧ (snd (fst (growVolume env newQ newSize r pv fr)) = pv ∨
     snd (fst (growVolume env newQ newSize r pv fr)) = setStorage newQ pv).
Proof.
  intros Hmay. unfold growVolume.
  pose proof (getProviderVolumeID_evolves env newQ may r pv (world fr)) as H1.
  destruct (getProviderVolumeID env r pv (world fr)) as [[e|id] w1]; pairs.
  { split; [done |]. split; [done |]. split; [done | by left]. }
  pose proof (resizeVolume_evolves env newQ may r id newSize w1) as H2.
  assert (H12 : evolves newQ may (world fr) (snd (resizeVolume env r id newSize w1)))
    by (by eapply evolves_trans).
  destruct (resizeVolume env r id newSize w1) as [[e|] w2]; pairs.
  { split; [done |]. split; [done |]. split; [done | by left]. }
  destruct (getPodNameFromPersistentVolume pv) as [pod|]; pairs.
  2: { split; [done |]. split; [done |]. split; [done | by left]. }
  pose proof (resizeFilesystem_evolves env newQ may pod w2) as H3.
  assert (H123 : evolves newQ may (world fr) (snd (resizeFilesystem env pod w2)))
    by (by eapply evolves_trans).
  destruct (resizeFilesystem env pod w2) as [[e|] w3]; pairs.
  { split; [done |]. split; [done |]. split; [done | by left]. }
  pose proof (updatePersistentVolume_evolves env newQ may (setStorage newQ pv) w3
                Hmay (storageOf_setStorage newQ pv)) as H4.
  assert (H1234 : evolves newQ may (world fr)
                    (snd (updatePersistentVolume env (setStorage newQ pv) w3)))
    by (by eapply evolves_trans).
  destruct (updatePersistentVolume env (setStorage newQ pv) w3) as [[e|] w4]; pairs.
  - split; [done |]. split; [done |]. split; [done | by right].
  - split; [done |]. split; [done |]. split; [done | by right].
Qed.

(** When the body completes, the block device was resized by this backend
    and the store holds the new capacity. *)
Lemma growVolume_done (r : Handle) (pv pv' : PersistentVolume) (fr fr' : Frame) :
  growVolume env newQ newSize r pv fr = (Next, pv', fr') →
  pv' = setStorage newQ pv
  ∧ atTarget newQ (world fr') (pvName pv)
  ∧ ∃ evs id, trace (world fr') = trace (world fr) ++ evs ∧
              EvResizeVolume r id newSize ∈ evs.
Proof.
  unfold growVolume, getProviderVolumeID, resizeVolume, resizeFilesystem.
  destruct (GetProviderVolumeID (resizerOf env r) (trace (world fr)) pv) as [e|id];
    [done |].
  destruct (ResizeVolume _ _ id newSize) as [e|]; [done |].
  destruct (getPodNameFromPersistentVolume pv) as [pod|]; [|done].
  destruct (resizePostgresFilesystem env _ pod) as [e|]; [done |].
  unfold updatePersistentVolume.
  destruct (updateVolumeFails env _ (setStorage newQ pv)) as [e|]; [done |].
  intros H. inversion H; subst; clear H. simpl.
  split; [done |]. split.
  - unfold atTarget. simpl. eexists. rewrite lookup_insert_eq. split; [done |].
    apply storageOf_setStorage.
  - eexists _, id. rewrite <- !app_assoc. split; [reflexivity |].
    simpl. set_solver.
Qed.

Lemma resizeWith_spec (may : string → Prop) (cell : nat) (r : Handle)
    (pv : PersistentVolume) (fr : Frame) :
  may (pvName pv) →
  evolves newQ may (world fr) (world (snd (resizeWith env newQ newSize cell r pv fr)))
  ∧ totalCompatible fr ≤ totalCompatible (snd (resizeWith env newQ newSize cell r pv fr))
  ∧ fst (fst (resizeWith env newQ newSize cell r pv fr)) ≠ Return (Returned None)
  ∧ (snd (fst (resizeWith env newQ newSize cell r pv fr)) = pv ∨
     snd (fst (resizeWith env newQ newSize cell r pv fr)) = setStorage newQ pv).
Proof.
  intros Hmay. unfold resizeWith, belongs.
  destruct (VolumeBelongsToProvider (resizerOf env r) pv); pairs.
  2: { split; [by apply evolves_log |]. split; [lia |]. split; [done | by left]. }
  set (fr0 := countCompatible (withWorld (log (EvBelongs r (pvName pv)) (world fr)) fr)).
  assert (H0 : evolves newQ may (world fr) (world fr0)) by (by apply evolves_log).
  assert (Htc0 : totalCompatible fr0 = totalCompatible fr + 1) by done.
  destruct (ensureConnected_spec may cell r fr0) as (He & Htc & Hne).
  destruct (ensureConnected env cell r fr0) as [[|o] fr1]; pairs.
  - destruct (growVolume_spec may r pv fr1 Hmay) as (Hg & Htc' & Hne' & Hpv).
    destruct (growVolume env newQ newSize r pv fr1) as [[f pv'] fr2]; pairs.
    split; [|split; [lia | done]].
    eapply evolves_trans; [|exact Hg]. by eapply evolves_trans.
  - split; [by eapply evolves_trans |]. split; [lia |]. split; [done | by left].
Qed.

(** A backend that does not claim the volume leaves it and the count. *)
Lemma resizeWith_not_owner (cell : nat) (r : Handle) (pv : PersistentVolume) (fr : Frame) :
  VolumeBelongsToProvider (resizerOf env r) pv = false →
  ∃ fr', resizeWith env newQ newSize cell r pv fr = (Next, pv, fr')
         ∧ totalCompatible fr' = totalCompatible fr.
Proof.
  intros H. unfold resizeWith, belongs. rewrite H. eauto.
Qed.

(** A backend that claims the volume is counted; if its body completes,
    the volume was grown through it. *)
Lemma resizeWith_owner (cell : nat) (r : Handle) (pv pv' : PersistentVolume)
    (fr fr' : Frame) :
  VolumeBelongsToProvider (resizerOf env r) pv = true →
  resizeWith env newQ newSize cell r pv fr = (Next, pv', fr') →
  pv' = setStorage newQ pv
  ∧ totalCompatible fr < totalCompatible fr'
  ∧ atTarget newQ (world fr') (pvName pv)
  ∧ ∃ evs id, trace (world fr') = trace (world fr) ++ evs ∧
              EvResizeVolume r id newSize ∈ evs.
Proof.
  intros Hown. unfold resizeWith, belongs. rewrite Hown.
  set (fr0 := countCompatible (withWorld (log (EvBelongs r (pvName pv)) (world fr)) fr)).
  assert (Htc0 : totalCompatible fr0 = totalCompatible fr + 1) by done.
  destruct (ensureConnected_spec (λ _, True) cell r fr0) as (He & Htc & _).
  destruct (ensureConnected env cell r fr0) as [[|o] fr1]; pairs; [|done].
  intros Hg.
  destruct (growVolume_spec (λ _, True) r pv fr1 I) as (_ & Htc' & _).
  rewrite Hg in Htc'. pairs.
  apply growVolume_done in Hg as (-> & Hat & evs & id & Ht & Hin).
  split; [done |]. split; [lia |]. split; [done |].
  destruct He as (_ & _ & (evs0 & Ht0 & _) & _). simpl in Ht0.
  exists (([EvBelongs r (pvName pv)] ++ evs0) ++ evs), id.
  split; [|set_solver].
  rewrite Ht, Ht0. by rewrite <- !app_assoc.
Qed.

End Bodies.

End Bodies.

(** ** What the loops do *)

Module Runs.

Import Evolution Bodies.

Lemma setStorage_twice (q : Quantity) (pv : PersistentVolume) :
  setStorage q (setStorage q pv) = setStorage q pv.
Proof. unfold setStorage. simpl. by rewrite insert_insert_eq. Qed.

Lemma quantityToGigabyte_lt (a b : Quantity) :
  quantityToGigabyte a < quantityToGigabyte b → a < b.
Proof.
  unfold quantityToGigabyte, ScaledValue0. intros H.
  destruct (Z.lt_ge_cases a b) as [|Hge]; [done |].
  apply (Z.quot_le_mono _ _ (1 * Gigabyte)) in Hge; [lia | done].
Qed.

Section Runs.

Variable env : Env.
Variable newQ : Quantity.
Variable newSize : Z.

Lemma resizersLoop_spec (may : string → Prop) (cell : nat) (rs : list Handle) :
  ∀ pv fr,
    may (pvName pv) →
    evolves newQ may (world fr) (world (snd (resizersLoop env newQ newSize cell rs pv fr)))
    ∧ totalCompatible fr ≤ totalCompatible (snd (resizersLoop env newQ newSize cell rs pv fr))
    ∧ fst (resizersLoop env newQ newSize cell rs pv fr) ≠ Return (Returned None).
Proof.
  induction rs as [|r rs IH]; intros pv fr Hmay.
  - simpl. split; [apply evolves_refl |]. split; [lia | done].
  - cbn [resizersLoop].
    destruct (resizeWith_spec env newQ newSize may cell r pv (assignVar cell r fr) Hmay)
      as (He & Htc & Hne & Hpv).
    destruct (resizeWith env newQ newSize cell r pv (assignVar cell r fr))
      as [[[|o] pv'] fr1]; pairs; [|done].
    assert (Hmay' : may (pvName pv')) by (destruct Hpv as [->| ->]; done).
    destruct (IH pv' fr1 Hmay') as (He' & Htc' & Hne').
    split; [by eapply evolves_trans |]. split; [lia | done].
Qed.

Lemma forResizers_spec (may : string → Prop) (rs : list Handle) (pv : PersistentVolume)
    (fr : Frame) :
  may (pvName pv) →
  evolves newQ may (world fr) (world (snd (forResizers env newQ newSize rs pv fr)))
  ∧ totalCompatible fr ≤ totalCompatible (snd (forResizers env newQ newSize rs pv fr))
  ∧ fst (forResizers env newQ newSize rs pv fr) ≠ Return (Returned None).
Proof.
  intros Hmay. unfold forResizers. destruct rs as [|r rs].
  - simpl. split; [apply evolves_refl |]. split; [lia | done].
  - apply (resizersLoop_spec may _ (r :: rs) pv (declareVar r fr) Hmay).
Qed.

Lemma resizeOne_spec (may : string → Prop) (rs : list Handle) (pv : PersistentVolume)
    (fr : Frame) :
  (quantityToGigabyte (storageOf pv) < newSize → may (pvName pv)) →
  evolves newQ may (world fr) (world (snd (resizeOne env newQ newSize rs pv fr)))
  ∧ totalCompatible fr ≤ totalCompatible (snd (resizeOne env newQ newSize rs pv fr))
  ∧ fst (resizeOne env newQ newSize rs pv fr) ≠ Return (Returned None).
Proof.
  intros Hmay. unfold resizeOne.
  destruct (Z.ltb_spec newSize (quantityToGigabyte (storageOf pv))).
  { simpl. split; [apply evolves_refl |]. split; [lia | done]. }
  destruct (Z.eqb_spec (quantityToGigabyte (storageOf pv)) newSize).
  { simpl. split; [apply evolves_refl |]. split; [lia | done]. }
  apply forResizers_spec. apply Hmay. lia.
Qed.

Lemma volumesLoop_spec (rs : list Handle) (pvs : list PersistentVolume) :
  ∀ fr,
    evolves newQ (below newSize pvs) (world fr)
      (world (snd (volumesLoop env newQ newSize rs pvs fr)))
    ∧ totalCompatible fr ≤ totalCompatible (snd (volumesLoop env newQ newSize rs pvs fr))
    ∧ fst (volumesLoop env newQ newSize rs pvs fr) ≠ Return (Returned None).
Proof.
  induction pvs as [|pv pvs IH]; intros fr.
  - simpl. split; [apply evolves_refl |]. split; [lia | done].
  - cbn [volumesLoop].
    destruct (resizeOne_spec (below newSize (pv :: pvs)) rs pv fr) as (He & Htc & Hne).
    { intros Hlt. exists pv. split; [apply elem_of_cons; by left | done]. }
    destruct (resizeOne env newQ newSize rs pv fr) as [[|o] fr1]; pairs; [|done].
    destruct (IH fr1) as (He' & Htc' & Hne').
    split; [|split; [lia | done]].
    eapply evolves_trans; [exact He |].
    eapply evolves_mono; [|exact He'].
    intros n (pv0 & Hin & Hn & Hlt). exists pv0.
    split; [apply elem_of_cons; by right | done].
Qed.

(** *** Loops that run to their end *)

Lemma resizersLoop_done (cell : nat) (rs : list Handle) :
  ∀ pv fr fr',
    resizersLoop env newQ newSize cell rs pv fr = (Next, fr') →
    (hasOwner env rs pv = false → totalCompatible fr' = totalCompatible fr)
    ∧ (hasOwner env rs pv = true →
       totalCompatible fr < totalCompatible fr' ∧ atTarget newQ (world fr') (pvName pv)).
Proof.
  induction rs as [|r rs IH]; intros pv fr fr'.
  - simpl. intros H. inversion H; subst. by split.
  - cbn [resizersLoop hasOwner existsb].
    destruct (VolumeBelongsToProvider (resizerOf env r) pv) eqn:Hown.
    + destruct (resizeWith env newQ newSize cell r pv (assignVar cell r fr))
        as [[[|o] pv'] fr1] eqn:Hw; [|done].
      apply resizeWith_owner in Hw as (-> & Htc & Hat & _); [|done]. pairs.
      intros Hrest.
      destruct (resizersLoop_spec (λ _, True) cell rs (setStorage newQ pv) fr1 I)
        as (He & Htc' & _).
      rewrite Hrest in He, Htc'. pairs.
      split; [done |]. intros _. split; [lia |].
      by eapply evolves_atTarget.
    + destruct (resizeWith_not_owner env newQ newSize cell r pv (assignVar cell r fr) Hown)
        as (fr1 & Hw & Htc).
      rewrite Hw. pairs. intros Hrest. simpl.
      destruct (IH pv fr1 fr' Hrest) as (H1 & H2).
      split; [intros Hno; rewrite (H1 Hno); done |].
      intros Hyes. destruct (H2 Hyes). split; [lia | done].
Qed.

Lemma forResizers_done (rs : list Handle) (pv : PersistentVolume) (fr fr' : Frame) :
  forResizers env newQ newSize rs pv fr = (Next, fr') →
  (hasOwner env rs pv = false → totalCompatible fr' = totalCompatible fr)
  ∧ (hasOwner env rs pv = true →
     totalCompatible fr < totalCompatible fr' ∧ atTarget newQ (world fr') (pvName pv)).
Proof.
  unfold forResizers. destruct rs as [|r rs].
  - intros H. inversion H; subst. by split.
  - intros H. apply resizersLoop_done in H. by pairs.
Qed.

Lemma volumesLoop_done (rs : list Handle) (pvs : list PersistentVolume) :
  ∀ fr fr',
    volumesLoop env newQ newSize rs pvs fr = (Next, fr') →
    Forall (λ pv, quantityToGigabyte (storageOf pv) ≤ newSize) pvs
    ∧ (∀ pv, pv ∈ pvs → quantityToGigabyte (storageOf pv) < newSize →
             hasOwner env rs pv = true → atTarget newQ (world fr') (pvName pv))
    ∧ (anyCompatible env newSize rs pvs = false → totalCompatible fr' = totalCompatible fr)
    ∧ (anyCompatible env newSize rs pvs = true → totalCompatible fr < totalCompatible fr').
Proof.
  induction pvs as [|pv pvs IH]; intros fr fr'.
  - simpl. intros H. inversion H; subst.
    split; [constructor |]. split; [|done].
    intros pv Hin. by apply not_elem_of_nil in Hin.
  - cbn [volumesLoop anyCompatible existsb].
    destruct (resizeOne env newQ newSize rs pv fr) as [[|o] fr1] eqn:Hone; [|done].
    intros Hrest.
    destruct (IH fr1 fr' Hrest) as (Hall & Hat & Hno & Hyes).
    destruct (volumesLoop_spec rs pvs fr1) as (He & Htc & _).
    rewrite Hrest in He, Htc. pairs.
    unfold resizeOne in Hone.
    destruct (Z.ltb_spec newSize (quantityToGigabyte (storageOf pv))) as [|Hle];
      [done |].
    destruct (Z.eqb_spec (quantityToGigabyte (storageOf pv)) newSize) as [Heq|Hne].
    + inversion Hone; subst fr1.
      assert (Hltb : (quantityToGigabyte (storageOf pv) <? newSize) = false)
        by (apply Z.ltb_ge; lia).
      rewrite Hltb. simpl.
      split; [constructor; [lia | done] |]. split; [|done].
      intros pv0 [->|Hin]%elem_of_cons Hlt Hown; [lia | by apply Hat].
    + assert (Hltb : (quantityToGigabyte (storageOf pv) <? newSize) = true)
        by (apply Z.ltb_lt; lia).
      rewrite Hltb. simpl.
      apply forResizers_done in Hone as (H1 & H2).
      split; [constructor; [lia | done] |]. split.
      * intros pv0 [->|Hin]%elem_of_cons Hlt Hown; [|by apply Hat].
        destruct (H2 Hown) as [_ Hat0]. by eapply evolves_atTarget.
      * destruct (hasOwner env rs pv) eqn:Hown; simpl.
        -- destruct (H2 eq_refl). split; [done |]. intros _. lia.
        -- rewrite (H1 eq_refl) in *. split; [done |]. done.
Qed.

(** *** Leaving the function, and listing *)

Lemma runDeferred_evolves (may : string → Prop) (vars : list Handle) (ds : list nat) :
  ∀ w, evolves newQ may w (runDeferred env ds vars w).
Proof.
  induction ds as [|cell ds IH]; intros w; simpl; [apply evolves_refl |].
  destruct (vars !! cell) as [r|]; [|apply IH].
  eapply evolves_trans; [apply (disconnect_evolves env) | apply IH].
Qed.

Lemma leave_evolves (may : string → Prop) (fr : Frame) :
  evolves newQ may (world fr) (leave env fr).
Proof. apply runDeferred_evolves. Qed.

Lemma listLoop_evolves (may : string → Prop) (lpi : Z) (pvcs : list PersistentVolumeClaim) :
  ∀ acc w, evolves newQ may w (snd (listLoop env lpi pvcs acc w)).
Proof.
  induction pvcs as [|c pvcs IH]; intros acc w; simpl; [apply evolves_refl |].
  destruct (claimDecision (pvcName c) lpi); simpl; try apply evolves_refl; [|apply IH].
  pose proof (Enumeration.getPersistentVolume_world env (pvcVolumeName c) w) as Hw.
  destruct (getPersistentVolume env (pvcVolumeName c) w) as [[e|pv] w1]; simpl in Hw; subst.
  - by apply evolves_log.
  - eapply evolves_trans; [|apply IH]. by apply evolves_log.
Qed.

Lemma listPersistentVolumes_evolves (may : string → Prop) (w : World) :
  evolves newQ may w (snd (listPersistentVolumes env w)).
Proof.
  unfold listPersistentVolumes, listPersistentVolumeClaims.
  destruct (listClaimsFails env (trace w)); simpl; [by apply evolves_log |].
  eapply evolves_trans; [|apply listLoop_evolves]. by apply evolves_log.
Qed.

Lemma listVolumesWithManifestSize_evolves (may : string → Prop) (nv : Volume) (w : World) :
  evolves newQ may w (snd (listVolumesWithManifestSize env nv w)).
Proof.
  unfold listVolumesWithManifestSize.
  destruct (ParseQuantity env (Size nv)); simpl; [apply evolves_refl |].
  pose proof (listPersistentVolumes_evolves may w) as H.
  by destruct (listPersistentVolumes env w) as [[e|vols] w'].
Qed.

End Runs.

End Runs.

(** ** Claims about the recorded capacities *)

Module Calls.

Import Evolution Runs.

Lemma listed_in_store (env : Env) (w w1 : World) (pvs : list PersistentVolume) :
  listPersistentVolumes env w = (inr pvs, w1) →
  ∀ pv, pv ∈ pvs → volumes w !! pvName pv = Some (pvSpec pv).
Proof.
  intros Hl pv Hin. apply Enumeration.listPersistentVolumes_ok in Hl.
  apply list_elem_of_lookup in Hin as [i Hi].
  destruct (Forall2_lookup_r _ _ _ _ _ Hl Hi) as (c & _ & Hres).
  unfold resolve in Hres.
  destruct (volumes w !! pvcVolumeName c) as [s|] eqn:Hs; [|done].
  simpl in Hres. inversion Hres; subst. done.
Qed.

(** What one call of [resizeVolumes] may change, in terms of the store it
    started from. *)
Lemma resizeVolumes_evolves (env : Env) (nv : Volume) (rs : list Handle) (w : World)
    (newQ : Quantity) :
  ParseQuantity env (Size nv) = inr newQ →
  evolves newQ
    (λ n, ∃ s, volumes w !! n = Some s ∧
               quantityToGigabyte (capacityOf s) < quantityToGigabyte newQ)
    w (snd (resizeVolumes env nv rs w)).
Proof.
  intros Hq. unfold resizeVolumes. rewrite Hq.
  pose proof (listVolumesWithManifestSize_evolves env newQ
    (λ n, ∃ s, volumes w !! n = Some s ∧
               quantityToGigabyte (capacityOf s) < quantityToGigabyte newQ) nv w) as Hlist.
  destruct (listVolumesWithManifestSize env nv w) as [[e|[pvs newSize]] w1] eqn:Hl;
    [done |].
  simpl in Hlist.
  destruct (Loops.listVolumesWithManifestSize_ok _ _ _ _ _ _ Hl) as (q & Hq' & -> & Hlp).
  assert (q = newQ) as -> by congruence.
  destruct (volumesLoop_spec env newQ (quantityToGigabyte newQ) rs pvs (enter w1))
    as (He & _ & _).
  assert (Hrun : evolves newQ
    (λ n, ∃ s, volumes w !! n = Some s ∧
               quantityToGigabyte (capacityOf s) < quantityToGigabyte newQ)
    w (leave env (snd (volumesLoop env newQ (quantityToGigabyte newQ) rs pvs (enter w1))))).
  { eapply evolves_trans; [exact Hlist |].
    eapply evolves_trans; [|apply leave_evolves].
    eapply evolves_mono; [|exact He].
    intros n (pv & Hin & <- & Hlt).
    exists (pvSpec pv). split; [by eapply listed_in_store | done]. }
  by destruct (volumesLoop env newQ (quantityToGigabyte newQ) rs pvs (enter w1))
    as [[|o] fr].
Qed.

End Calls.

(** C4.  Whatever a call of [resizeVolumes] does, every volume record of
    the store is still there afterwards with a storage capacity at least
    what it was.  Every store update the call makes writes the parsed
    manifest quantity to a volume whose recorded capacity, in whole
    gigabytes, was strictly below the target in whole gigabytes, and that
    quantity is larger than the capacity recorded before. *)
Theorem C4_grow_only (env : Env) (newVolume : Volume) (resizers : list Handle)
    (w : World) :
  (∀ name s,
     volumes w !! name = Some s →
     ∃ s', volumes (snd (resizeVolumes env newVolume resizers w)) !! name = Some s'
           ∧ capacityOf s ≤ capacityOf s')
  ∧ ∃ evs,
      trace (snd (resizeVolumes env newVolume resizers w)) = trace w ++ evs
      ∧ ∀ name q ok,
          EvUpdateVolume name q ok ∈ evs →
          ∃ s, volumes w !! name = Some s
               ∧ ParseQuantity env (Size newVolume) = inr q
               ∧ quantityToGigabyte (capacityOf s) < quantityToGigabyte q
               ∧ capacityOf s < q.
Proof.
  destruct (ParseQuantity env (Size newVolume)) as [e|newQ] eqn:Hq.
  - unfold resizeVolumes. rewrite Hq. simpl. split.
    + intros name s Hs. exists s. split; [done | lia].
    + exists []. rewrite app_nil_r. split; [done |].
      intros name q ok Hin. by apply not_elem_of_nil in Hin.
  - destruct (Calls.resizeVolumes_evolves env newVolume resizers w newQ Hq)
      as (_ & _ & (evs & Ht & Hf) & Hv).
    split.
    + intros name s Hs. destruct (Hv name) as [Heq|[(s0 & Hs0 & Hlt) (s' & Hs' & Hcap)]].
      * exists s. split; [congruence | lia].
      * exists s'. split; [done |].
        assert (s0 = s) as -> by congruence.
        apply Runs.quantityToGigabyte_lt in Hlt. lia.
    + exists evs. split; [done |].
      intros name q ok Hin.
      rewrite Forall_forall in Hf. specialize (Hf _ Hin). simpl in Hf.
      destruct Hf as [(s & Hs & Hlt) ->].
      exists s. split; [done |]. split; [done |]. split; [done |].
      by apply Runs.quantityToGigabyte_lt.
Qed.

(** ** Resize, then ask again *)

Module RoundTrip.

Import Evolution Runs Calls.

Lemma anyDiffers_all_equal (m : Z) (vols : list PersistentVolume) :
  Forall (λ pv, quantityToGigabyte (storageOf pv) = m) vols →
  anyDiffers m vols = false.
Proof.
  induction 1 as [|pv vols Hpv _ IH]; simpl; [done |].
  rewrite Hpv, Z.eqb_refl. simpl. exact IH.
Qed.

Lemma resolve_spec (store : gmap string PersistentVolumeSpec)
    (c : PersistentVolumeClaim) (pv : PersistentVolume) :
  resolve store c = Some pv →
  pvName pv = pvcVolumeName c ∧ store !! pvcVolumeName c = Some (pvSpec pv).
Proof.
  unfold resolve. destruct (store !! pvcVolumeName c) as [s|]; [|done].
  simpl. intros H. inversion H; subst. done.
Qed.

(** After a call that returned nil, every listed volume is recorded at
    the target size, provided each volume below the target had a backend
    that claims it. *)
Lemma recorded_at_target (env : Env) (nv : Volume) (rs : list Handle) (w w1 w' : World)
    (pvs : list PersistentVolume) (newSize : Z) :
  listVolumesWithManifestSize env nv w = (inr (pvs, newSize), w1) →
  (∀ pv, pv ∈ pvs → quantityToGigabyte (storageOf pv) < newSize →
         hasOwner env rs pv = true) →
  resizeVolumes env nv rs w = (Returned None, w') →
  claims w' = claims w ∧ Replicas w' = Replicas w ∧
  ∀ pv, pv ∈ pvs →
    ∃ s', volumes w' !! pvName pv = Some s' ∧ quantityToGigabyte (capacityOf s') = newSize.
Proof.
  intros Hl Hown Hrun.
  destruct (Loops.listVolumesWithManifestSize_ok _ _ _ _ _ _ Hl) as (q & Hq & -> & Hlp).
  pose proof (resizeVolumes_evolves env nv rs w q Hq) as Hev.
  rewrite Hrun in Hev. simpl in Hev.
  destruct Hev as (Hc & Hr & _ & Hv).
  split; [done |]. split; [done |].
  rewrite (Loops.resizeVolumes_unfold _ _ _ _ _ _ _ _ Hq Hl) in Hrun.
  destruct (volumesLoop_spec env q (quantityToGigabyte q) rs pvs (enter w1))
    as (_ & _ & Hne).
  destruct (volumesLoop env q (quantityToGigabyte q) rs pvs (enter w1))
    as [[|o] fr] eqn:Hloop.
  2: { inversion Hrun; subst. done. }
  inversion Hrun as [[Hafter Hw']]. subst w'.
  apply volumesLoop_done in Hloop as (Hall & Hat & _).
  intros pv Hin.
  rewrite Forall_forall in Hall. specialize (Hall pv Hin).
  destruct (Z.lt_ge_cases (quantityToGigabyte (storageOf pv)) (quantityToGigabyte q))
    as [Hlt|Hge].
  - assert (atTarget q (leave env fr) (pvName pv)) as (s' & Hs' & Hcap).
    { eapply evolves_atTarget; [apply (leave_evolves env q (λ _, True)) |].
      apply Hat; [done | done | by apply Hown]. }
    exists s'. split; [done | by rewrite Hcap].
  - destruct (Hv (pvName pv)) as [Heq|[_ (s' & Hs' & Hcap)]].
    + exists (pvSpec pv). rewrite Heq.
      split; [by eapply listed_in_store |].
      change (capacityOf (pvSpec pv)) with (storageOf pv). lia.
    + exists s'. split; [done | by rewrite Hcap].
Qed.

End RoundTrip.

(** C9.  Let a call of [resizeVolumes] return nil, every listed volume
    below the target being claimed by one of the backends, so that each
    was grown and the parsed manifest quantity stored as its capacity.
    Then [volumesNeedResizing], asked with the same manifest in the world
    the call left, answers false; when its own listing succeeds, every
    volume it lists is at the manifest size and it returns false without
    an error. *)
Theorem C9_round_trip (env : Env) (newVolume : Volume) (resizers : list Handle)
    (w w1 w' : World) (pvs : list PersistentVolume) (newSize : Z) :
  listVolumesWithManifestSize env newVolume w = (inr (pvs, newSize), w1) →
  (∀ pv, pv ∈ pvs → quantityToGigabyte (storageOf pv) < newSize →
         hasOwner env resizers pv = true) →
  resizeVolumes env newVolume resizers w = (Returned None, w') →
  fst (fst (volumesNeedResizing env newVolume w')) = false
  ∧ ∀ vols m w'',
      listVolumesWithManifestSize env newVolume w' = (inr (vols, m), w'') →
      Forall (λ pv, quantityToGigabyte (storageOf pv) = m) vols
      ∧ volumesNeedResizing env newVolume w' = ((false, None), w'').
Proof.
  intros Hl Hown Hrun.
  destruct (RoundTrip.recorded_at_target env newVolume resizers w w1 w' pvs newSize
              Hl Hown Hrun) as (Hc & Hr & Hrec).
  assert (Hsecond : ∀ vols m w'',
    listVolumesWithManifestSize env newVolume w' = (inr (vols, m), w'') →
    Forall (λ pv, quantityToGigabyte (storageOf pv) = m) vols).
  { intros vols m w'' Hl2.
    destruct (Loops.listVolumesWithManifestSize_ok _ _ _ _ _ _ Hl) as (q & Hq & -> & Hlp).
    destruct (Loops.listVolumesWithManifestSize_ok _ _ _ _ _ _ Hl2)
      as (q2 & Hq2 & -> & Hlp2).
    assert (q2 = q) as -> by congruence.
    apply Enumeration.listPersistentVolumes_ok in Hlp, Hlp2.
    unfold lastPodIndexOf in Hlp2. rewrite Hr, Hc in Hlp2.
    fold (lastPodIndexOf w) in Hlp2.
    apply Forall_forall. intros pv' Hin'.
    apply list_elem_of_lookup in Hin' as [i Hi].
    destruct (Forall2_lookup_r _ _ _ _ _ Hlp2 Hi) as (c & Hci & Hres').
    destruct (Forall2_lookup_l _ _ _ _ _ Hlp Hci) as (pv & Hpvi & Hres).
    apply RoundTrip.resolve_spec in Hres as [Hname _].
    apply RoundTrip.resolve_spec in Hres' as [_ Hs'].
    destruct (Hrec pv (list_elem_of_lookup_2 _ _ _ Hpvi)) as (s' & Hs & Hsize).
    rewrite Hname, Hs' in Hs. inversion Hs; subst s'.
    exact Hsize. }
  assert (Hanswer : ∀ vols m w'',
    listVolumesWithManifestSize env newVolume w' = (inr (vols, m), w'') →
    volumesNeedResizing env newVolume w' = ((false, None), w'')).
  { intros vols m w'' Hl2. unfold volumesNeedResizing. rewrite Hl2.
    by rewrite (RoundTrip.anyDiffers_all_equal m vols (Hsecond _ _ _ Hl2)). }
  split.
  - destruct (listVolumesWithManifestSize env newVolume w') as [[e|[vols m]] w''] eqn:Hl2.
    + unfold volumesNeedResizing. by rewrite Hl2.
    + by rewrite (Hanswer vols m w'' eq_refl).
  - intros vols m w'' Hl2. split; [by eapply Hsecond | by eapply Hanswer].
Qed.

Lemma C9_round_trip_witness :
  let env := Fixtures.calm Batches.allOwn in
  let w := Fixtures.cluster Batches.oneClaim Batches.oneVolume 1 in
  let w' := snd (resizeVolumes env {| Size := "20Gi" |} [0%nat] w) in
  Batches.recorded "pv-0" w = Some (10 * Gigabyte)
  ∧ Batches.recorded "pv-0" w' = Some (20 * Gigabyte)
  ∧ fst (fst (volumesNeedResizing env {| Size := "20Gi" |} w')) = false.
Proof.
  intros env w w'.
  split; [reflexivity |]. split; [vm_compute; reflexivity |].
  refine (proj1
    (C9_round_trip env {| Size := "20Gi" |} [0%nat] w
       (snd (listVolumesWithManifestSize env {| Size := "20Gi" |} w)) w'
       [{| pvName := "pv-0";
           pvSpec := Fixtures.volumeSpec (10 * Gigabyte) "pgdata-db-0" |}]
       20 _ _ _)).
  - vm_compute. reflexivity.
  - intros pv Hin Hlt. reflexivity.
  - vm_compute. reflexivity.
Defined.

(** ** Several backends, or none, for one volume *)

Module Owners.

Import Evolution Bodies Runs.

Section Owners.

Variable env : Env.
Variable newQ : Quantity.
Variable newSize : Z.

Lemma resizeWith_not_owner_world (cell : nat) (r : Handle) (pv : PersistentVolume)
    (fr : Frame) :
  VolumeBelongsToProvider (resizerOf env r) pv = false →
  resizeWith env newQ newSize cell r pv fr =
    (Next, pv, withWorld (log (EvBelongs r (pvName pv)) (world fr)) fr).
Proof. intros H. unfold resizeWith, belongs. by rewrite H. Qed.

(** A loop over the backends that runs to its end has grown the volume
    through every backend that claims it, before and after the capacity
    of the record in hand is set. *)
Lemma resizersLoop_resized (pv0 : PersistentVolume) (cell : nat) (rs : list Handle) :
  ∀ pv fr fr',
    pv = pv0 ∨ pv = setStorage newQ pv0 →
    resizersLoop env newQ newSize cell rs pv fr = (Next, fr') →
    ∃ evs, trace (world fr') = trace (world fr) ++ evs ∧
      ∀ r, r ∈ rs →
        VolumeBelongsToProvider (resizerOf env r) pv0 = true →
        VolumeBelongsToProvider (resizerOf env r) (setStorage newQ pv0) = true →
        ∃ id, EvResizeVolume r id newSize ∈ evs.
Proof.
  induction rs as [|r rs IH]; intros pv fr fr' Hpv.
  - simpl. intros H. inversion H; subst. exists []. rewrite app_nil_r.
    split; [done |]. intros r Hin. by apply not_elem_of_nil in Hin.
  - cbn [resizersLoop].
    destruct (VolumeBelongsToProvider (resizerOf env r) pv) eqn:Hown.
    + destruct (resizeWith env newQ newSize cell r pv (assignVar cell r fr))
        as [[[|o] pv'] fr1] eqn:Hw; [|done].
      apply resizeWith_owner in Hw as (-> & _ & _ & evs1 & id & Ht1 & Hin1); [|done].
      intros Hrest.
      assert (Hpv' : setStorage newQ pv = pv0 ∨ setStorage newQ pv = setStorage newQ pv0).
      { right. destruct Hpv as [->| ->]; [done | apply setStorage_twice]. }
      destruct (IH _ _ _ Hpv' Hrest) as (evs2 & Ht2 & Hall).
      exists (evs1 ++ evs2). split.
      { rewrite Ht2, Ht1. simpl. by rewrite app_assoc. }
      intros r0 [->|Hin]%elem_of_cons H0 H1.
      * exists id. apply elem_of_app. by left.
      * destruct (Hall r0 Hin H0 H1) as [id0 Hid0].
        exists id0. apply elem_of_app. by right.
    + rewrite (resizeWith_not_owner_world cell r pv (assignVar cell r fr) Hown).
      intros Hrest.
      destruct (IH _ _ _ Hpv Hrest) as (evs2 & Ht2 & Hall).
      exists ([EvBelongs r (pvName pv)] ++ evs2). split.
      { rewrite Ht2. simpl. by rewrite <- app_assoc. }
      intros r0 [->|Hin]%elem_of_cons H0 H1.
      * destruct Hpv as [->| ->]; congruence.
      * destruct (Hall r0 Hin H0 H1) as [id0 Hid0].
        exists id0. apply elem_of_app. by right.
Qed.

Lemma forResizers_resized (rs : list Handle) (pv : PersistentVolume) (fr fr' : Frame) :
  forResizers env newQ newSize rs pv fr = (Next, fr') →
  ∃ evs, trace (world fr') = trace (world fr) ++ evs ∧
    ∀ r, r ∈ rs →
      VolumeBelongsToProvider (resizerOf env r) pv = true →
      VolumeBelongsToProvider (resizerOf env r) (setStorage newQ pv) = true →
      ∃ id, EvResizeVolume r id newSize ∈ evs.
Proof.
  unfold forResizers. destruct rs as [|r rs].
  - intros H. inversion H; subst. exists []. rewrite app_nil_r.
    split; [done |]. intros r Hin. by apply not_elem_of_nil in Hin.
  - intros H. by apply (resizersLoop_resized pv) in H; [|left].
Qed.

End Owners.

End Owners.

(** C2, amended.  When the loop over the batch runs to its end, the call
    returns the error of line 143 exactly when the batch is not empty and
    no volume below the target is claimed by any backend, and nil
    otherwise: a volume that no backend claims is passed over without an
    error once another volume has found a backend.  A volume below the
    target whose loop over the backends runs to its end has been grown
    through every backend that claims it, one after the other; that two
    backends claim the same volume is not an error. *)
Theorem C2_no_exclusive_owner (env : Env) (newVolume : Volume) (resizers : list Handle)
    (w w1 : World) (newQuantity : Quantity) (pvs : list PersistentVolume)
    (newSize : Z) (fr : Frame) :
  ParseQuantity env (Size newVolume) = inr newQuantity →
  listVolumesWithManifestSize env newVolume w = (inr (pvs, newSize), w1) →
  volumesLoop env newQuantity newSize resizers pvs (enter w1) = (Next, fr) →
  fst (resizeVolumes env newVolume resizers w) =
    Returned (if (0 <? Z.of_nat (length pvs))
                 && negb (anyCompatible env newSize resizers pvs)
              then Some NotCompatibleWithProviders else None)
  ∧ ∀ pv fr0 fr1,
      forResizers env newQuantity newSize resizers pv fr0 = (Next, fr1) →
      ∃ evs, trace (world fr1) = trace (world fr0) ++ evs ∧
        ∀ r, r ∈ resizers →
          VolumeBelongsToProvider (resizerOf env r) pv = true →
          VolumeBelongsToProvider (resizerOf env r) (setStorage newQuantity pv) = true →
          ∃ id, EvResizeVolume r id newSize ∈ evs.
Proof.
  intros Hq Hl Hloop. split; [|intros pv fr0 fr1; apply Owners.forResizers_resized].
  rewrite (Loops.resizeVolumes_unfold _ _ _ _ _ _ _ _ Hq Hl), Hloop. simpl.
  apply Runs.volumesLoop_done in Hloop as (_ & _ & Hno & Hyes).
  unfold afterLoop.
  destruct (anyCompatible env newSize resizers pvs).
  - specialize (Hyes eq_refl). simpl in Hyes.
    assert (Hz : (totalCompatible fr =? 0) = false) by (apply Z.eqb_neq; lia).
    rewrite Hz. by rewrite !andb_false_r.
  - specialize (Hno eq_refl). simpl in Hno. rewrite Hno. simpl.
    by destruct (0 <? Z.of_nat (length pvs)).
Qed.

Lemma C2_no_exclusive_owner_witness :
  let env := Fixtures.calm Batches.ownsFirstVolume in
  let w := Fixtures.cluster Batches.twoClaims Batches.twoSmall 2 in
  fst (resizeVolumes env {| Size := "20Gi" |} [0%nat] w) = Returned None.
Proof.
  intros env w.
  set (pvs := [{| pvName := "pv-0";
                  pvSpec := Fixtures.volumeSpec (10 * Gigabyte) "pgdata-db-0" |};
               {| pvName := "pv-1";
                  pvSpec := Fixtures.volumeSpec (10 * Gigabyte) "pgdata-db-1" |}]).
  set (w1 := snd (listVolumesWithManifestSize env {| Size := "20Gi" |} w)).
  refine (proj1
    (C2_no_exclusive_owner env {| Size := "20Gi" |} [0%nat] w w1 (20 * Gigabyte) pvs 20
       (snd (volumesLoop env (20 * Gigabyte) 20 [0%nat] pvs (enter w1))) _ _ _)).
  - reflexivity.
  - vm_compute. reflexivity.
  - vm_compute. reflexivity.
Defined.

(** ** The two revisions on the same batches *)

(** On the batch of C6 the earlier revision releases the backend it
    connected: its deferred call has the receiver bound. *)
Example earlier_revision_disconnects_the_connected_backend :
  let w := Fixtures.cluster Batches.oneClaim Batches.oneVolume 1 in
  let pvs := [{| pvName := "pv-0";
                 pvSpec := Fixtures.volumeSpec (10 * Gigabyte) "pgdata-db-0" |}] in
  let run := Earlier.resizeListed (Fixtures.calm Batches.firstOwns) (20 * Gigabyte) 20
               [0%nat; 1%nat] pvs w in
  fst run = Returned None ∧
  filter (λ e, isConnection e = true) (trace (snd run)) =
    [EvConnect 0%nat true; EvDisconnect 0%nat true] ∧
  elements (connected (snd run)) = [].
Proof. vm_compute. repeat split; reflexivity. Qed.

(** On the batch of C1 the earlier revision counts the backend that claims
    the volume before it looks at the size, and returns nil. *)
Example earlier_revision_accepts_a_batch_at_target :
  let w := Fixtures.cluster Batches.oneClaim Batches.oneVolume 1 in
  let pvs := [{| pvName := "pv-0";
                 pvSpec := Fixtures.volumeSpec (10 * Gigabyte) "pgdata-db-0" |}] in
  let run := Earlier.resizeListed (Fixtures.calm Batches.allOwn) (10 * Gigabyte) 10
               [0%nat] pvs w in
  fst run = Returned None ∧
  trace (snd run) =
    [EvBelongs 0%nat "pv-0"; EvIsConnected 0%nat; EvConnect 0%nat true;
     EvDisconnect 0%nat true].
Proof. vm_compute. split; reflexivity. Qed.

(** ** The connections a call opens and releases *)

Module Connections.

Lemma connectionCalls_app (a b : list Event) :
  connectionCalls (a ++ b) = connectionCalls a ++ connectionCalls b.
Proof. unfold connectionCalls. apply filter_app. Qed.

Lemma connectionCalls_log (e : Event) (w : World) :
  connectionCalls (trace (log e w)) =
    connectionCalls (trace w) ++ (if isConnection e then [e] else []).
Proof.
  simpl. rewrite connectionCalls_app. f_equal.
  unfold connectionCalls. destruct (isConnection e) eqn:He.
  - by rewrite filter_cons_True.
  - rewrite filter_cons_False; [done |]. by rewrite He.
Qed.

Lemma trace_setConnected (cs : gset Handle) (w : World) :
  trace (setConnected cs w) = trace w.
Proof. reflexivity. Qed.

Lemma quiet_refl (w : World) : quiet w w.
Proof. by split. Qed.

Lemma quiet_trans (w1 w2 w3 : World) : quiet w1 w2 → quiet w2 w3 → quiet w1 w3.
Proof. intros [H1 H2] [H3 H4]. split; congruence. Qed.

Lemma quiet_log (e : Event) (w : World) : isConnection e = false → quiet w (log e w).
Proof.
  intros He. split; [done |].
  rewrite connectionCalls_log, He. by rewrite app_nil_r.
Qed.

Section Calls.

Variable env : Env.

Lemma updatePersistentVolume_quiet (pv : PersistentVolume) (w : World) :
  quiet w (snd (updatePersistentVolume env pv w)).
Proof.
  unfold updatePersistentVolume.
  destruct (updateVolumeFails env (trace w) pv); simpl.
  - by apply quiet_log.
  - split; [done |]. simpl. rewrite connectionCalls_app.
    unfold connectionCalls at 2. rewrite filter_cons_False by done.
    by rewrite filter_nil, app_nil_r.
Qed.

Lemma listLoop_quiet (lpi : Z) (pvcs : list PersistentVolumeClaim) :
  ∀ acc w, quiet w (snd (listLoop env lpi pvcs acc w)).
Proof.
  induction pvcs as [|c pvcs IH]; intros acc w; simpl; [apply quiet_refl |].
  destruct (claimDecision (pvcName c) lpi); simpl; try apply quiet_refl; [|apply IH].
  pose proof (Enumeration.getPersistentVolume_world env (pvcVolumeName c) w) as Hw.
  destruct (getPersistentVolume env (pvcVolumeName c) w) as [[e|pv] w1]; simpl in Hw; subst.
  - by apply quiet_log.
  - eapply quiet_trans; [|apply IH]. by apply quiet_log.
Qed.

Lemma listVolumesWithManifestSize_quiet (nv : Volume) (w : World) :
  quiet w (snd (listVolumesWithManifestSize env nv w)).
Proof.
  unfold listVolumesWithManifestSize.
  destruct (ParseQuantity env (Size nv)); simpl; [apply quiet_refl |].
  assert (H : quiet w (snd (listPersistentVolumes env w))).
  { unfold listPersistentVolumes, listPersistentVolumeClaims.
    destruct (listClaimsFails env (trace w)); simpl; [by apply quiet_log |].
    eapply quiet_trans; [|apply listLoop_quiet]. by apply quiet_log. }
  by destruct (listPersistentVolumes env w) as [[e|vols] w'].
Qed.

End Calls.

End Connections.

Module Discipline.

Import Connections.

Lemma exiting_transport (w0 : World) (opened failed : list Handle) (fr fr' : Frame) :
  exiting w0 opened failed fr →
  quiet (world fr) (world fr') →
  deferred fr' = deferred fr →
  (length (loopVars fr) ≤ length (loopVars fr'))%nat →
  exiting w0 opened failed fr'.
Proof.
  intros (Hce & Hnd & Hnew & Hf & Hlen & Hcells) [_ Hq] Hd Hv.
  unfold exiting. rewrite Hq, Hd.
  split; [done |]. split; [done |]. split; [done |]. split; [done |]. split; [done |].
  eapply Forall_impl; [exact Hcells |]. simpl. intros cell Hc. lia.
Qed.

Lemma opening_transport (w0 : World) (opened : list Handle) (fr fr' : Frame) :
  opening w0 opened fr →
  quiet (world fr) (world fr') →
  deferred fr' = deferred fr →
  (length (loopVars fr) ≤ length (loopVars fr'))%nat →
  opening w0 opened fr'.
Proof.
  intros [Hex Hconn] Hq Hd Hv. split; [by eapply exiting_transport |].
  destruct Hq as [-> _]. done.
Qed.

Lemma opening_after (w0 : World) (opened : list Handle) (flow : Flow) (fr : Frame) :
  opening w0 opened fr → after w0 flow fr.
Proof.
  intros H. destruct flow; simpl; [by exists opened |].
  exists opened, []. by destruct H.
Qed.

Section Discipline.

Variable env : Env.
Variable newQ : Quantity.
Variable newSize : Z.

Lemma growVolume_quiet (r : Handle) (pv : PersistentVolume) (fr : Frame) :
  quiet (world fr) (world (snd (growVolume env newQ newSize r pv fr)))
  ∧ deferred (snd (growVolume env newQ newSize r pv fr)) = deferred fr
  ∧ loopVars (snd (growVolume env newQ newSize r pv fr)) = loopVars fr.
Proof.
  unfold growVolume, getProviderVolumeID, resizeVolume, resizeFilesystem.
  assert (H1 : quiet (world fr) (log (EvGetProviderVolumeID r (pvName pv)) (world fr)))
    by (by apply quiet_log).
  destruct (GetProviderVolumeID (resizerOf env r) (trace (world fr)) pv) as [e|id];
    [done |].
  assert (H2 : quiet (world fr)
    (log (EvResizeVolume r id newSize)
       (log (EvGetProviderVolumeID r (pvName pv)) (world fr))))
    by (eapply quiet_trans; [exact H1 | by apply quiet_log]).
  destruct (ResizeVolume (resizerOf env r) _ id newSize) as [e|]; [done |].
  destruct (getPodNameFromPersistentVolume pv) as [pod|]; [|done].
  assert (H3 : quiet (world fr)
    (log (EvResizeFilesystem pod)
       (log (EvResizeVolume r id newSize)
          (log (EvGetProviderVolumeID r (pvName pv)) (world fr)))))
    by (eapply quiet_trans; [exact H2 | by apply quiet_log]).
  destruct (resizePostgresFilesystem env _ pod) as [e|]; [done |].
  match goal with
  | |- context [updatePersistentVolume env ?p ?w] =>
      pose proof (updatePersistentVolume_quiet env p w) as H4;
      destruct (updatePersistentVolume env p w) as [[e|] w4]
  end; pairs; (split; [by eapply quiet_trans | done]).
Qed.

Lemma ensureConnected_after (w0 : World) (opened : list Handle) (cell : nat)
    (r : Handle) (fr : Frame) :
  opening w0 opened fr → (cell < length (loopVars fr))%nat →
  after w0 (fst (ensureConnected env cell r fr)) (snd (ensureConnected env cell r fr))
  ∧ loopVars (snd (ensureConnected env cell r fr)) = loopVars fr.
Proof.
  intros Hop Hcell. unfold ensureConnected, isConnected.
  case_bool_decide as Hr; pairs.
  { split; [|done]. exists opened.
    eapply opening_transport; [exact Hop | by apply quiet_log | done | done]. }
  destruct Hop as [(Hce & Hnd & Hnew & Hf & Hlen & Hcells) Hconn].
  rewrite app_nil_r in Hnd, Hnew. rewrite fmap_nil, app_nil_r in Hce.
  assert (Hfresh : (r ∉ opened) ∧ (r ∉ connected w0)).
  { rewrite Hconn in Hr. split; intros Hin; apply Hr, elem_of_union.
    - right. by apply elem_of_list_to_set.
    - by left. }
  destruct Hfresh as [Hro Hrw].
  unfold connect.
  destruct (ConnectToProvider (resizerOf env r) _) as [e|]; pairs.
  - split; [|done]. exists opened, [r]. unfold exiting. pairs.
    rewrite !connectionCalls_log. simpl. rewrite app_nil_r, Hce, <- app_assoc.
    split; [done |]. split.
    { apply NoDup_app. split; [done |]. split; [|apply NoDup_singleton].
      intros x Hx Hx1. apply list_elem_of_singleton in Hx1. by subst. }
    split.
    { intros x [Hx|Hx]%elem_of_app; [by apply Hnew |].
      apply list_elem_of_singleton in Hx. by subst. }
    split; [simpl; lia |]. split; [done | done].
  - split; [|done]. exists (opened ++ [r]). split.
    + unfold exiting. pairs.
      rewrite connectionCalls_log, trace_setConnected, connectionCalls_log. simpl.
      rewrite !app_nil_r, Hce, fmap_app, <- app_assoc. simpl.
      split; [done |]. split.
      { apply NoDup_app. split; [done |]. split; [|apply NoDup_singleton].
        intros x Hx Hx1. apply list_elem_of_singleton in Hx1. by subst. }
      split.
      { intros x [Hx|Hx]%elem_of_app; [by apply Hnew |].
        apply list_elem_of_singleton in Hx. by subst. }
      split; [simpl; lia |]. split; [rewrite length_app; simpl; lia |].
      by constructor.
    + simpl. rewrite Hconn, list_to_set_app_L. apply set_eq. intros x.
      rewrite !elem_of_union, !elem_of_list_to_set, elem_of_singleton,
        list_elem_of_singleton.
      tauto.
Qed.

Lemma resizeWith_after (w0 : World) (opened : list Handle) (cell : nat) (r : Handle)
    (pv : PersistentVolume) (fr : Frame) :
  opening w0 opened fr → (cell < length (loopVars fr))%nat →
  after w0 (fst (fst (resizeWith env newQ newSize cell r pv fr)))
    (snd (resizeWith env newQ newSize cell r pv fr))
  ∧ loopVars (snd (resizeWith env newQ newSize cell r pv fr)) = loopVars fr.
Proof.
  intros Hop Hcell. unfold resizeWith, belongs.
  destruct (VolumeBelongsToProvider (resizerOf env r) pv); pairs.
  2: { split; [|done]. exists opened.
       eapply opening_transport; [exact Hop | by apply quiet_log | done | done]. }
  set (fr0 := countCompatible (withWorld (log (EvBelongs r (pvName pv)) (world fr)) fr)).
  assert (Hop0 : opening w0 opened fr0).
  { eapply opening_transport; [exact Hop | by apply quiet_log | done | done]. }
  destruct (ensureConnected_after w0 opened cell r fr0 Hop0 Hcell) as [Haft Hvars].
  destruct (ensureConnected env cell r fr0) as [[|o] fr1]; pairs; [|done].
  destruct Haft as [opened1 Hop1].
  destruct (growVolume_quiet r pv fr1) as (Hq & Hd & Hv).
  destruct (growVolume env newQ newSize r pv fr1) as [[flow pv'] fr2]; pairs.
  split; [|by rewrite Hv, Hvars].
  apply (opening_after w0 opened1).
  eapply opening_transport; [exact Hop1 | done | done | by rewrite Hv].
Qed.

Lemma resizersLoop_after (w0 : World) (cell : nat) (rs : list Handle) :
  ∀ opened pv fr,
    opening w0 opened fr → (cell < length (loopVars fr))%nat →
    after w0 (fst (resizersLoop env newQ newSize cell rs pv fr))
      (snd (resizersLoop env newQ newSize cell rs pv fr))
    ∧ length (loopVars (snd (resizersLoop env newQ newSize cell rs pv fr)))
      = length (loopVars fr).
Proof.
  induction rs as [|r rs IH]; intros opened pv fr Hop Hcell.
  - simpl. split; [by exists opened | done].
  - cbn [resizersLoop].
    assert (Hop' : opening w0 opened (assignVar cell r fr)).
    { eapply opening_transport; [exact Hop | apply quiet_refl | done |].
      simpl. by rewrite length_insert. }
    assert (Hcell' : (cell < length (loopVars (assignVar cell r fr)))%nat)
      by (simpl; by rewrite length_insert).
    destruct (resizeWith_after w0 opened cell r pv _ Hop' Hcell') as [Haft Hv].
    destruct (resizeWith env newQ newSize cell r pv (assignVar cell r fr))
      as [[[|o] pv'] fr1]; pairs.
    + destruct Haft as [opened1 Hop1].
      assert (Hlen : length (loopVars fr1) = length (loopVars fr))
        by (rewrite Hv; apply length_insert).
      destruct (IH opened1 pv' fr1 Hop1) as [Haft' Hv']; [lia |].
      split; [done | lia].
    + split; [done |]. rewrite Hv. apply length_insert.
Qed.

Lemma forResizers_after (w0 : World) (rs : list Handle) (opened : list Handle)
    (pv : PersistentVolume) (fr : Frame) :
  opening w0 opened fr →
  after w0 (fst (forResizers env newQ newSize rs pv fr))
    (snd (forResizers env newQ newSize rs pv fr)).
Proof.
  intros Hop. unfold forResizers. destruct rs as [|r rs].
  - simpl. by exists opened.
  - apply (resizersLoop_after w0 _ (r :: rs) opened).
    + eapply opening_transport; [exact Hop | apply quiet_refl | done |].
      simpl. rewrite length_app. lia.
    + simpl. rewrite length_app. simpl. lia.
Qed.

Lemma volumesLoop_after (w0 : World) (rs : list Handle) (pvs : list PersistentVolume) :
  ∀ opened fr,
    opening w0 opened fr →
    after w0 (fst (volumesLoop env newQ newSize rs pvs fr))
      (snd (volumesLoop env newQ newSize rs pvs fr)).
Proof.
  induction pvs as [|pv pvs IH]; intros opened fr Hop.
  - simpl. by exists opened.
  - cbn [volumesLoop].
    assert (Hone : after w0 (fst (resizeOne env newQ newSize rs pv fr))
                     (snd (resizeOne env newQ newSize rs pv fr))).
    { unfold resizeOne.
      destruct (newSize <? quantityToGigabyte (storageOf pv));
        [by apply (opening_after w0 opened) |].
      destruct (quantityToGigabyte (storageOf pv) =? newSize);
        [by apply (opening_after w0 opened) |].
      by apply (forResizers_after w0 rs opened). }
    destruct (resizeOne env newQ newSize rs pv fr) as [[|o] fr1]; pairs; [|done].
    destruct Hone as [opened1 Hop1]. by apply (IH opened1).
Qed.

(** Each deferred function literal makes one call to
    [DisconnectFromProvider]. *)
Lemma runDeferred_releases (vars : list Handle) (ds : list nat) :
  ∀ w,
    Forall (λ cell, (cell < length vars)%nat) ds →
    ∃ released,
      connectionCalls (trace (runDeferred env ds vars w)) =
        connectionCalls (trace w) ++ released
      ∧ Forall (λ e, isDisconnect e = true) released
      ∧ length released = length ds.
Proof.
  induction ds as [|cell ds IH]; intros w Hcells.
  - exists []. simpl. by rewrite app_nil_r.
  - inversion Hcells as [|? ? Hc Hrest]; subst. simpl.
    destruct (lookup_lt_is_Some_2 vars cell Hc) as [r Hr]. rewrite Hr.
    destruct (IH (snd (disconnect env r w)) Hrest) as (released & Hce & Hall & Hlen).
    unfold disconnect in *.
    destruct (DisconnectFromProvider (resizerOf env r) (trace w)) as [e|]; simpl in *.
    + exists (EvDisconnect r false :: released).
      rewrite Hce, connectionCalls_app. unfold connectionCalls at 2.
      rewrite filter_cons_True by done. rewrite filter_nil, <- app_assoc.
      split; [done |]. split; [by constructor | simpl; lia].
    + exists (EvDisconnect r true :: released).
      rewrite Hce, connectionCalls_app. unfold connectionCalls at 2.
      rewrite filter_cons_True by done. rewrite filter_nil, <- app_assoc.
      split; [done |]. split; [by constructor | simpl; lia].
Qed.

End Discipline.

End Discipline.

(** The shape of the connection calls of one call of [resizeVolumes]. *)
Lemma calls_balance (env : Env) (newVolume : Volume) (resizers : list Handle)
    (w : World) :
  ∃ opened failed released,
    connectionCalls (trace (snd (resizeVolumes env newVolume resizers w))) =
      connectionCalls (trace w) ++ ((λ r, EvConnect r true) <$> opened)
                                ++ ((λ r, EvConnect r false) <$> failed)
                                ++ released
    ∧ NoDup (opened ++ failed)
    ∧ (∀ r, r ∈ opened ++ failed → r ∉ connected w)
    ∧ (length failed ≤ 1)%nat
    ∧ Forall (λ e, isDisconnect e = true) released
    ∧ length released = length opened.
Proof.
  assert (Htriv : ∀ w', quiet w w' →
    ∃ opened failed released,
      connectionCalls (trace w') =
        connectionCalls (trace w) ++ ((λ r, EvConnect r true) <$> opened)
                                  ++ ((λ r, EvConnect r false) <$> failed)
                                  ++ released
      ∧ NoDup (opened ++ failed)
      ∧ (∀ r, r ∈ opened ++ failed → r ∉ connected w)
      ∧ (length failed ≤ 1)%nat
      ∧ Forall (λ e, isDisconnect e = true) released
      ∧ length released = length opened).
  { intros w' [_ Hq]. exists [], [], []. simpl. rewrite app_nil_r.
    split; [done |]. split; [constructor |]. split; [|by repeat constructor].
    intros r Hr. by apply not_elem_of_nil in Hr. }
  unfold resizeVolumes.
  destruct (ParseQuantity env (Size newVolume)) as [e|newQ];
    [apply Htriv, Connections.quiet_refl |].
  pose proof (Connections.listVolumesWithManifestSize_quiet env newVolume w) as Hlist.
  destruct (listVolumesWithManifestSize env newVolume w) as [[e|[pvs newSize]] w1];
    simpl in Hlist; [by apply Htriv |].
  assert (Hop : opening w [] (enter w1)).
  { destruct Hlist as [Hc Hq]. split.
    - unfold exiting. simpl. rewrite Hq, !app_nil_r.
      split; [done |]. split; [constructor |]. split; [|by repeat constructor].
      intros r Hr. by apply not_elem_of_nil in Hr.
    - simpl. rewrite Hc. by rewrite union_empty_r_L. }
  pose proof (Discipline.volumesLoop_after env newQ newSize w resizers pvs [] _ Hop)
    as Haft.
  assert (Hex : ∃ opened failed,
    exiting w opened failed
      (snd (volumesLoop env newQ newSize resizers pvs (enter w1)))).
  { destruct (volumesLoop env newQ newSize resizers pvs (enter w1)) as [[|o] fr];
      simpl in *; [|done].
    destruct Haft as [opened [Hex _]]. by exists opened, []. }
  destruct Hex as (opened & failed & Hce & Hnd & Hnew & Hf & Hlen & Hcells).
  assert (Hw' : snd (match volumesLoop env newQ newSize resizers pvs (enter w1) with
                     | (Return o, fr) => (o, leave env fr)
                     | (Next, fr) => (afterLoop pvs fr, leave env fr)
                     end)
                = leave env (snd (volumesLoop env newQ newSize resizers pvs (enter w1))))
    by (by destruct (volumesLoop env newQ newSize resizers pvs (enter w1)) as [[|o] fr]).
  rewrite Hw'. unfold leave.
  destruct (Discipline.runDeferred_releases env _ _ (world
    (snd (volumesLoop env newQ newSize resizers pvs (enter w1)))) Hcells)
    as (released & Hrel & Hall & Hlen').
  exists opened, failed, released.
  rewrite Hrel, Hce, <- !app_assoc.
  split; [done |]. split; [done |]. split; [done |]. split; [done |].
  split; [done | lia].
Qed.

(** X19.  The connection calls of one call of [resizeVolumes]: first each
    backend it opens is connected, once, and only if it was not connected
    before; at most one attempt fails, which ends the call; then, as the
    function is left, there are as many calls to
    [DisconnectFromProvider] as backends were opened.  Which backends
    those calls reach is another matter: each goes to the backend the
    loop variable holds by then. *)
Theorem connections_balance (env : Env) (newVolume : Volume) (resizers : list Handle)
    (w : World) :
  ∃ opened failed released,
    connectionCalls (trace (snd (resizeVolumes env newVolume resizers w))) =
      connectionCalls (trace w) ++ ((λ r, EvConnect r true) <$> opened)
                                ++ ((λ r, EvConnect r false) <$> failed)
                                ++ released
    ∧ NoDup (opened ++ failed)
    ∧ (∀ r, r ∈ opened ++ failed → r ∉ connected w)
    ∧ (length failed ≤ 1)%nat
    ∧ Forall (λ e, isDisconnect e = true) released
    ∧ length released = length opened.
Proof. apply calls_balance. Qed.

(** ** A failing release *)

Module Release.

Section Release.

Variable d : Handle → list Event → option Error.
Variable env : Env.

Lemma listLoop_withDisconnect (lpi : Z) (pvcs : list PersistentVolumeClaim) :
  ∀ acc w, listLoop (withDisconnect d env) lpi pvcs acc w = listLoop env lpi pvcs acc w.
Proof.
  induction pvcs as [|c pvcs IH]; intros acc w; simpl; [done |].
  destruct (claimDecision (pvcName c) lpi); [|apply IH | done].
  change (getPersistentVolume (withDisconnect d env) (pvcVolumeName c) w)
    with (getPersistentVolume env (pvcVolumeName c) w).
  destruct (getPersistentVolume env (pvcVolumeName c) w) as [[e|pv] w1]; [done | apply IH].
Qed.

Lemma listVolumesWithManifestSize_withDisconnect (nv : Volume) (w : World) :
  listVolumesWithManifestSize (withDisconnect d env) nv w =
  listVolumesWithManifestSize env nv w.
Proof.
  unfold listVolumesWithManifestSize, listPersistentVolumes, listPersistentVolumeClaims.
  simpl. destruct (ParseQuantity env (Size nv)); [done |].
  destruct (listClaimsFails env (trace w)); [done |].
  by rewrite listLoop_withDisconnect.
Qed.

Lemma resizersLoop_withDisconnect (newQ : Quantity) (newSize : Z) (cell : nat)
    (rs : list Handle) :
  ∀ pv fr,
    resizersLoop (withDisconnect d env) newQ newSize cell rs pv fr =
    resizersLoop env newQ newSize cell rs pv fr.
Proof.
  induction rs as [|r rs IH]; intros pv fr; [done |].
  cbn [resizersLoop].
  change (resizeWith (withDisconnect d env) newQ newSize cell r pv (assignVar cell r fr))
    with (resizeWith env newQ newSize cell r pv (assignVar cell r fr)).
  destruct (resizeWith env newQ newSize cell r pv (assignVar cell r fr))
    as [[[|o] pv'] fr1]; [apply IH | done].
Qed.

Lemma volumesLoop_withDisconnect (newQ : Quantity) (newSize : Z) (rs : list Handle)
    (pvs : list PersistentVolume) :
  ∀ fr,
    volumesLoop (withDisconnect d env) newQ newSize rs pvs fr =
    volumesLoop env newQ newSize rs pvs fr.
Proof.
  induction pvs as [|pv pvs IH]; intros fr; [done |].
  cbn [volumesLoop].
  assert (Hone : resizeOne (withDisconnect d env) newQ newSize rs pv fr =
                 resizeOne env newQ newSize rs pv fr).
  { unfold resizeOne, forResizers.
    destruct rs as [|r rs']; [done |]. by rewrite resizersLoop_withDisconnect. }
  rewrite Hone.
  destruct (resizeOne env newQ newSize rs pv fr) as [[|o] fr1]; [apply IH | done].
Qed.

End Release.

End Release.

(** X20.  What [DisconnectFromProvider] answers, failure or not, has no
    part in what [resizeVolumes] returns. *)
Theorem release_failure_is_not_returned (d : Handle → list Event → option Error)
    (env : Env) (newVolume : Volume) (resizers : list Handle) (w : World) :
  fst (resizeVolumes (withDisconnect d env) newVolume resizers w) =
  fst (resizeVolumes env newVolume resizers w).
Proof.
  unfold resizeVolumes.
  rewrite Release.listVolumesWithManifestSize_withDisconnect.
  change (ParseQuantity (withDisconnect d env)) with (ParseQuantity env).
  destruct (ParseQuantity env (Size newVolume)) as [e|newQ]; [done |].
  destruct (listVolumesWithManifestSize env newVolume w) as [[e|[pvs newSize]] w1];
    [done |].
  rewrite Release.volumesLoop_withDisconnect.
  by destruct (volumesLoop env newQ newSize resizers pvs (enter w1)) as [[|o] fr].
Qed.

(** * Properties of the rest of the file *)

(** ** [deletePersistenVolumeClaims] *)

Module Deletion.

Lemma survivors_app (a b : list DeleteCall) (cs : list PersistentVolumeClaim) :
  survivors (a ++ b) cs = survivors b (survivors a cs).
Proof.
  unfold survivors. rewrite list_filter_filter.
  apply list_filter_iff. intros c.
  rewrite existsb_app, orb_false_iff. tauto.
Qed.

Lemma survivors_nil (cs : list PersistentVolumeClaim) : survivors [] cs = cs.
Proof.
  unfold survivors. induction cs as [|c cs IH]; [done |].
  rewrite filter_cons_True by done. by rewrite IH.
Qed.

Lemma survivors_failed (namespace name : string) (cs : list PersistentVolumeClaim) :
  survivors [{| delNamespace := namespace; delName := name; delOk := false |}] cs = cs.
Proof.
  unfold survivors. induction cs as [|c cs IH]; [done |].
  rewrite filter_cons_True by done. by rewrite IH.
Qed.

Lemma survivors_deleted (namespace name : string) (cs : list PersistentVolumeClaim) :
  survivors [{| delNamespace := namespace; delName := name; delOk := true |}] cs
  = filter (λ c, namedBy namespace name c = false) cs.
Proof.
  unfold survivors. apply list_filter_iff. intros c. simpl.
  by rewrite orb_false_r.
Qed.

Section Sweep.

Variable deleteFails : list DeleteCall → string → string → option Error.

(** What the loop adds: one call per claim, in order, the claims named by
    the calls that succeeded gone, one warning per call that failed, the
    rest of the world as it was. *)
Lemma deleteLoop_spec (pvcs : list PersistentVolumeClaim) :
  ∀ s, ∃ calls lines,
    deleteCalls (deleteLoop deleteFails pvcs s) = deleteCalls s ++ calls
    ∧ logged (deleteLoop deleteFails pvcs s) = logged s ++ lines
    ∧ (λ d, (delNamespace d, delName d)) <$> calls
      = (λ c, (pvcNamespace c, pvcName c)) <$> pvcs
    ∧ claims (swept (deleteLoop deleteFails pvcs s)) = survivors calls (claims (swept s))
    ∧ length (filter (λ l, isWarning l = true) lines)
      = length (filter (λ d, delOk d = false) calls)
    ∧ volumes (swept (deleteLoop deleteFails pvcs s)) = volumes (swept s)
    ∧ Replicas (swept (deleteLoop deleteFails pvcs s)) = Replicas (swept s)
    ∧ connected (swept (deleteLoop deleteFails pvcs s)) = connected (swept s)
    ∧ trace (swept (deleteLoop deleteFails pvcs s)) = trace (swept s).
Proof.
  induction pvcs as [|pvc pvcs IH]; intros s.
  - exists [], []. simpl. rewrite !app_nil_r, survivors_nil. done.
  - cbn [deleteLoop]. unfold deleteClaim. cbn [logLine deleteCalls swept logged].
    destruct (deleteFails (deleteCalls s) (pvcNamespace pvc) (pvcName pvc)) as [e|].
    + match goal with |- context [deleteLoop _ _ ?s1] =>
        destruct (IH s1) as (calls & lines & Hc & Hl & Hn & Hs & Hw & Hv & Hr & Hco & Ht)
      end.
      cbn [logLine deleteCalls swept logged] in *.
      eexists (_ :: calls), (_ :: _ :: lines).
      rewrite Hc, Hl, Hs, Hv, Hr, Hco, Ht, <- !app_assoc.
      split; [done |]. split; [done |].
      split; [rewrite !fmap_cons; by rewrite Hn |].
      split.
      { change ({| delNamespace := pvcNamespace pvc; delName := pvcName pvc;
                   delOk := false |} :: calls)
          with ([{| delNamespace := pvcNamespace pvc; delName := pvcName pvc;
                    delOk := false |}] ++ calls).
        by rewrite survivors_app, survivors_failed. }
      split; [|done].
      rewrite (filter_cons_False _ (DeletingPVC _ _)) by done.
      rewrite (filter_cons_True _ (CouldNotDeleteClaim e)) by done.
      rewrite filter_cons_True by done. simpl. by rewrite Hw.
    + match goal with |- context [deleteLoop _ _ ?s1] =>
        destruct (IH s1) as (calls & lines & Hc & Hl & Hn & Hs & Hw & Hv & Hr & Hco & Ht)
      end.
      cbn [logLine deleteCalls swept logged setClaims claims volumes Replicas
           connected trace] in *.
      eexists (_ :: calls), (_ :: lines).
      rewrite Hc, Hl, Hs, Hv, Hr, Hco, Ht, <- !app_assoc.
      split; [done |]. split; [done |].
      split; [rewrite !fmap_cons; by rewrite Hn |].
      split.
      { change ({| delNamespace := pvcNamespace pvc; delName := pvcName pvc;
                   delOk := true |} :: calls)
          with ([{| delNamespace := pvcNamespace pvc; delName := pvcName pvc;
                    delOk := true |}] ++ calls).
        by rewrite survivors_app, survivors_deleted. }
      split; [|done].
      rewrite (filter_cons_False _ (DeletingPVC _ _)) by done.
      rewrite filter_cons_False by (simpl; congruence). exact Hw.
Qed.

Lemma deleteLoop_all_ok (pvcs : list PersistentVolumeClaim) :
  (∀ calls namespace name, deleteFails calls namespace name = None) →
  ∀ s, ∃ calls,
    deleteCalls (deleteLoop deleteFails pvcs s) = deleteCalls s ++ calls
    ∧ Forall (λ d, delOk d = true) calls.
Proof.
  intros Hok. induction pvcs as [|pvc pvcs IH]; intros s.
  - exists []. simpl. by rewrite app_nil_r.
  - cbn [deleteLoop]. unfold deleteClaim.
    cbn [logLine deleteCalls swept logged]. rewrite Hok.
    match goal with |- context [deleteLoop _ _ ?s1] =>
      destruct (IH s1) as (calls & Hc & Hall)
    end.
    cbn [deleteCalls] in Hc.
    eexists (_ :: calls). rewrite Hc, <- app_assoc.
    split; [done |]. by constructor.
Qed.

End Sweep.

Lemma filter_none {A : Type} (P : A → Prop) `{∀ x, Decision (P x)} (l : list A) :
  Forall (λ x, ¬ P x) l → filter P l = [].
Proof.
  induction 1 as [|x l Hx _ IH]; [done |].
  by rewrite filter_cons_False.
Qed.

Lemma survivors_all_ok (calls : list DeleteCall) (cs : list PersistentVolumeClaim) :
  Forall (λ d, delOk d = true) calls →
  (λ d, (delNamespace d, delName d)) <$> calls
    = (λ c, (pvcNamespace c, pvcName c)) <$> cs →
  survivors calls cs = [].
Proof.
  intros Hok Hnames. unfold survivors.
  apply filter_none, Forall_forall. intros c Hin Hex.
  apply list_elem_of_lookup in Hin as [i Hi].
  assert (Hkey : ((λ c, (pvcNamespace c, pvcName c)) <$> cs) !! i
                 = Some (pvcNamespace c, pvcName c)) by (by rewrite list_lookup_fmap, Hi).
  rewrite <- Hnames, list_lookup_fmap in Hkey.
  destruct (calls !! i) as [d|] eqn:Hd; [|done].
  simpl in Hkey. inversion Hkey as [[Hns Hn]].
  assert (Hdok : delOk d = true).
  { rewrite Forall_forall in Hok. apply Hok. by eapply list_elem_of_lookup_2. }
  assert (Htrue : existsb (λ d, delOk d && namedBy (delNamespace d) (delName d) c) calls
                  = true).
  { apply existsb_exists. exists d. split.
    - apply list_elem_of_In. by eapply list_elem_of_lookup_2.
    - rewrite Hdok, Hns, Hn. unfold namedBy. simpl.
      by rewrite !bool_decide_eq_true_2. }
  congruence.
Qed.

End Deletion.

(** X1.  [deletePersistenVolumeClaims] is a best-effort sweep.  It returns
    an error only when the listing of the claims fails, and then asks for
    no delete.  When the listing succeeds it returns nil whatever the
    deletes answer, and every listed claim gets exactly one delete call, in
    the order of the listing and with its own namespace and name, also
    after deletes that failed; each failed delete is logged as one
    warning. *)
Theorem delete_is_best_effort (env : Env)
    (deleteFails : list DeleteCall → string → string → option Error) (w : World) :
  (∀ e, listClaimsFails env (trace w) = Some e →
     fst (deletePersistenVolumeClaims env deleteFails w) = Some (CouldNotListClaims e)
     ∧ deleteCalls (snd (deletePersistenVolumeClaims env deleteFails w)) = []
     ∧ claims (swept (snd (deletePersistenVolumeClaims env deleteFails w))) = claims w)
  ∧ (listClaimsFails env (trace w) = None →
     fst (deletePersistenVolumeClaims env deleteFails w) = None
     ∧ (λ d, (delNamespace d, delName d))
         <$> deleteCalls (snd (deletePersistenVolumeClaims env deleteFails w))
       = (λ c, (pvcNamespace c, pvcName c)) <$> claims w
     ∧ length (filter (λ l, isWarning l = true)
                 (logged (snd (deletePersistenVolumeClaims env deleteFails w))))
       = length (filter (λ d, delOk d = false)
                   (deleteCalls (snd (deletePersistenVolumeClaims env deleteFails w))))).
Proof.
  unfold deletePersistenVolumeClaims, listPersistentVolumeClaims. split.
  - intros e He. by rewrite He.
  - intros He. rewrite He.
    match goal with |- context [deleteLoop _ _ ?s0] =>
      destruct (Deletion.deleteLoop_spec deleteFails (claims w) s0)
        as (calls & lines & Hc & Hl & Hn & _ & Hw & _)
    end.
    cbn [deleteCalls logged] in Hc, Hl.
    destruct (0 <? Z.of_nat (length (claims w)));
      cbn [fst snd logLine deleteCalls logged]; rewrite Hc, Hl; simpl app;
      (split; [done |]); (split; [exact Hn |]);
      rewrite filter_cons_False by done;
      rewrite filter_app, length_app, Hw;
      rewrite filter_cons_False by done; simpl; lia.
Qed.

Lemma delete_is_best_effort_witness :
  let run := deletePersistenVolumeClaims
               (Fixtures.calm Batches.allOwn) (λ _ _ _, Some (External "forbidden"))
               (Fixtures.cluster Fixtures.dbClaims Fixtures.dbVolumes 3) in
  fst run = None
  ∧ (λ d, (delNamespace d, delName d)) <$> deleteCalls (snd run)
    = [("default", "db-cluster-0"); ("default", "db-cluster-1");
       ("default", "db-cluster-2")].
Proof.
  intros run.
  destruct (proj2 (delete_is_best_effort
                     (Fixtures.calm Batches.allOwn)
                     (λ _ _ _, Some (External "forbidden"))
                     (Fixtures.cluster Fixtures.dbClaims Fixtures.dbVolumes 3))
              eq_refl) as (H1 & H2 & _).
  split; [exact H1 | exact H2].
Defined.

(** X2.  When the listing succeeds, the claims left in the store after the
    sweep are those that no successful delete call named; the volume
    records, the replica count and the connections are as before.  If no
    delete fails, no claim is left. *)
Theorem delete_removes_what_it_deleted (env : Env)
    (deleteFails : list DeleteCall → string → string → option Error) (w : World) :
  listClaimsFails env (trace w) = None →
  claims (swept (snd (deletePersistenVolumeClaims env deleteFails w)))
    = survivors (deleteCalls (snd (deletePersistenVolumeClaims env deleteFails w)))
        (claims w)
  ∧ volumes (swept (snd (deletePersistenVolumeClaims env deleteFails w))) = volumes w
  ∧ Replicas (swept (snd (deletePersistenVolumeClaims env deleteFails w))) = Replicas w
  ∧ connected (swept (snd (deletePersistenVolumeClaims env deleteFails w))) = connected w
  ∧ ((∀ calls namespace name, deleteFails calls namespace name = None) →
     claims (swept (snd (deletePersistenVolumeClaims env deleteFails w))) = []).
Proof.
  intros He. unfold deletePersistenVolumeClaims, listPersistentVolumeClaims. rewrite He.
  match goal with |- context [deleteLoop _ _ ?s0] =>
    destruct (Deletion.deleteLoop_spec deleteFails (claims w) s0)
      as (calls & lines & Hc & _ & Hn & Hs & _ & Hv & Hr & Hco & _)
  end.
  cbn [deleteCalls swept] in Hc, Hs, Hv, Hr, Hco.
  assert (Hall : (∀ cs namespace name, deleteFails cs namespace name = None) →
                 survivors calls (claims w) = []).
  { intros Hok. apply Deletion.survivors_all_ok; [|exact Hn].
    match type of Hc with deleteCalls (deleteLoop _ _ ?s0) = _ =>
      destruct (Deletion.deleteLoop_all_ok deleteFails (claims w) Hok s0)
        as (calls' & Hc' & Hall)
    end.
    cbn [deleteCalls] in Hc'. rewrite Hc in Hc'. simpl in Hc'. by subst. }
  destruct (0 <? Z.of_nat (length (claims w)));
    cbn [snd logLine deleteCalls swept]; rewrite Hc, Hs, Hv, Hr, Hco; simpl app;
    (split; [done |]); (split; [done |]); (split; [done |]); (split; [done |]);
    exact Hall.
Qed.

Lemma delete_removes_what_it_deleted_witness :
  claims (swept (snd (deletePersistenVolumeClaims
                        (Fixtures.calm Batches.allOwn) (λ _ _ _, None)
                        (Fixtures.cluster Fixtures.dbClaims Fixtures.dbVolumes 3)))) = [].
Proof.
  refine (proj2 (proj2 (proj2 (proj2 (delete_removes_what_it_deleted _ _ _ _)))) _).
  - reflexivity.
  - intros calls namespace name. reflexivity.
Defined.

(** ** More about the enumeration *)

Module Listing.

Import GoString NameShape.

Section Listing.

Variable env : Env.

(** A listing that succeeds has fetched the volumes of the claims that pass
    the name test, in order, and nothing else. *)
Lemma listLoop_fetches (lpi : Z) (pvcs : list PersistentVolumeClaim) :
  ∀ acc w vols w',
    listLoop env lpi pvcs acc w = (inr vols, w') →
    trace w' = trace w
      ++ ((λ c, EvGetVolume (pvcVolumeName c)) <$> filter (λ c, keeps lpi c = true) pvcs).
Proof.
  induction pvcs as [|c pvcs IH]; intros acc w vols w'; simpl.
  - intros H. inversion H; subst. by rewrite app_nil_r.
  - unfold keeps at 1. destruct (claimDecision (pvcName c) lpi) eqn:Hd.
    + pose proof (Enumeration.getPersistentVolume_world env (pvcVolumeName c) w) as Hw.
      destruct (getPersistentVolume env (pvcVolumeName c) w) as [[e|pv] w1]; [done |].
      simpl in Hw. subst w1. intros H. apply IH in H. rewrite H.
      rewrite filter_cons_True by (unfold keeps; by rewrite Hd).
      rewrite fmap_cons. simpl. by rewrite <- app_assoc.
    + intros H. apply IH in H. rewrite H.
      rewrite filter_cons_False; [done |]. unfold keeps. by rewrite Hd.
    + done.
Qed.

(** With a store that answers, names that convert and volumes that exist,
    the loop succeeds. *)
Lemma listLoop_succeeds (lpi : Z) (pvcs : list PersistentVolumeClaim) :
  (∀ tr name, getVolumeFails env tr name = None) →
  ∀ acc w,
    Forall (λ c, claimDecision (pvcName c) lpi ≠ Malformed) pvcs →
    (∀ c, c ∈ pvcs → keeps lpi c = true → is_Some (volumes w !! pvcVolumeName c)) →
    ∃ vols w', listLoop env lpi pvcs acc w = (inr vols, w').
Proof.
  intros Hget. induction pvcs as [|c pvcs IH]; intros acc w Hwf Hex; simpl; [eauto |].
  inversion Hwf as [|? ? Hc Hrest]; subst.
  assert (Hex' : ∀ w1, volumes w1 = volumes w →
            ∀ c0, c0 ∈ pvcs → keeps lpi c0 = true →
                  is_Some (volumes w1 !! pvcVolumeName c0)).
  { intros w1 Hv c0 Hin Hk. rewrite Hv. apply Hex; [apply elem_of_cons; by right | done]. }
  destruct (claimDecision (pvcName c) lpi) eqn:Hd; [| by apply IH, Hex' | done].
  unfold getPersistentVolume. rewrite Hget.
  destruct (Hex c) as [s Hs]; [apply elem_of_cons; by left | unfold keeps; by rewrite Hd |].
  rewrite Hs. apply IH; [done |]. by apply Hex'.
Qed.

(** A claim that passes the name test and whose volume the store does not
    have makes the loop fail. *)
Lemma listLoop_missing (lpi : Z) (pvcs : list PersistentVolumeClaim)
    (c : PersistentVolumeClaim) :
  c ∈ pvcs → keeps lpi c = true →
  ∀ acc w, volumes w !! pvcVolumeName c = None →
           ∃ e, fst (listLoop env lpi pvcs acc w) = inl e.
Proof.
  intros Hin Hk. induction pvcs as [|c' pvcs IH]; [by apply not_elem_of_nil in Hin |].
  intros acc w Hnone. simpl.
  apply elem_of_cons in Hin as [<-|Hin'].
  - unfold keeps in Hk. destruct (claimDecision (pvcName c) lpi); try done.
    unfold getPersistentVolume.
    destruct (getVolumeFails env (trace w) (pvcVolumeName c)); [eauto |].
    rewrite Hnone. eauto.
  - destruct (claimDecision (pvcName c') lpi); [| by apply IH | eauto].
    pose proof (Enumeration.getPersistentVolume_world env (pvcVolumeName c') w) as Hw.
    destruct (getPersistentVolume env (pvcVolumeName c') w) as [[e|pv] w1]; [eauto |].
    simpl in Hw. subst w1. by apply IH.
Qed.

End Listing.

Lemma Atoi_overflow (s : string) :
  s ≠ EmptyString → allDigits s = true → maxInt < decimalValue s → Atoi s = None.
Proof.
  intros Hne Hd Hmax. unfold Atoi.
  destruct s as [|a s]; [done |].
  assert (Hsign : a ≠ "+"%char ∧ a ≠ "-"%char).
  { simpl in Hd. apply andb_prop in Hd as [Ha _].
    apply bool_decide_eq_true in Ha as [d Ha].
    split; intros ->; by vm_compute in Ha. }
  destruct Hsign as [Hp Hm].
  assert (Hbody :
    match String a s with
    | String "+"%char r => (false, r)
    | String "-"%char r => (true, r)
    | _ => (false, String a s)
    end = (false, String a s)).
  { destruct a as [[] [] [] [] [] [] [] []]; try reflexivity; congruence. }
  rewrite Hbody. rewrite (Names.parseDigits_value _ 0 Hd).
  rewrite Z.mul_0_l, Z.add_0_l.
  assert (Hhi : (decimalValue (String a s) <=? maxInt) = false) by (apply Z.leb_gt; lia).
  by rewrite Hhi, andb_false_r.
Qed.

End Listing.

(** X3.  If the store answers every call, no claim name fails the
    conversion and the volume of every claim that passes the name test
    exists, [listPersistentVolumes] succeeds; it returns those volumes in
    the order of the claims, and it has asked the store for the claims once
    and then for exactly those volumes, in that order: the volume of a
    skipped claim is never fetched. *)
Theorem listing_fetches_the_kept_claims (env : Env) (w : World) :
  (∀ tr, listClaimsFails env tr = None) →
  (∀ tr name, getVolumeFails env tr name = None) →
  Forall (λ c, claimDecision (pvcName c) (lastPodIndexOf w) ≠ Malformed) (claims w) →
  (∀ c, c ∈ claims w → keeps (lastPodIndexOf w) c = true →
        is_Some (volumes w !! pvcVolumeName c)) →
  ∃ vols w',
    listPersistentVolumes env w = (inr vols, w')
    ∧ Forall2 (λ c pv, resolve (volumes w) c = Some pv)
        (filter (λ c, keeps (lastPodIndexOf w) c = true) (claims w)) vols
    ∧ trace w' = trace w ++ EvListClaims ::
        ((λ c, EvGetVolume (pvcVolumeName c))
           <$> filter (λ c, keeps (lastPodIndexOf w) c = true) (claims w)).
Proof.
  intros Hlist Hget Hwf Hex.
  assert (Hrun : ∃ vols w', listPersistentVolumes env w = (inr vols, w')).
  { unfold listPersistentVolumes, listPersistentVolumeClaims. rewrite Hlist.
    by apply Listing.listLoop_succeeds. }
  destruct Hrun as (vols & w' & Hrun). exists vols, w'.
  split; [done |]. split; [by eapply Enumeration.listPersistentVolumes_ok |].
  unfold listPersistentVolumes, listPersistentVolumeClaims in Hrun.
  rewrite Hlist in Hrun. apply Listing.listLoop_fetches in Hrun.
  rewrite Hrun. simpl. by rewrite <- app_assoc.
Qed.

Lemma listing_fetches_the_kept_claims_witness :
  ∃ vols w',
    listPersistentVolumes (Fixtures.calm Batches.allOwn)
      (Fixtures.cluster Fixtures.dbClaims Fixtures.dbVolumes 2) = (inr vols, w')
    ∧ trace w' = [EvListClaims; EvGetVolume "pv-0"; EvGetVolume "pv-1"].
Proof.
  destruct (listing_fetches_the_kept_claims (Fixtures.calm Batches.allOwn)
              (Fixtures.cluster Fixtures.dbClaims Fixtures.dbVolumes 2))
    as (vols & w' & Hrun & _ & Ht).
  - intros tr. reflexivity.
  - intros tr name. reflexivity.
  - repeat constructor; vm_compute; discriminate.
  - intros c Hin Hk.
    apply elem_of_cons in Hin as [->|Hin]; [vm_compute; eauto |].
    apply elem_of_cons in Hin as [->|Hin]; [vm_compute; eauto |].
    apply elem_of_cons in Hin as [->|Hin]; [vm_compute; eauto |].
    by apply not_elem_of_nil in Hin.
  - exists vols, w'. split; [exact Hrun | exact Ht].
Defined.

(** X4.  When the claims are listed and one of them passes the name test
    but is bound to a volume the store does not have, the whole enumeration
    fails: no partial list is returned. *)
Theorem listing_aborts_on_missing_volume (env : Env) (w : World)
    (c : PersistentVolumeClaim) :
  c ∈ claims w →
  keeps (lastPodIndexOf w) c = true →
  volumes w !! pvcVolumeName c = None →
  ∃ e, fst (listPersistentVolumes env w) = inl e.
Proof.
  intros Hin Hk Hnone.
  unfold listPersistentVolumes, listPersistentVolumeClaims.
  destruct (listClaimsFails env (trace w)); simpl; [eauto |].
  by eapply Listing.listLoop_missing.
Qed.

Lemma listing_aborts_on_missing_volume_witness :
  ∃ e, fst (listPersistentVolumes (Fixtures.calm Batches.allOwn)
              (Fixtures.cluster Fixtures.dbClaims Batches.oneVolume 3)) = inl e.
Proof.
  refine (listing_aborts_on_missing_volume _ _ (Fixtures.claim "db-cluster-1" "pv-1") _ _ _).
  - unfold Fixtures.cluster, Fixtures.dbClaims. simpl.
    apply elem_of_cons. right. apply elem_of_cons. by left.
  - reflexivity.
  - reflexivity.
Defined.

(** X5.  The ordinal of a claim is compared after the conversion to 32
    bits.  For a name base-N with a non-empty base and a decimal N that
    fits a 64-bit integer, the claim is skipped exactly when the low 32
    bits of N, read as a signed number, are above the index of the last
    pod; an N that does not fit 64 bits is a conversion error. *)
Theorem ordinal_is_compared_in_32_bits (base ds : string) (lastPodIndex : Z) :
  base ≠ EmptyString → ds ≠ EmptyString → allDigits ds = true →
  (decimalValue ds ≤ maxInt →
   claimDecision (base +:+ String "-"%char ds) lastPodIndex =
     if lastPodIndex <? int32 (decimalValue ds) then Skip else Keep)
  ∧ (maxInt < decimalValue ds →
     claimDecision (base +:+ String "-"%char ds) lastPodIndex = Malformed).
Proof.
  intros Hb Hds Hd.
  assert (Hshape : ∀ r,
    GoString.Atoi ds = r →
    claimDecision (base +:+ String "-"%char ds) lastPodIndex =
      match r with
      | None => Malformed
      | Some n => if lastPodIndex <? int32 n then Skip else Keep
      end).
  { intros r Hr. unfold claimDecision.
    rewrite (Names.LastIndexDash_token base ds (Names.allDigits_noDash _ Hd)).
    unfold len. rewrite Names.length_append. simpl String.length.
    pose proof (NameTest.length_nonempty _ Hb). pose proof (NameTest.length_nonempty _ Hds).
    assert (H1 : (0 <? Z.of_nat (String.length base)) = true) by (apply Z.ltb_lt; lia).
    assert (H2 : (Z.of_nat (String.length base)
                  <? Z.of_nat (String.length base + S (String.length ds)) - 1) = true)
      by (apply Z.ltb_lt; lia).
    rewrite H1, H2. simpl andb. cbv iota.
    by rewrite Names.sliceFrom_token, Hr. }
  split.
  - intros Hfit. by rewrite (Hshape _ (Names.Atoi_digits ds Hds Hd Hfit)).
  - intros Hbig. by rewrite (Hshape _ (Listing.Atoi_overflow ds Hds Hd Hbig)).
Qed.

Lemma ordinal_is_compared_in_32_bits_witness :
  claimDecision "db-cluster-4294967297" 0 = Skip
  ∧ claimDecision "db-cluster-4294967296" 0 = Keep.
Proof.
  split.
  - refine (proj1 (ordinal_is_compared_in_32_bits "db-cluster" "4294967297" 0 _ _ _) _);
      [discriminate | discriminate | reflexivity | vm_compute; discriminate].
  - refine (proj1 (ordinal_is_compared_in_32_bits "db-cluster" "4294967296" 0 _ _ _) _);
      [discriminate | discriminate | reflexivity | vm_compute; discriminate].
Defined.

(** ** [volumesNeedResizing] and [quantityToGigabyte] *)

Module Asking.

Section Asking.

Variable env : Env.

Lemma listLoop_reads (lpi : Z) (pvcs : list PersistentVolumeClaim) :
  ∀ acc w, ∃ evs,
    trace (snd (listLoop env lpi pvcs acc w)) = trace w ++ evs
    ∧ Forall (λ e, isRead e = true) evs.
Proof.
  induction pvcs as [|c pvcs IH]; intros acc w; simpl.
  - exists []. by rewrite app_nil_r.
  - destruct (claimDecision (pvcName c) lpi); simpl;
      [| apply IH | exists []; by rewrite app_nil_r].
    pose proof (Enumeration.getPersistentVolume_world env (pvcVolumeName c) w) as Hw.
    destruct (getPersistentVolume env (pvcVolumeName c) w) as [[e|pv] w1];
      simpl in Hw; subst w1; simpl.
    + exists [EvGetVolume (pvcVolumeName c)]. split; [done | by constructor].
    + destruct (IH (acc ++ [pv]) (log (EvGetVolume (pvcVolumeName c)) w))
        as (evs & Ht & Hall).
      exists (EvGetVolume (pvcVolumeName c) :: evs). rewrite Ht. simpl.
      rewrite <- app_assoc. split; [done | by constructor].
Qed.

Lemma listVolumesWithManifestSize_reads (nv : Volume) (w : World) :
  sameState w (snd (listVolumesWithManifestSize env nv w))
  ∧ ∃ evs, trace (snd (listVolumesWithManifestSize env nv w)) = trace w ++ evs
           ∧ Forall (λ e, isRead e = true) evs.
Proof.
  unfold listVolumesWithManifestSize.
  destruct (ParseQuantity env (Size nv)); simpl.
  { split; [apply Enumeration.sameState_refl |]. exists []. by rewrite app_nil_r. }
  pose proof (Enumeration.listPersistentVolumes_sameState env w) as Hs.
  assert (Hr : ∃ evs, trace (snd (listPersistentVolumes env w)) = trace w ++ evs
                      ∧ Forall (λ e, isRead e = true) evs).
  { unfold listPersistentVolumes, listPersistentVolumeClaims.
    destruct (listClaimsFails env (trace w)); simpl.
    - exists [EvListClaims]. split; [done | by constructor].
    - match goal with |- context [listLoop env ?lpi ?cs ?acc ?w0] =>
        destruct (listLoop_reads lpi cs acc w0) as (evs & Ht & Hall)
      end.
      exists (EvListClaims :: evs). rewrite Ht. simpl. rewrite <- app_assoc.
      split; [done | by constructor]. }
  by destruct (listPersistentVolumes env w) as [[e|vols] w'].
Qed.

End Asking.

Lemma anyDiffers_iff (m : Z) (vols : list PersistentVolume) :
  anyDiffers m vols = true ↔ Exists (λ pv, quantityToGigabyte (storageOf pv) ≠ m) vols.
Proof.
  induction vols as [|pv vols IH]; simpl.
  - split; [done | by inversion 1].
  - destruct (Z.eqb_spec (quantityToGigabyte (storageOf pv)) m) as [Heq|Hne]; simpl.
    + rewrite IH. split; [by right |]. inversion 1; [done | done].
    + split; [by left | done].
Qed.

End Asking.

(** X6.  [volumesNeedResizing] only reads: it adds calls that list the
    claims and fetch volumes and leaves claims, volume records, replica
    count and connections as they were.  When its listing fails it returns
    false with that error.  When its listing succeeds it returns true
    exactly when the size in whole gigabytes of some listed volume differs
    from the manifest size, be it smaller or larger. *)
Theorem needsResize_iff_some_size_differs (env : Env) (newVolume : Volume) (w : World) :
  sameState w (snd (volumesNeedResizing env newVolume w))
  ∧ (∃ evs, trace (snd (volumesNeedResizing env newVolume w)) = trace w ++ evs
            ∧ Forall (λ e, isRead e = true) evs)
  ∧ (∀ e w', listVolumesWithManifestSize env newVolume w = (inl e, w') →
       volumesNeedResizing env newVolume w = ((false, Some e), w'))
  ∧ (∀ vols m w', listVolumesWithManifestSize env newVolume w = (inr (vols, m), w') →
       ∃ b, volumesNeedResizing env newVolume w = ((b, None), w')
            ∧ (b = true ↔
               Exists (λ pv, quantityToGigabyte (storageOf pv) ≠ m) vols)).
Proof.
  destruct (Asking.listVolumesWithManifestSize_reads env newVolume w) as [Hs Hr].
  unfold volumesNeedResizing.
  destruct (listVolumesWithManifestSize env newVolume w) as [[e|[vols m]] w'];
    simpl in *.
  - split; [done |]. split; [done |]. split; [|done].
    intros e0 w0 H. by inversion H.
  - split; [done |]. split; [done |]. split; [done |].
    intros vols0 m0 w0 H. inversion H; subst.
    exists (anyDiffers m0 vols0). split; [done | apply Asking.anyDiffers_iff].
Qed.

(** X7.  [quantityToGigabyte] truncates toward zero: a non-negative
    quantity lies between its result times the gigabyte and, strictly,
    the next multiple; a negative one between the multiple below,
    strictly, and its result times the gigabyte.  It is monotone. *)
Theorem quantityToGigabyte_truncates (q q' : Quantity) :
  (0 ≤ q →
   quantityToGigabyte q * Gigabyte ≤ q < (quantityToGigabyte q + 1) * Gigabyte)
  ∧ (q ≤ 0 →
     (quantityToGigabyte q - 1) * Gigabyte < q ≤ quantityToGigabyte q * Gigabyte)
  ∧ (q ≤ q' → quantityToGigabyte q ≤ quantityToGigabyte q').
Proof.
  unfold quantityToGigabyte, ScaledValue0.
  assert (HG : 0 < 1 * Gigabyte) by done.
  pose proof (Z.quot_rem' q (1 * Gigabyte)) as Hqr.
  split; [|split].
  - intros Hq. pose proof (Z.rem_bound_pos q (1 * Gigabyte) Hq HG). lia.
  - intros Hq. pose proof (Z.rem_bound_pos_neg q (1 * Gigabyte) HG Hq). lia.
  - intros Hle. by apply Z.quot_le_mono.
Qed.

Lemma quantityToGigabyte_truncates_witness :
  quantityToGigabyte (16 * Gigabyte - 1) * Gigabyte ≤ 16 * Gigabyte - 1
    < (quantityToGigabyte (16 * Gigabyte - 1) + 1) * Gigabyte.
Proof.
  refine (proj1 (quantityToGigabyte_truncates (16 * Gigabyte - 1) 0) _). done.
Defined.

(** ** What a resize leaves of the store *)

Module Frames.

Lemma withCapacity_twice (q : Quantity) (s : PersistentVolumeSpec) :
  withCapacity q (withCapacity q s) = withCapacity q s.
Proof. unfold withCapacity. simpl. by rewrite insert_insert_eq. Qed.

Lemma regrown_refl (q : Quantity) (w : World) : regrown q w w.
Proof. intros n. by left. Qed.

Lemma regrown_same (q : Quantity) (w0 w w' : World) :
  regrown q w0 w → volumes w' = volumes w → regrown q w0 w'.
Proof. intros H Hv n. rewrite Hv. apply H. Qed.

Section Frames.

Variable env : Env.
Variable newQ : Quantity.
Variable newSize : Z.

Lemma connect_volumes (r : Handle) (w : World) :
  volumes (snd (connect env r w)) = volumes w.
Proof. unfold connect. by destruct (ConnectToProvider (resizerOf env r) (trace w)). Qed.

Lemma disconnect_volumes (r : Handle) (w : World) :
  volumes (snd (disconnect env r w)) = volumes w.
Proof.
  unfold disconnect. by destruct (DisconnectFromProvider (resizerOf env r) (trace w)).
Qed.

Lemma ensureConnected_volumes (cell : nat) (r : Handle) (fr : Frame) :
  volumes (world (snd (ensureConnected env cell r fr))) = volumes (world fr).
Proof.
  unfold ensureConnected, isConnected. case_bool_decide; [done |].
  pose proof (connect_volumes r (log (EvIsConnected r) (world fr))) as Hc.
  by destruct (connect env r (log (EvIsConnected r) (world fr))) as [[e|] w2].
Qed.

(** The body either leaves the store or writes the record in hand, with
    the new capacity, under its name. *)
Lemma growVolume_volumes (r : Handle) (pv : PersistentVolume) (fr : Frame) :
  volumes (world (snd (growVolume env newQ newSize r pv fr))) = volumes (world fr)
  ∨ volumes (world (snd (growVolume env newQ newSize r pv fr)))
    = <[pvName pv := withCapacity newQ (pvSpec pv)]> (volumes (world fr)).
Proof.
  unfold growVolume, getProviderVolumeID, resizeVolume, resizeFilesystem.
  destruct (GetProviderVolumeID (resizerOf env r) (trace (world fr)) pv) as [e|id];
    [by left |].
  destruct (ResizeVolume (resizerOf env r) _ id newSize) as [e|]; [by left |].
  destruct (getPodNameFromPersistentVolume pv) as [pod|]; [|by left].
  destruct (resizePostgresFilesystem env _ pod) as [e|]; [by left |].
  unfold updatePersistentVolume.
  destruct (updateVolumeFails env _ (setStorage newQ pv)) as [e|]; [by left | by right].
Qed.

Lemma resizeWith_volumes (cell : nat) (r : Handle) (pv : PersistentVolume) (fr : Frame) :
  volumes (world (snd (resizeWith env newQ newSize cell r pv fr))) = volumes (world fr)
  ∨ volumes (world (snd (resizeWith env newQ newSize cell r pv fr)))
    = <[pvName pv := withCapacity newQ (pvSpec pv)]> (volumes (world fr)).
Proof.
  unfold resizeWith, belongs.
  destruct (VolumeBelongsToProvider (resizerOf env r) pv); [|by left].
  set (fr0 := countCompatible (withWorld (log (EvBelongs r (pvName pv)) (world fr)) fr)).
  pose proof (ensureConnected_volumes cell r fr0) as He.
  destruct (ensureConnected env cell r fr0) as [[|o] fr1]; pairs; [|by left].
  pose proof (growVolume_volumes r pv fr1) as Hg.
  destruct (growVolume env newQ newSize r pv fr1) as [[flow pv'] fr2]; pairs.
  rewrite He in Hg. exact Hg.
Qed.

Lemma regrown_write (w0 w w' : World) (pv0 pv : PersistentVolume) :
  regrown newQ w0 w →
  volumes w0 !! pvName pv0 = Some (pvSpec pv0) →
  pv = pv0 ∨ pv = setStorage newQ pv0 →
  volumes w' = <[pvName pv := withCapacity newQ (pvSpec pv)]> (volumes w) →
  regrown newQ w0 w'.
Proof.
  intros Hre Hsnap Hpv Hw n. rewrite Hw.
  assert (Hname : pvName pv = pvName pv0) by (by destruct Hpv as [->| ->]).
  assert (Hspec : withCapacity newQ (pvSpec pv) = withCapacity newQ (pvSpec pv0)).
  { destruct Hpv as [->| ->]; [done |]. apply withCapacity_twice. }
  rewrite Hname, Hspec.
  destruct (decide (pvName pv0 = n)) as [<-|Hne].
  - right. exists (pvSpec pv0). by rewrite lookup_insert_eq.
  - rewrite lookup_insert_ne by done. apply Hre.
Qed.

Lemma resizersLoop_regrown (w0 : World) (pv0 : PersistentVolume) (cell : nat)
    (rs : list Handle) :
  volumes w0 !! pvName pv0 = Some (pvSpec pv0) →
  ∀ pv fr,
    pv = pv0 ∨ pv = setStorage newQ pv0 →
    regrown newQ w0 (world fr) →
    regrown newQ w0 (world (snd (resizersLoop env newQ newSize cell rs pv fr))).
Proof.
  intros Hsnap. induction rs as [|r rs IH]; intros pv fr Hpv Hre; [done |].
  cbn [resizersLoop].
  pose proof (resizeWith_volumes cell r pv (assignVar cell r fr)) as Hv.
  destruct (Bodies.resizeWith_spec env newQ newSize (λ _, True) cell r pv
              (assignVar cell r fr) I) as (_ & _ & _ & Hpv').
  destruct (resizeWith env newQ newSize cell r pv (assignVar cell r fr))
    as [[flow pv'] fr1]; pairs.
  assert (Hre1 : regrown newQ w0 (world fr1)).
  { destruct Hv as [Hv|Hv]; [by eapply regrown_same | by eapply regrown_write]. }
  destruct flow as [|o]; [|done].
  apply IH; [|done].
  destruct Hpv' as [->| ->]; [done |].
  right. destruct Hpv as [->| ->]; [done | apply Runs.setStorage_twice].
Qed.

Lemma volumesLoop_regrown (w0 : World) (rs : list Handle) (pvs : list PersistentVolume) :
  Forall (λ pv, volumes w0 !! pvName pv = Some (pvSpec pv)) pvs →
  ∀ fr,
    regrown newQ w0 (world fr) →
    regrown newQ w0 (world (snd (volumesLoop env newQ newSize rs pvs fr))).
Proof.
  induction 1 as [|pv pvs Hsnap _ IH]; intros fr Hre; [done |].
  cbn [volumesLoop].
  assert (Hone : regrown newQ w0 (world (snd (resizeOne env newQ newSize rs pv fr)))).
  { unfold resizeOne.
    destruct (newSize <? quantityToGigabyte (storageOf pv)); [done |].
    destruct (quantityToGigabyte (storageOf pv) =? newSize); [done |].
    unfold forResizers. destruct rs as [|r rs']; [done |].
    apply (resizersLoop_regrown w0 pv); [done | by left | done]. }
  destruct (resizeOne env newQ newSize rs pv fr) as [[|o] fr1]; pairs; [|done].
  by apply IH.
Qed.

Lemma runDeferred_volumes (vars : list Handle) (ds : list nat) :
  ∀ w, volumes (runDeferred env ds vars w) = volumes w.
Proof.
  induction ds as [|cell ds IH]; intros w; simpl; [done |].
  destruct (vars !! cell) as [r|]; [|apply IH].
  rewrite IH. apply disconnect_volumes.
Qed.

End Frames.

End Frames.

(** X8.  A call of [resizeVolumes] changes nothing in the store but storage
    capacities: the claims and the replica count stay, no volume record is
    added or removed, and a record that changed is the record it was with
    the parsed manifest quantity as its storage capacity, its claim
    back-reference and its other capacities untouched. *)
Theorem resize_changes_only_storage_capacity (env : Env) (newVolume : Volume)
    (resizers : list Handle) (w : World) :
  claims (snd (resizeVolumes env newVolume resizers w)) = claims w
  ∧ Replicas (snd (resizeVolumes env newVolume resizers w)) = Replicas w
  ∧ ∀ n,
      volumes (snd (resizeVolumes env newVolume resizers w)) !! n = volumes w !! n
      ∨ ∃ s q,
          ParseQuantity env (Size newVolume) = inr q
          ∧ volumes w !! n = Some s
          ∧ volumes (snd (resizeVolumes env newVolume resizers w)) !! n
            = Some (withCapacity q s).
Proof.
  destruct (ParseQuantity env (Size newVolume)) as [e|newQ] eqn:Hq.
  { unfold resizeVolumes. rewrite Hq. simpl. split; [done |]. split; [done |].
    intros n. by left. }
  destruct (Calls.resizeVolumes_evolves env newVolume resizers w newQ Hq)
    as (Hc & Hr & _ & _).
  split; [done |]. split; [done |].
  assert (Hre : regrown newQ w (snd (resizeVolumes env newVolume resizers w))).
  { unfold resizeVolumes. rewrite Hq.
    pose proof (Asking.listVolumesWithManifestSize_reads env newVolume w) as [Hs _].
    destruct (listVolumesWithManifestSize env newVolume w) as [[e|[pvs newSize]] w1] eqn:Hl.
    - simpl in *. destruct Hs as (_ & Hv & _). intros n. left. by rewrite Hv.
    - simpl in Hs. destruct Hs as (_ & Hv & _).
      destruct (Loops.listVolumesWithManifestSize_ok _ _ _ _ _ _ Hl) as (q & _ & _ & Hlp).
      assert (Hsnap : Forall (λ pv, volumes w !! pvName pv = Some (pvSpec pv)) pvs).
      { apply Forall_forall. intros pv Hin. by eapply Calls.listed_in_store. }
      assert (Hloop : regrown newQ w
        (leave env (snd (volumesLoop env newQ newSize resizers pvs (enter w1))))).
      { eapply Frames.regrown_same; [|apply Frames.runDeferred_volumes].
        apply Frames.volumesLoop_regrown; [done |].
        intros n. left. simpl. by rewrite Hv. }
      by destruct (volumesLoop env newQ newSize resizers pvs (enter w1)) as [[|o] fr]. }
  intros n. destruct (Hre n) as [Heq|(s & Hs & Hs')]; [by left |].
  right. by exists s, newQ.
Qed.

(** X9.  A batch with a volume larger than the target never ends in nil:
    the call returns an error or panics. *)
Theorem oversized_volume_is_never_nil (env : Env) (newVolume : Volume)
    (resizers : list Handle) (w w1 : World) (pvs : list PersistentVolume)
    (newSize : Z) (pv : PersistentVolume) :
  listVolumesWithManifestSize env newVolume w = (inr (pvs, newSize), w1) →
  pv ∈ pvs →
  newSize < quantityToGigabyte (storageOf pv) →
  fst (resizeVolumes env newVolume resizers w) ≠ Returned None.
Proof.
  intros Hl Hin Hbig.
  destruct (Loops.listVolumesWithManifestSize_ok _ _ _ _ _ _ Hl) as (q & Hq & _ & _).
  rewrite (Loops.resizeVolumes_unfold _ _ _ _ _ _ _ _ Hq Hl).
  apply list_elem_of_split in Hin as (pre & post & ->).
  rewrite Loops.volumesLoop_app.
  destruct (Runs.volumesLoop_spec env q newSize resizers pre (enter w1)) as (_ & _ & Hne).
  destruct (volumesLoop env q newSize resizers pre (enter w1)) as [[|o] fr]; simpl in *.
  - rewrite Loops.resizeOne_too_large by done. simpl. done.
  - intros Ho. apply Hne. by rewrite Ho.
Qed.

Lemma oversized_volume_is_never_nil_witness :
  let env := Fixtures.calm Batches.allOwn in
  let w := Fixtures.cluster Batches.twoClaims Batches.smallThenLarge 2 in
  fst (resizeVolumes env {| Size := "10Gi" |} [0%nat] w) ≠ Returned None.
Proof.
  intros env w.
  refine (oversized_volume_is_never_nil env {| Size := "10Gi" |} [0%nat] w
            (snd (listVolumesWithManifestSize env {| Size := "10Gi" |} w))
            [{| pvName := "pv-0";
                pvSpec := Fixtures.volumeSpec (5 * Gigabyte) "pgdata-db-0" |};
             {| pvName := "pv-1";
                pvSpec := Fixtures.volumeSpec (20 * Gigabyte) "pgdata-db-1" |}]
            10
            {| pvName := "pv-1";
               pvSpec := Fixtures.volumeSpec (20 * Gigabyte) "pgdata-db-1" |} _ _ _).
  - vm_compute. reflexivity.
  - apply elem_of_cons. right. apply elem_of_cons. by left.
  - vm_compute. reflexivity.
Defined.

(** X10.  When every listed volume is at the target size, a call of
    [resizeVolumes] does nothing beyond the listing: it adds only calls
    that read the store, leaves the store and the connections as they
    were, and returns nil for an empty batch and the error of line 143 for
    a batch that is not empty. *)
Theorem batch_at_target_makes_no_call (env : Env) (newVolume : Volume)
    (resizers : list Handle) (w w1 : World) (pvs : list PersistentVolume)
    (newSize : Z) :
  listVolumesWithManifestSize env newVolume w = (inr (pvs, newSize), w1) →
  Forall (λ pv, quantityToGigabyte (storageOf pv) = newSize) pvs →
  fst (resizeVolumes env newVolume resizers w)
    = match pvs with
      | [] => Returned None
      | _ :: _ => Returned (Some NotCompatibleWithProviders)
      end
  ∧ sameState w (snd (resizeVolumes env newVolume resizers w))
  ∧ ∃ evs, trace (snd (resizeVolumes env newVolume resizers w)) = trace w ++ evs
           ∧ Forall (λ e, isRead e = true) evs.
Proof.
  intros Hl Hall.
  destruct (Loops.listVolumesWithManifestSize_ok _ _ _ _ _ _ Hl) as (q & Hq & _ & _).
  rewrite (Loops.resizeVolumes_unfold _ _ _ _ _ _ _ _ Hq Hl).
  rewrite Loops.volumesLoop_all_at_target by done.
  rewrite Loops.leave_enter. cbn [fst snd].
  destruct (Asking.listVolumesWithManifestSize_reads env newVolume w) as [Hs Hr].
  rewrite Hl in Hs, Hr. simpl in Hs, Hr.
  split; [by destruct pvs |]. by split.
Qed.

Lemma batch_at_target_makes_no_call_witness :
  let env := Fixtures.calm Batches.allOwn in
  let w := Fixtures.cluster Batches.twoClaims Batches.twoSmall 2 in
  fst (resizeVolumes env {| Size := "10Gi" |} [0%nat; 1%nat] w)
    = Returned (Some NotCompatibleWithProviders).
Proof.
  intros env w.
  refine (proj1
    (batch_at_target_makes_no_call env {| Size := "10Gi" |} [0%nat; 1%nat] w
       (snd (listVolumesWithManifestSize env {| Size := "10Gi" |} w))
       [{| pvName := "pv-0";
           pvSpec := Fixtures.volumeSpec (10 * Gigabyte) "pgdata-db-0" |};
        {| pvName := "pv-1";
           pvSpec := Fixtures.volumeSpec (10 * Gigabyte) "pgdata-db-1" |}]
       10 _ _)).
  - vm_compute. reflexivity.
  - repeat constructor.
Defined.


(** ** The calls the loops add *)

Module Added.

Lemma adds_refl (P : Event → Prop) (w : World) : adds P w w.
Proof. exists []. by rewrite app_nil_r. Qed.

Lemma adds_trans (P : Event → Prop) (w1 w2 w3 : World) :
  adds P w1 w2 → adds P w2 w3 → adds P w1 w3.
Proof.
  intros (e1 & H1 & F1) (e2 & H2 & F2). exists (e1 ++ e2).
  rewrite H2, H1, app_assoc. split; [done | by apply Forall_app].
Qed.

Lemma adds_log (P : Event → Prop) (e : Event) (w : World) : P e → adds P w (log e w).
Proof. intros He. exists [e]. split; [done | by constructor]. Qed.

Lemma adds_impl (P Q : Event → Prop) (w w' : World) :
  (∀ e, P e → Q e) → adds P w w' → adds Q w w'.
Proof.
  intros HPQ (evs & Ht & Hf). exists evs. split; [done |].
  by eapply Forall_impl.
Qed.

Section Added.

Variable env : Env.
Variable newQ : Quantity.
Variable newSize : Z.
Variable rs : list Handle.

Lemma ensureConnected_adds (cell : nat) (r : Handle) (fr : Frame) :
  r ∈ rs →
  adds (loopCall rs) (world fr) (world (snd (ensureConnected env cell r fr)))
  ∧ loopVars (snd (ensureConnected env cell r fr)) = loopVars fr.
Proof.
  intros Hr. unfold ensureConnected, isConnected.
  case_bool_decide; pairs; [split; [by apply adds_log | done] |].
  unfold connect.
  destruct (ConnectToProvider (resizerOf env r) _) as [e|]; pairs.
  - split; [|done].
    eapply adds_trans; [by apply (adds_log _ (EvIsConnected r)) |].
    by apply adds_log.
  - split; [|done].
    eapply adds_trans; [by apply (adds_log _ (EvIsConnected r)) |].
    exists [EvConnect r true]. split; [done | by constructor].
Qed.

Lemma growVolume_adds (r : Handle) (pv : PersistentVolume) (fr : Frame) :
  r ∈ rs →
  adds (loopCall rs) (world fr) (world (snd (growVolume env newQ newSize r pv fr))).
Proof.
  intros Hr. unfold growVolume, getProviderVolumeID, resizeVolume, resizeFilesystem.
  assert (H1 : adds (loopCall rs) (world fr)
                 (log (EvGetProviderVolumeID r (pvName pv)) (world fr)))
    by (by apply adds_log).
  destruct (GetProviderVolumeID (resizerOf env r) (trace (world fr)) pv) as [e|id];
    [done |].
  assert (H2 : adds (loopCall rs) (world fr)
    (log (EvResizeVolume r id newSize)
       (log (EvGetProviderVolumeID r (pvName pv)) (world fr))))
    by (eapply adds_trans; [exact H1 | by apply adds_log]).
  destruct (ResizeVolume (resizerOf env r) _ id newSize) as [e|]; [done |].
  destruct (getPodNameFromPersistentVolume pv) as [pod|]; [|done].
  assert (H3 : adds (loopCall rs) (world fr)
    (log (EvResizeFilesystem pod)
       (log (EvResizeVolume r id newSize)
          (log (EvGetProviderVolumeID r (pvName pv)) (world fr)))))
    by (eapply adds_trans; [exact H2 | by apply adds_log]).
  destruct (resizePostgresFilesystem env _ pod) as [e|]; [done |].
  unfold updatePersistentVolume.
  destruct (updateVolumeFails env _ (setStorage newQ pv)) as [e|]; pairs.
  - eapply adds_trans; [exact H3 | by apply adds_log].
  - eapply adds_trans; [exact H3 |].
    eexists [_]. split; [done | by constructor].
Qed.

Lemma resizeWith_adds (cell : nat) (r : Handle) (pv : PersistentVolume) (fr : Frame) :
  r ∈ rs →
  adds (loopCall rs) (world fr) (world (snd (resizeWith env newQ newSize cell r pv fr)))
  ∧ loopVars (snd (resizeWith env newQ newSize cell r pv fr)) = loopVars fr.
Proof.
  intros Hr. unfold resizeWith, belongs.
  destruct (VolumeBelongsToProvider (resizerOf env r) pv); pairs;
    [|split; [by apply adds_log | done]].
  set (fr0 := countCompatible (withWorld (log (EvBelongs r (pvName pv)) (world fr)) fr)).
  assert (H0 : adds (loopCall rs) (world fr) (world fr0)) by (by apply adds_log).
  destruct (ensureConnected_adds cell r fr0 Hr) as [He Hv].
  destruct (ensureConnected env cell r fr0) as [[|o] fr1]; pairs.
  - pose proof (growVolume_adds r pv fr1 Hr) as Hg.
    destruct (Discipline.growVolume_quiet env newQ newSize r pv fr1) as (_ & _ & Hv').
    destruct (growVolume env newQ newSize r pv fr1) as [[flow pv'] fr2]; pairs.
    split; [|by rewrite Hv', Hv].
    eapply adds_trans; [|exact Hg]. by eapply adds_trans.
  - split; [by eapply adds_trans | by rewrite Hv].
Qed.

(** What the loop over the backends [rs'], all among [rs], adds, and what
    it leaves in its variable: the last backend when it runs to its end,
    the backend it stopped at otherwise. *)
Lemma resizersLoop_adds (cell : nat) (rs' : list Handle) :
  (∀ r, r ∈ rs' → r ∈ rs) →
  ∀ pv fr,
    adds (loopCall rs) (world fr)
      (world (snd (resizersLoop env newQ newSize cell rs' pv fr)))
    ∧ (fst (resizersLoop env newQ newSize cell rs' pv fr) = Next →
       loopVars (snd (resizersLoop env newQ newSize cell rs' pv fr))
       = match last rs' with
         | Some l => <[cell := l]> (loopVars fr)
         | None => loopVars fr
         end)
    ∧ (loopVars (snd (resizersLoop env newQ newSize cell rs' pv fr)) = loopVars fr
       ∨ ∃ r, r ∈ rs'
              ∧ loopVars (snd (resizersLoop env newQ newSize cell rs' pv fr))
                = <[cell := r]> (loopVars fr)).
Proof.
  induction rs' as [|r rs' IH]; intros Hin pv fr.
  { simpl. split; [apply adds_refl |]. split; [done | by left]. }
  assert (Hr : r ∈ rs) by (apply Hin; by left).
  assert (Hin' : ∀ r', r' ∈ rs' → r' ∈ rs) by (intros r' H'; apply Hin; by right).
  cbn [resizersLoop].
  destruct (resizeWith_adds cell r pv (assignVar cell r fr) Hr) as [Ha Hv].
  destruct (resizeWith env newQ newSize cell r pv (assignVar cell r fr))
    as [[[|o] pv'] fr1]; pairs.
  - destruct (IH Hin' pv' fr1) as (Ha' & Hn & Hs).
    split; [by eapply adds_trans |]. split.
    + intros HN. rewrite (Hn HN), Hv. rewrite last_cons.
      destruct (last rs'); [by rewrite list_insert_insert_eq | done].
    + right. destruct Hs as [Hs | (r' & Hr' & Hs)].
      * exists r. split; [by left |]. by rewrite Hs, Hv.
      * exists r'. split; [by right |]. by rewrite Hs, Hv, list_insert_insert_eq.
  - split; [done |]. split; [done |]. right. exists r. split; [by left | done].
Qed.

Lemma forResizers_adds (pv : PersistentVolume) (fr : Frame) :
  adds (loopCall rs) (world fr) (world (snd (forResizers env newQ newSize rs pv fr)))
  ∧ (loopVars (snd (forResizers env newQ newSize rs pv fr)) = loopVars fr
     ∨ ∃ r, r ∈ rs
            ∧ loopVars (snd (forResizers env newQ newSize rs pv fr)) = loopVars fr ++ [r]
            ∧ (fst (forResizers env newQ newSize rs pv fr) = Next → last rs = Some r)).
Proof.
  unfold forResizers. destruct rs as [|r0 rs0] eqn:Hrs.
  { split; [apply adds_refl | by left]. }
  rewrite <- Hrs.
  assert (H0 : r0 ∈ rs) by (rewrite Hrs; by left).
  destruct (resizersLoop_adds (length (loopVars fr)) rs (λ _ H, H) pv (declareVar r0 fr))
    as (Ha & Hn & Hs).
  pairs. split; [exact Ha |]. right.
  assert (Hi : ∀ r, <[length (loopVars fr) := r]> (loopVars fr ++ [r0]) = loopVars fr ++ [r]).
  { intros r. rewrite insert_app_r_alt by lia. by rewrite Nat.sub_diag. }
  destruct (fst (resizersLoop env newQ newSize (length (loopVars fr)) rs pv
                   (declareVar r0 fr))) eqn:Hf.
  - specialize (Hn eq_refl). rewrite Hrs in Hn at 2.
    destruct (last (r0 :: rs0)) as [l|] eqn:Hl; [|by rewrite last_cons in Hl; destruct (last rs0)].
    exists l. split; [|split].
    + rewrite Hrs. apply last_Some_elem_of in Hl. exact Hl.
    + by rewrite Hn, Hi.
    + intros _. by rewrite Hrs.
  - destruct Hs as [Hs | (r & Hr & Hs)].
    + exists r0. split; [done |]. split; [done | intros H; discriminate H].
    + exists r. split; [done |]. split; [by rewrite Hs, Hi | intros H; discriminate H].
Qed.

Lemma resizeOne_adds (pv : PersistentVolume) (fr : Frame) :
  adds (loopCall rs) (world fr) (world (snd (resizeOne env newQ newSize rs pv fr)))
  ∧ (loopVars (snd (resizeOne env newQ newSize rs pv fr)) = loopVars fr
     ∨ ∃ r, r ∈ rs
            ∧ loopVars (snd (resizeOne env newQ newSize rs pv fr)) = loopVars fr ++ [r]
            ∧ (fst (resizeOne env newQ newSize rs pv fr) = Next → last rs = Some r)).
Proof.
  unfold resizeOne.
  destruct (newSize <? quantityToGigabyte (storageOf pv));
    [split; [apply adds_refl | by left] |].
  destruct (quantityToGigabyte (storageOf pv) =? newSize);
    [split; [apply adds_refl | by left] |].
  apply forResizers_adds.
Qed.

Lemma volumesLoop_adds (pvs : list PersistentVolume) :
  ∀ fr,
    adds (loopCall rs) (world fr) (world (snd (volumesLoop env newQ newSize rs pvs fr)))
    ∧ (Forall (λ r, r ∈ rs) (loopVars fr) →
       Forall (λ r, r ∈ rs) (loopVars (snd (volumesLoop env newQ newSize rs pvs fr))))
    ∧ (fst (volumesLoop env newQ newSize rs pvs fr) = Next →
       Forall (λ r, last rs = Some r) (loopVars fr) →
       Forall (λ r, last rs = Some r)
         (loopVars (snd (volumesLoop env newQ newSize rs pvs fr)))).
Proof.
  induction pvs as [|pv pvs IH]; intros fr.
  { simpl. split; [apply adds_refl | done]. }
  cbn [volumesLoop].
  destruct (resizeOne_adds pv fr) as [Ha Hv].
  destruct (resizeOne env newQ newSize rs pv fr) as [[|o] fr1]; pairs.
  - destruct (IH fr1) as (Ha' & Hin & Hlast).
    split; [by eapply adds_trans |]. split.
    + intros Hall. apply Hin.
      destruct Hv as [-> | (r & Hr & -> & _)]; [done |].
      apply Forall_app. split; [done | by constructor].
    + intros HN Hall. apply (Hlast HN).
      destruct Hv as [-> | (r & Hr & -> & Hl)]; [done |].
      apply Forall_app. split; [done |]. constructor; [by apply Hl | done].
  - split; [done |]. split; [|intros H; discriminate H].
    intros Hall. destruct Hv as [-> | (r & Hr & -> & _)]; [done |].
    apply Forall_app. split; [done | by constructor].
Qed.

(** The deferred functions add releases only, each of a backend held by a
    loop variable. *)
Lemma runDeferred_adds (vars : list Handle) (ds : list nat) :
  ∀ w, adds (releaseOf vars) w (runDeferred env ds vars w).
Proof.
  induction ds as [|cell ds IH]; intros w; [apply adds_refl |].
  simpl. destruct (vars !! cell) as [r|] eqn:Hc; [|apply IH].
  eapply adds_trans; [|apply IH].
  apply list_elem_of_lookup_2 in Hc.
  unfold disconnect.
  destruct (DisconnectFromProvider (resizerOf env r) (trace w)); simpl.
  - apply adds_log. by exists r, false.
  - eexists [_]. split; [done |]. constructor; [|done]. by exists r, true.
Qed.

End Added.

(** The calls of one call of [resizeVolumes]: first those of the listing
    and of the loops, none of them a release and each on a backend of the
    list, then the releases, each of a backend a loop variable holds at
    the end. *)
Lemma resizeVolumes_calls (env : Env) (newVolume : Volume) (resizers : list Handle)
    (w : World) :
  ∃ evs rel vars,
    trace (snd (resizeVolumes env newVolume resizers w)) = trace w ++ evs ++ rel
    ∧ Forall (loopCall resizers) evs
    ∧ Forall (releaseOf vars) rel
    ∧ Forall (λ r, r ∈ resizers) vars
    ∧ (fst (resizeVolumes env newVolume resizers w) = Returned None →
       Forall (λ r, last resizers = Some r) vars).
Proof.
  assert (Htriv : ∀ o w', adds (loopCall resizers) w w' →
    ∃ evs rel vars,
      trace (snd (o, w')) = trace w ++ evs ++ rel
      ∧ Forall (loopCall resizers) evs
      ∧ Forall (releaseOf vars) rel
      ∧ Forall (λ r, r ∈ resizers) vars
      ∧ (fst (o, w') = Returned None → Forall (λ r, last resizers = Some r) vars)).
  { intros o w' (evs & Ht & Hf). exists evs, [], []. simpl. rewrite app_nil_r.
    split; [done |]. split; [done |]. by repeat split. }
  unfold resizeVolumes.
  destruct (ParseQuantity env (Size newVolume)) as [e|newQ];
    [apply Htriv, adds_refl |].
  assert (Hlist : adds (loopCall resizers) w
                    (snd (listVolumesWithManifestSize env newVolume w))).
  { destruct (Asking.listVolumesWithManifestSize_reads env newVolume w)
      as (_ & evs & Ht & Hf).
    exists evs. split; [done |]. eapply Forall_impl; [exact Hf |].
    intros [] He; try discriminate He; by split. }
  destruct (listVolumesWithManifestSize env newVolume w) as [[e|[pvs newSize]] w1];
    [by apply Htriv |].
  cbn [snd] in Hlist.
  destruct (volumesLoop_adds env newQ newSize resizers pvs (enter w1))
    as (Ha & Hin & Hlast).
  pose proof (Runs.volumesLoop_spec env newQ newSize resizers pvs (enter w1))
    as (_ & _ & Hne).
  cbn [enter world loopVars] in Ha, Hin, Hlast.
  specialize (Hin (Forall_nil_2 _)).
  destruct (volumesLoop env newQ newSize resizers pvs (enter w1)) as [[|o] fr];
    cbn [fst snd] in *.
  - specialize (Hlast eq_refl (Forall_nil_2 _)).
    destruct (adds_trans _ _ _ _ Hlist Ha) as (evs & Ht & Hf).
    destruct (runDeferred_adds env (loopVars fr) (deferred fr) (world fr))
      as (rel & Ht' & Hf').
    exists evs, rel, (loopVars fr). unfold leave.
    split; [by rewrite Ht', Ht, app_assoc |]. by repeat split.
  - destruct (adds_trans _ _ _ _ Hlist Ha) as (evs & Ht & Hf).
    destruct (runDeferred_adds env (loopVars fr) (deferred fr) (world fr))
      as (rel & Ht' & Hf').
    exists evs, rel, (loopVars fr). unfold leave.
    split; [by rewrite Ht', Ht, app_assoc |].
    split; [done |]. split; [done |]. split; [done |].
    intros ->. by destruct Hne.
Qed.

End Added.

(** X11.  A call of [resizeVolumes] calls no backend outside the list it
    is given: every call it adds to a backend, the releases of the
    deferred functions included, is to a member of [resizers]. *)
Theorem only_listed_backends_are_called (env : Env) (newVolume : Volume)
    (resizers : list Handle) (w : World) :
  ∃ evs,
    trace (snd (resizeVolumes env newVolume resizers w)) = trace w ++ evs
    ∧ ∀ e r, e ∈ evs → backendOf e = Some r → r ∈ resizers.
Proof.
  destruct (Added.resizeVolumes_calls env newVolume resizers w)
    as (evs & rel & vars & Ht & Hf & Hr & Hv & _).
  exists (evs ++ rel). split; [done |].
  intros e r He Hb. apply elem_of_app in He as [He | He].
  - rewrite Forall_forall in Hf. destruct (Hf e He) as [Hw _].
    unfold within in Hw. by rewrite Hb in Hw.
  - rewrite Forall_forall in Hr. destruct (Hr e He) as (r' & ok & -> & Hr').
    simpl in Hb. injection Hb as <-.
    rewrite Forall_forall in Hv. by apply Hv.
Qed.

(** X12.  When [resizeVolumes] returns nil, every release it made went to
    the last backend of the list, whichever backends it had connected:
    the deferred function literals read the loop variable when the
    function returns. *)
Theorem releases_reach_the_last_backend (env : Env) (newVolume : Volume)
    (resizers : list Handle) (w : World) :
  fst (resizeVolumes env newVolume resizers w) = Returned None →
  ∃ evs,
    trace (snd (resizeVolumes env newVolume resizers w)) = trace w ++ evs
    ∧ ∀ r ok, EvDisconnect r ok ∈ evs → last resizers = Some r.
Proof.
  intros Hnil.
  destruct (Added.resizeVolumes_calls env newVolume resizers w)
    as (evs & rel & vars & Ht & Hf & Hr & _ & Hl).
  specialize (Hl Hnil).
  exists (evs ++ rel). split; [done |].
  intros r ok He. apply elem_of_app in He as [He | He].
  - rewrite Forall_forall in Hf. destruct (Hf _ He) as [_ Hd]. discriminate Hd.
  - rewrite Forall_forall in Hr. destruct (Hr _ He) as (r' & ok' & Heq & Hr').
    injection Heq as <- <-. rewrite Forall_forall in Hl. by apply Hl.
Qed.

Lemma releases_reach_the_last_backend_witness :
  let w := Fixtures.cluster Batches.oneClaim Batches.oneVolume 1 in
  ∃ evs,
    trace (snd (resizeVolumes (Fixtures.calm Batches.firstOwns) {| Size := "20Gi" |}
                  [0%nat; 1%nat] w)) = trace w ++ evs
    ∧ ∀ r ok, EvDisconnect r ok ∈ evs → last [0%nat; 1%nat] = Some r.
Proof.
  intros w. apply releases_reach_the_last_backend. vm_compute. reflexivity.
Defined.

(** X13.  With a single backend in the list, the connection calls of a
    call of [resizeVolumes] are none, or one failed attempt to connect the
    backend, or one connection of it followed by one release of it; the
    backend is only connected when it was not connected before. *)
Theorem single_backend_is_released (env : Env) (newVolume : Volume) (r : Handle)
    (w : World) :
  ∃ calls,
    connectionCalls (trace (snd (resizeVolumes env newVolume [r] w)))
      = connectionCalls (trace w) ++ calls
    ∧ (calls = []
       ∨ ((r ∉ connected w)
          ∧ (calls = [EvConnect r false]
             ∨ ∃ ok, calls = [EvConnect r true; EvDisconnect r ok]))).
Proof.
  destruct (calls_balance env newVolume [r] w)
    as (opened & failed & released & Hc & Hnd & Hnc & Hlf & Hrel & Hlen).
  destruct (Added.resizeVolumes_calls env newVolume [r] w)
    as (evs & rel & vars & Ht & Hf & Hr & Hv & _).
  exists (((λ r, EvConnect r true) <$> opened) ++ ((λ r, EvConnect r false) <$> failed)
            ++ released).
  split; [exact Hc |].
  assert (Hin : ∀ e, e ∈ ((λ r, EvConnect r true) <$> opened)
                        ++ ((λ r, EvConnect r false) <$> failed) ++ released →
                     backendOf e = Some r).
  { rewrite Ht, Connections.connectionCalls_app in Hc.
    apply app_inv_head in Hc. rewrite <- Hc.
    intros e He. unfold connectionCalls in He.
    apply list_elem_of_filter in He as [Hconn He].
    apply elem_of_app in He as [He | He].
    - rewrite Forall_forall in Hf. destruct (Hf e He) as [Hw _].
      unfold within in Hw. destruct e; try discriminate Hconn;
        simpl in *; apply list_elem_of_singleton in Hw; by subst.
    - rewrite Forall_forall in Hr. destruct (Hr e He) as (r' & ok & -> & Hr').
      rewrite Forall_forall in Hv. specialize (Hv r' Hr').
      apply list_elem_of_singleton in Hv. by subst. }
  destruct opened as [|o1 [|o2 opened]], failed as [|f1 [|f2 failed]];
    simpl in *; try lia.
  - left. by destruct released.
  - right. destruct released; [|done].
    assert (f1 = r) as ->.
    { specialize (Hin (EvConnect f1 false) ltac:(by left)). by injection Hin. }
    split; [apply Hnc; by left | by left].
  - right. destruct released as [|e [|e' released]]; try done.
    assert (o1 = r) as ->.
    { specialize (Hin (EvConnect o1 true) ltac:(by left)). by injection Hin. }
    split; [apply Hnc; by left |]. right.
    inversion Hrel as [|? ? Hd _]; subst.
    destruct e; try discriminate Hd.
    specialize (Hin (EvDisconnect r0 ok) ltac:(right; by left)).
    injection Hin as ->. by exists ok.
  - exfalso.
    assert (o1 = r) as ->.
    { specialize (Hin (EvConnect o1 true) ltac:(by left)). by injection Hin. }
    assert (f1 = r) as ->.
    { specialize (Hin (EvConnect f1 false) ltac:(right; by left)). by injection Hin. }
    apply NoDup_cons in Hnd as [Hnd _]. apply Hnd. by left.
  - exfalso.
    assert (o1 = r) as ->.
    { specialize (Hin (EvConnect o1 true) ltac:(by left)). by injection Hin. }
    assert (o2 = r) as ->.
    { specialize (Hin (EvConnect o2 true) ltac:(right; by left)). by injection Hin. }
    apply NoDup_cons in Hnd as [Hnd _]. apply Hnd. by left.
  - exfalso.
    assert (o1 = r) as ->.
    { specialize (Hin (EvConnect o1 true) ltac:(by left)). by injection Hin. }
    assert (o2 = r) as ->.
    { specialize (Hin (EvConnect o2 true) ltac:(right; by left)). by injection Hin. }
    apply NoDup_cons in Hnd as [Hnd _]. apply Hnd. by left.
Qed.

(** ** The order of the calls that grow a volume *)

Module Order.

Section Order.

Variable env : Env.

Lemma adds_ordered (w w' : World) :
  adds (λ e, isUpdate e = false) w w' → ordered env w w'.
Proof.
  intros (evs & Ht & Hf). exists evs. split; [done |].
  intros pre n q ok post ->.
  apply Forall_app in Hf as [_ Hf]. inversion Hf as [|? ? Hu _]. discriminate Hu.
Qed.

Lemma ordered_refl (w : World) : ordered env w w.
Proof. apply adds_ordered, Added.adds_refl. Qed.

Lemma ordered_log (e : Event) (w : World) :
  isUpdate e = false → ordered env w (log e w).
Proof. intros He. by apply adds_ordered, Added.adds_log. Qed.

Lemma ordered_same (w0 w w' : World) :
  trace w' = trace w → ordered env w0 w → ordered env w0 w'.
Proof. intros Ht (evs & He & Ho). exists evs. by rewrite Ht. Qed.

Lemma ordered_trans (w1 w2 w3 : World) :
  ordered env w1 w2 → ordered env w2 w3 → ordered env w1 w3.
Proof.
  intros (e1 & H1 & O1) (e2 & H2 & O2). exists (e1 ++ e2).
  split; [by rewrite H2, H1, app_assoc |].
  intros pre n q ok post Heq.
  apply app_eq_inv in Heq as [(k & Hk1 & Hk2) | (k & Hk1 & Hk2)].
  - destruct k as [|x k].
    + rewrite app_nil_r in Hk1. subst e1. simpl in Hk2.
      specialize (O2 [] n q ok post (eq_sym Hk2)).
      by rewrite app_nil_r, H1 in O2.
    + simpl in Hk2. injection Hk2 as <- ->.
      by apply (O1 pre n q ok k).
  - subst pre. specialize (O2 k n q ok post Hk2).
    by rewrite H1, <- app_assoc in O2.
Qed.

Variable newQ : Quantity.
Variable newSize : Z.

Lemma ensureConnected_ordered (cell : nat) (r : Handle) (fr : Frame) :
  ordered env (world fr) (world (snd (ensureConnected env cell r fr))).
Proof.
  unfold ensureConnected, isConnected.
  case_bool_decide; pairs; [by apply ordered_log |].
  unfold connect.
  destruct (ConnectToProvider (resizerOf env r) _) as [e|]; pairs.
  - eapply ordered_trans; [by apply (ordered_log (EvIsConnected r)) |].
    by apply ordered_log.
  - eapply ordered_trans; [by apply (ordered_log (EvIsConnected r)) |].
    eapply ordered_same; [|by apply (ordered_log (EvConnect r true))]. done.
Qed.

Lemma growVolume_ordered (r : Handle) (pv : PersistentVolume) (fr : Frame) :
  ordered env (world fr) (world (snd (growVolume env newQ newSize r pv fr))).
Proof.
  unfold growVolume, getProviderVolumeID, resizeVolume, resizeFilesystem.
  assert (H1 : ordered env (world fr)
                 (log (EvGetProviderVolumeID r (pvName pv)) (world fr)))
    by (by apply ordered_log).
  destruct (GetProviderVolumeID (resizerOf env r) (trace (world fr)) pv) as [e|id] eqn:Hid;
    [done |].
  assert (H2 : ordered env (world fr)
    (log (EvResizeVolume r id newSize)
       (log (EvGetProviderVolumeID r (pvName pv)) (world fr))))
    by (eapply ordered_trans; [exact H1 | by apply ordered_log]).
  destruct (ResizeVolume (resizerOf env r) _ id newSize) as [e|] eqn:Hrv; [done |].
  destruct (getPodNameFromPersistentVolume pv) as [pod|]; [|done].
  assert (H3 : ordered env (world fr)
    (log (EvResizeFilesystem pod)
       (log (EvResizeVolume r id newSize)
          (log (EvGetProviderVolumeID r (pvName pv)) (world fr)))))
    by (eapply ordered_trans; [exact H2 | by apply ordered_log]).
  destruct (resizePostgresFilesystem env _ pod) as [e|] eqn:Hfs; [done |].
  assert (Hends : endsWithResize env
    (trace (log (EvResizeFilesystem pod)
       (log (EvResizeVolume r id newSize)
          (log (EvGetProviderVolumeID r (pvName pv)) (world fr)))))
    (pvName pv)).
  { exists (trace (world fr)), r, pv, id, newSize, pod. simpl in *.
    rewrite <- !app_assoc in *. simpl in *. by repeat split. }
  assert (Hstep : ∀ ok w4,
    trace w4 = trace (log (EvResizeFilesystem pod)
       (log (EvResizeVolume r id newSize)
          (log (EvGetProviderVolumeID r (pvName pv)) (world fr))))
       ++ [EvUpdateVolume (pvName pv) newQ ok] →
    ordered env (world fr) w4).
  { intros ok w4 Ht. eapply ordered_trans; [exact H3 |].
    exists [EvUpdateVolume (pvName pv) newQ ok]. split; [done |].
    intros pre n q ok' post Heq.
    destruct pre as [|x pre].
    - injection Heq as <- _ _ _. by rewrite app_nil_r.
    - injection Heq as _ Heq. by destruct pre. }
  unfold updatePersistentVolume.
  assert (Hst : storageOf (setStorage newQ pv) = newQ).
  { unfold storageOf, setStorage. simpl. by rewrite lookup_insert_eq. }
  destruct (updateVolumeFails env _ (setStorage newQ pv)) as [e|]; pairs;
    eapply Hstep; simpl; rewrite ?Hst; reflexivity.
Qed.

Lemma resizeWith_ordered (cell : nat) (r : Handle) (pv : PersistentVolume) (fr : Frame) :
  ordered env (world fr) (world (snd (resizeWith env newQ newSize cell r pv fr))).
Proof.
  unfold resizeWith, belongs.
  destruct (VolumeBelongsToProvider (resizerOf env r) pv); pairs;
    [|by apply ordered_log].
  set (fr0 := countCompatible (withWorld (log (EvBelongs r (pvName pv)) (world fr)) fr)).
  assert (H0 : ordered env (world fr) (world fr0)) by (by apply ordered_log).
  pose proof (ensureConnected_ordered cell r fr0) as He.
  destruct (ensureConnected env cell r fr0) as [[|o] fr1]; pairs.
  - pose proof (growVolume_ordered r pv fr1) as Hg.
    destruct (growVolume env newQ newSize r pv fr1) as [[flow pv'] fr2]; pairs.
    eapply ordered_trans; [|exact Hg]. by eapply ordered_trans.
  - by eapply ordered_trans.
Qed.

Lemma resizersLoop_ordered (cell : nat) (rs : list Handle) :
  ∀ pv fr,
    ordered env (world fr) (world (snd (resizersLoop env newQ newSize cell rs pv fr))).
Proof.
  induction rs as [|r rs IH]; intros pv fr; [apply ordered_refl |].
  cbn [resizersLoop].
  pose proof (resizeWith_ordered cell r pv (assignVar cell r fr)) as Hw.
  destruct (resizeWith env newQ newSize cell r pv (assignVar cell r fr))
    as [[[|o] pv'] fr1]; pairs; [|done].
  eapply ordered_trans; [exact Hw | apply IH].
Qed.

Lemma resizeOne_ordered (rs : list Handle) (pv : PersistentVolume) (fr : Frame) :
  ordered env (world fr) (world (snd (resizeOne env newQ newSize rs pv fr))).
Proof.
  unfold resizeOne.
  destruct (newSize <? quantityToGigabyte (storageOf pv)); [apply ordered_refl |].
  destruct (quantityToGigabyte (storageOf pv) =? newSize); [apply ordered_refl |].
  unfold forResizers. destruct rs as [|r0 rs0]; [apply ordered_refl |].
  apply (resizersLoop_ordered _ (r0 :: rs0) pv (declareVar r0 fr)).
Qed.

Lemma volumesLoop_ordered (rs : list Handle) (pvs : list PersistentVolume) :
  ∀ fr, ordered env (world fr) (world (snd (volumesLoop env newQ newSize rs pvs fr))).
Proof.
  induction pvs as [|pv pvs IH]; intros fr; [apply ordered_refl |].
  cbn [volumesLoop].
  pose proof (resizeOne_ordered rs pv fr) as Ho.
  destruct (resizeOne env newQ newSize rs pv fr) as [[|o] fr1]; pairs; [|done].
  eapply ordered_trans; [exact Ho | apply IH].
Qed.

End Order.

Lemma resizeVolumes_ordered (env : Env) (newVolume : Volume) (resizers : list Handle)
    (w : World) :
  ordered env w (snd (resizeVolumes env newVolume resizers w)).
Proof.
  unfold resizeVolumes.
  destruct (ParseQuantity env (Size newVolume)) as [e|newQ]; [apply ordered_refl |].
  assert (Hlist : ordered env w (snd (listVolumesWithManifestSize env newVolume w))).
  { destruct (Asking.listVolumesWithManifestSize_reads env newVolume w)
      as (_ & evs & Ht & Hf).
    apply adds_ordered. exists evs. split; [done |].
    eapply Forall_impl; [exact Hf |]. by intros []. }
  destruct (listVolumesWithManifestSize env newVolume w) as [[e|[pvs newSize]] w1];
    [done |].
  cbn [snd] in Hlist.
  pose proof (volumesLoop_ordered env newQ newSize resizers pvs (enter w1)) as Hv.
  cbn [enter world] in Hv.
  assert (Hleave : ∀ fr, ordered env (world fr) (leave env fr)).
  { intros fr. apply adds_ordered. unfold leave.
    eapply Added.adds_impl; [|apply Added.runDeferred_adds].
    by intros e (r & ok & -> & _). }
  destruct (volumesLoop env newQ newSize resizers pvs (enter w1)) as [[|o] fr];
    cbn [fst snd] in *;
    (eapply ordered_trans; [|apply Hleave]); by eapply ordered_trans.
Qed.

End Order.

(** X14.  A call of [resizeVolumes] sends an update of a volume record to
    the store only directly after the three calls that grow that volume:
    the lookup of its provider id, the resize of the block device on the
    same backend and the resize of the filesystem, each answered without
    an error. *)
Theorem record_is_updated_after_the_resize (env : Env) (newVolume : Volume)
    (resizers : list Handle) (w : World) (pre post : list Event)
    (n : string) (q : Quantity) (ok : bool) :
  trace (snd (resizeVolumes env newVolume resizers w))
    = trace w ++ pre ++ EvUpdateVolume n q ok :: post →
  endsWithResize env (trace w ++ pre) n.
Proof.
  intros Ht.
  destruct (Order.resizeVolumes_ordered env newVolume resizers w) as (evs & He & Ho).
  rewrite He in Ht. apply app_inv_head in Ht. by apply (Ho pre n q ok post).
Qed.

Lemma record_is_updated_after_the_resize_witness :
  let env := Fixtures.calm Batches.firstOwns in
  let w := Fixtures.cluster Batches.oneClaim Batches.oneVolume 1 in
  endsWithResize env
    (trace w ++ [EvListClaims; EvGetVolume "pv-0"; EvBelongs 0%nat "pv-0";
                 EvIsConnected 0%nat; EvConnect 0%nat true;
                 EvGetProviderVolumeID 0%nat "pv-0";
                 EvResizeVolume 0%nat "vol-pv-0" 20;
                 EvResizeFilesystem {| Namespace := "default"; Name := "db-0" |}])
    "pv-0".
Proof.
  intros env w.
  apply (record_is_updated_after_the_resize env {| Size := "20Gi" |} [0%nat] w _
           [EvDisconnect 0%nat true] "pv-0" (20 * Gigabyte) true).
  vm_compute. reflexivity.
Defined.

(** X15.  When a call of [resizeVolumes] returns nil, no listed volume was
    above the target, and every listed volume below the target that some
    backend of the list claims is recorded in the store with the parsed
    manifest quantity as its capacity. *)
Theorem nil_means_owned_volumes_are_grown (env : Env) (newVolume : Volume)
    (resizers : list Handle) (w w1 w' : World) (pvs : list PersistentVolume)
    (newSize : Z) (newQuantity : Quantity) :
  ParseQuantity env (Size newVolume) = inr newQuantity →
  listVolumesWithManifestSize env newVolume w = (inr (pvs, newSize), w1) →
  resizeVolumes env newVolume resizers w = (Returned None, w') →
  ∀ pv, pv ∈ pvs →
    quantityToGigabyte (storageOf pv) ≤ newSize
    ∧ (quantityToGigabyte (storageOf pv) < newSize →
       hasOwner env resizers pv = true →
       ∃ s', volumes w' !! pvName pv = Some s' ∧ capacityOf s' = newQuantity).
Proof.
  intros Hq Hl Hrun pv Hin.
  rewrite (Loops.resizeVolumes_unfold _ _ _ _ _ _ _ _ Hq Hl) in Hrun.
  destruct (Runs.volumesLoop_spec env newQuantity newSize resizers pvs (enter w1))
    as (_ & _ & Hne).
  destruct (volumesLoop env newQuantity newSize resizers pvs (enter w1))
    as [[|o] fr] eqn:Hloop.
  2: { inversion Hrun; subst. done. }
  inversion Hrun as [[Hafter Hw']]. subst w'.
  apply Runs.volumesLoop_done in Hloop as (Hall & Hat & _).
  rewrite Forall_forall in Hall. split; [by apply Hall |].
  intros Hlt Hown.
  eapply Evolution.evolves_atTarget;
    [apply (Runs.leave_evolves env newQuantity (λ _, True)) |].
  by apply Hat.
Qed.

Lemma nil_means_owned_volumes_are_grown_witness :
  let env := Fixtures.calm Batches.allOwn in
  let w := Fixtures.cluster Batches.oneClaim Batches.oneVolume 1 in
  let pv := {| pvName := "pv-0";
               pvSpec := Fixtures.volumeSpec (10 * Gigabyte) "pgdata-db-0" |} in
  ∃ s', volumes (snd (resizeVolumes env {| Size := "20Gi" |} [0%nat] w)) !! "pv-0"
        = Some s' ∧ capacityOf s' = 20 * Gigabyte.
Proof.
  intros env w pv.
  refine (proj2
    (nil_means_owned_volumes_are_grown env {| Size := "20Gi" |} [0%nat] w
       (snd (listVolumesWithManifestSize env {| Size := "20Gi" |} w))
       (snd (resizeVolumes env {| Size := "20Gi" |} [0%nat] w))
       [pv] 20 (20 * Gigabyte) _ _ _ pv _) _ _).
  - reflexivity.
  - vm_compute. reflexivity.
  - vm_compute. reflexivity.
  - by left.
  - vm_compute. reflexivity.
  - reflexivity.
Defined.

(** ** Calls that fail *)

Module Stops.

Section Stops.

Variable env : Env.
Variable newQ : Quantity.
Variable newSize : Z.

Lemma stops_after (w0 w1 w2 : World) (flow : Flow) :
  adds (λ e, isFailure e = false) w0 w1 → stops w1 flow w2 → stops w0 flow w2.
Proof.
  intros Ha [Hb | (evs & f & o & Hfl & Ht & Hf & Hfail & Hrep)].
  - left. by eapply Added.adds_trans.
  - right. destruct Ha as (evs0 & Ht0 & Hf0).
    exists (evs0 ++ evs), f, o. split; [done |].
    split; [by rewrite Ht, Ht0, <- !app_assoc |].
    split; [by apply Forall_app | done].
Qed.

Lemma stops_next (w0 w : World) :
  stops w0 Next w → adds (λ e, isFailure e = false) w0 w.
Proof. intros [H | (evs & f & o & Hfl & _)]; [done | discriminate Hfl]. Qed.

Lemma ensureConnected_stops (cell : nat) (r : Handle) (fr : Frame) :
  stops (world fr) (fst (ensureConnected env cell r fr))
    (world (snd (ensureConnected env cell r fr))).
Proof.
  unfold ensureConnected, isConnected.
  case_bool_decide; pairs; [left; by apply Added.adds_log |].
  unfold connect.
  destruct (ConnectToProvider (resizerOf env r) _) as [e|]; pairs.
  - right. exists [EvIsConnected r], (EvConnect r false), (Returned (Some (CouldNotConnect e))).
    split; [done |]. split; [simpl; by rewrite <- app_assoc |].
    split; [by repeat constructor |]. split; [done |]. by exists e.
  - left. eapply Added.adds_trans; [by apply (Added.adds_log _ (EvIsConnected r)) |].
    exists [EvConnect r true]. split; [done | by constructor].
Qed.

Lemma growVolume_stops (r : Handle) (pv : PersistentVolume) (fr : Frame) :
  stops (world fr) (fst (fst (growVolume env newQ newSize r pv fr)))
    (world (snd (growVolume env newQ newSize r pv fr))).
Proof.
  unfold growVolume, getProviderVolumeID, resizeVolume, resizeFilesystem.
  assert (H1 : adds (λ e, isFailure e = false) (world fr)
                 (log (EvGetProviderVolumeID r (pvName pv)) (world fr)))
    by (by apply Added.adds_log).
  destruct (GetProviderVolumeID (resizerOf env r) (trace (world fr)) pv) as [e|id];
    [by left |].
  assert (H2 : adds (λ e, isFailure e = false) (world fr)
    (log (EvResizeVolume r id newSize)
       (log (EvGetProviderVolumeID r (pvName pv)) (world fr))))
    by (eapply Added.adds_trans; [exact H1 | by apply Added.adds_log]).
  destruct (ResizeVolume (resizerOf env r) _ id newSize) as [e|]; [by left |].
  destruct (getPodNameFromPersistentVolume pv) as [pod|]; [|by left].
  assert (H3 : adds (λ e, isFailure e = false) (world fr)
    (log (EvResizeFilesystem pod)
       (log (EvResizeVolume r id newSize)
          (log (EvGetProviderVolumeID r (pvName pv)) (world fr)))))
    by (eapply Added.adds_trans; [exact H2 | by apply Added.adds_log]).
  destruct (resizePostgresFilesystem env _ pod) as [e|]; [by left |].
  unfold updatePersistentVolume.
  destruct (updateVolumeFails env _ (setStorage newQ pv)) as [e|]; pairs.
  - eapply stops_after; [exact H3 |]. right.
    eexists [], _, _. split; [reflexivity |]. split; [reflexivity |].
    split; [constructor |]. split; [done |]. by exists e.
  - left. eapply Added.adds_trans; [exact H3 |].
    eexists [_]. split; [done | by constructor].
Qed.

Lemma resizeWith_stops (cell : nat) (r : Handle) (pv : PersistentVolume) (fr : Frame) :
  stops (world fr) (fst (fst (resizeWith env newQ newSize cell r pv fr)))
    (world (snd (resizeWith env newQ newSize cell r pv fr))).
Proof.
  unfold resizeWith, belongs.
  destruct (VolumeBelongsToProvider (resizerOf env r) pv); pairs;
    [|left; by apply Added.adds_log].
  set (fr0 := countCompatible (withWorld (log (EvBelongs r (pvName pv)) (world fr)) fr)).
  assert (H0 : adds (λ e, isFailure e = false) (world fr) (world fr0))
    by (by apply Added.adds_log).
  pose proof (ensureConnected_stops cell r fr0) as He.
  destruct (ensureConnected env cell r fr0) as [[|o] fr1]; pairs.
  - apply stops_next in He.
    pose proof (growVolume_stops r pv fr1) as Hg.
    destruct (growVolume env newQ newSize r pv fr1) as [[flow pv'] fr2]; pairs.
    eapply stops_after; [|exact Hg]. by eapply Added.adds_trans.
  - by eapply stops_after.
Qed.

Lemma resizersLoop_stops (cell : nat) (rs : list Handle) :
  ∀ pv fr,
    stops (world fr) (fst (resizersLoop env newQ newSize cell rs pv fr))
      (world (snd (resizersLoop env newQ newSize cell rs pv fr))).
Proof.
  induction rs as [|r rs IH]; intros pv fr; [left; apply Added.adds_refl |].
  cbn [resizersLoop].
  pose proof (resizeWith_stops cell r pv (assignVar cell r fr)) as Hw.
  destruct (resizeWith env newQ newSize cell r pv (assignVar cell r fr))
    as [[[|o] pv'] fr1]; pairs; [|done].
  apply stops_next in Hw. eapply stops_after; [exact Hw | apply IH].
Qed.

Lemma resizeOne_stops (rs : list Handle) (pv : PersistentVolume) (fr : Frame) :
  stops (world fr) (fst (resizeOne env newQ newSize rs pv fr))
    (world (snd (resizeOne env newQ newSize rs pv fr))).
Proof.
  unfold resizeOne.
  destruct (newSize <? quantityToGigabyte (storageOf pv));
    [left; apply Added.adds_refl |].
  destruct (quantityToGigabyte (storageOf pv) =? newSize);
    [left; apply Added.adds_refl |].
  unfold forResizers. destruct rs as [|r0 rs0]; [left; apply Added.adds_refl |].
  apply (resizersLoop_stops _ (r0 :: rs0) pv (declareVar r0 fr)).
Qed.

Lemma volumesLoop_stops (rs : list Handle) (pvs : list PersistentVolume) :
  ∀ fr,
    stops (world fr) (fst (volumesLoop env newQ newSize rs pvs fr))
      (world (snd (volumesLoop env newQ newSize rs pvs fr))).
Proof.
  induction pvs as [|pv pvs IH]; intros fr; [left; apply Added.adds_refl |].
  cbn [volumesLoop].
  pose proof (resizeOne_stops rs pv fr) as Ho.
  destruct (resizeOne env newQ newSize rs pv fr) as [[|o] fr1]; pairs; [|done].
  apply stops_next in Ho. eapply stops_after; [exact Ho | apply IH].
Qed.

End Stops.

(** The calls of one call of [resizeVolumes] when one of them failed:
    the failure is reported and only releases follow it. *)
Lemma resizeVolumes_stops (env : Env) (newVolume : Volume) (resizers : list Handle)
    (w : World) :
  ∃ evs rel,
    Forall (λ e, isFailure e = false) evs
    ∧ Forall (λ e, isDisconnect e = true) rel
    ∧ (trace (snd (resizeVolumes env newVolume resizers w)) = trace w ++ evs ++ rel
       ∨ ∃ f, trace (snd (resizeVolumes env newVolume resizers w))
                = trace w ++ evs ++ f :: rel
              ∧ isFailure f = true
              ∧ reports (fst (resizeVolumes env newVolume resizers w)) f).
Proof.
  assert (Htriv : ∀ o w', adds (λ e, isFailure e = false) w w' →
    ∃ evs rel,
      Forall (λ e, isFailure e = false) evs
      ∧ Forall (λ e, isDisconnect e = true) rel
      ∧ (trace (snd (o, w')) = trace w ++ evs ++ rel
         ∨ ∃ f, trace (snd (o, w')) = trace w ++ evs ++ f :: rel
                ∧ isFailure f = true ∧ reports (fst (o, w')) f)).
  { intros o w' (evs & Ht & Hf). exists evs, []. rewrite app_nil_r.
    split; [done |]. split; [done | by left]. }
  unfold resizeVolumes.
  destruct (ParseQuantity env (Size newVolume)) as [e|newQ];
    [apply Htriv, Added.adds_refl |].
  assert (Hlist : adds (λ e, isFailure e = false) w
                    (snd (listVolumesWithManifestSize env newVolume w))).
  { destruct (Asking.listVolumesWithManifestSize_reads env newVolume w)
      as (_ & evs & Ht & Hf).
    exists evs. split; [done |]. eapply Forall_impl; [exact Hf |]. by intros []. }
  destruct (listVolumesWithManifestSize env newVolume w) as [[e|[pvs newSize]] w1];
    [by apply Htriv |].
  cbn [snd] in Hlist.
  pose proof (volumesLoop_stops env newQ newSize resizers pvs (enter w1)) as Hv.
  cbn [enter world] in Hv.
  assert (Hleave : ∀ fr, ∃ rel, trace (leave env fr) = trace (world fr) ++ rel
                                ∧ Forall (λ e, isDisconnect e = true) rel).
  { intros fr. unfold leave.
    destruct (Added.runDeferred_adds env (loopVars fr) (deferred fr) (world fr))
      as (rel & Ht & Hf).
    exists rel. split; [done |]. eapply Forall_impl; [exact Hf |].
    by intros e (r & ok & -> & _). }
  destruct (volumesLoop env newQ newSize resizers pvs (enter w1)) as [[|o] fr];
    cbn [fst snd] in *.
  - apply stops_next in Hv.
    destruct (Added.adds_trans _ _ _ _ Hlist Hv) as (evs & Ht & Hf).
    destruct (Hleave fr) as (rel & Ht' & Hf').
    exists evs, rel. split; [done |]. split; [done |]. left.
    by rewrite Ht', Ht, app_assoc.
  - destruct (stops_after _ _ _ _ Hlist Hv)
      as [(evs & Ht & Hf) | (evs & f & o' & Hfl & Ht & Hf & Hfail & Hrep)];
      destruct (Hleave fr) as (rel & Ht' & Hf').
    + exists evs, rel. split; [done |]. split; [done |]. left.
      by rewrite Ht', Ht, app_assoc.
    + injection Hfl as <-.
      exists evs, rel. split; [done |]. split; [done |]. right. exists f.
      split; [|done]. rewrite Ht', Ht, <- !app_assoc. done.
Qed.

End Stops.

(** X16.  A failed attempt to connect a backend and a failed update of a
    volume record each end the call of [resizeVolumes]: the only calls
    made after it are the releases of the deferred functions, and the
    call returns the error built from that failure. *)
Theorem failed_call_ends_the_run (env : Env) (newVolume : Volume)
    (resizers : list Handle) (w : World) (pre post : list Event) (f : Event) :
  trace (snd (resizeVolumes env newVolume resizers w)) = trace w ++ pre ++ f :: post →
  isFailure f = true →
  Forall (λ e, isDisconnect e = true) post
  ∧ reports (fst (resizeVolumes env newVolume resizers w)) f.
Proof.
  intros Ht Hfail.
  assert (Hnot : ∀ l : list Event, f ∈ l → Forall (λ e, isFailure e = false) l → False).
  { intros l Hin Hall. rewrite Forall_forall in Hall.
    specialize (Hall f Hin). congruence. }
  assert (Hrel : ∀ l : list Event, f ∈ l → Forall (λ e, isDisconnect e = true) l → False).
  { intros l Hin Hall. rewrite Forall_forall in Hall.
    specialize (Hall f Hin). by destruct f as [| | | | |? []| | | |]. }
  destruct (Stops.resizeVolumes_stops env newVolume resizers w)
    as (evs & rel & Hf & Hr & [Hc | (f' & Hc & Hfail' & Hrep)]);
    rewrite Hc in Ht; apply app_inv_head in Ht.
  - exfalso.
    assert (Hin : f ∈ evs ++ rel) by (rewrite Ht; apply elem_of_app; right; by left).
    apply elem_of_app in Hin as [Hin | Hin]; [by eapply Hnot | by eapply Hrel].
  - apply app_eq_inv in Ht as [(k & Hk1 & Hk2) | (k & Hk1 & Hk2)].
    + destruct k as [|x k].
      * simpl in Hk2. injection Hk2 as <- <-. done.
      * exfalso. simpl in Hk2. injection Hk2 as <- _.
        apply (Hnot evs); [|done]. rewrite Hk1. apply elem_of_app. right. by left.
    + destruct k as [|x k].
      * simpl in Hk2. injection Hk2 as <- <-. done.
      * exfalso. simpl in Hk2. injection Hk2 as _ Hk2.
        apply (Hrel rel); [|done]. rewrite Hk2. apply elem_of_app. right. by left.
Qed.

Lemma failed_call_ends_the_run_witness :
  let env := Fixtures.calm (λ _, refusing Fixtures.ownsAll) in
  let w := Fixtures.cluster Batches.oneClaim Batches.oneVolume 1 in
  Forall (λ e, isDisconnect e = true) []
  ∧ reports (fst (resizeVolumes env {| Size := "20Gi" |} [0%nat] w))
      (EvConnect 0%nat false).
Proof.
  intros env w.
  apply (failed_call_ends_the_run env {| Size := "20Gi" |} [0%nat] w
           [EvListClaims; EvGetVolume "pv-0"; EvBelongs 0%nat "pv-0";
            EvIsConnected 0%nat]
           [] (EvConnect 0%nat false)).
  - vm_compute. reflexivity.
  - reflexivity.
Defined.

(** ** Releases in the earlier revision *)

Module Before.

Import Connections Discipline.

Lemma holds_transport (opened : list Handle) (fr fr' : Frame) :
  holds opened fr → deferred fr' = deferred fr → loopVars fr' = loopVars fr →
  holds opened fr'.
Proof. unfold holds. by intros H -> ->. Qed.

Lemma carries_on (w0 : World) (opened : list Handle) (flow : Flow) (fr : Frame) :
  opening w0 opened fr → holds opened fr → afterBound w0 flow fr.
Proof.
  intros Hop Hh. destruct flow; simpl; [by exists opened |].
  exists opened, []. by destruct Hop.
Qed.

Section Before.

Variable env : Env.
Variable newQ : Quantity.
Variable newSize : Z.

Lemma connectAndDefer_after (w0 : World) (opened : list Handle) (r : Handle)
    (fr : Frame) :
  opening w0 opened fr → holds opened fr →
  afterBound w0 (fst (Earlier.connectAndDefer env r fr))
    (snd (Earlier.connectAndDefer env r fr)).
Proof.
  intros Hop Hh. unfold Earlier.connectAndDefer, isConnected.
  case_bool_decide as Hr; pairs.
  { exists opened. split; [|done].
    eapply opening_transport; [exact Hop | by apply quiet_log | done | done]. }
  destruct Hop as [(Hce & Hnd & Hnew & Hf & Hlen & Hcells) Hconn].
  rewrite app_nil_r in Hnd, Hnew. rewrite fmap_nil, app_nil_r in Hce.
  assert (Hfresh : (r ∉ opened) ∧ (r ∉ connected w0)).
  { rewrite Hconn in Hr. split; intros Hin; apply Hr, elem_of_union.
    - right. by apply elem_of_list_to_set.
    - by left. }
  destruct Hfresh as [Hro Hrw].
  unfold connect.
  destruct (ConnectToProvider (resizerOf env r) _) as [e|]; pairs.
  - exists opened, [r]. split; [|done]. unfold exiting. pairs.
    rewrite !connectionCalls_log. simpl. rewrite app_nil_r, Hce, <- app_assoc.
    split; [done |]. split.
    { apply NoDup_app. split; [done |]. split; [|apply NoDup_singleton].
      intros x Hx Hx1. apply list_elem_of_singleton in Hx1. by subst. }
    split.
    { intros x [Hx|Hx]%elem_of_app; [by apply Hnew |].
      apply list_elem_of_singleton in Hx. by subst. }
    split; [simpl; lia |]. split; [done | done].
  - exists (opened ++ [r]). unfold Earlier.deferBound. pairs. split; [split |].
    + unfold exiting. pairs.
      rewrite connectionCalls_log, trace_setConnected, connectionCalls_log. simpl.
      rewrite !app_nil_r, Hce, fmap_app, <- app_assoc. simpl.
      split; [done |]. split.
      { apply NoDup_app. split; [done |]. split; [|apply NoDup_singleton].
        intros x Hx Hx1. apply list_elem_of_singleton in Hx1. by subst. }
      split.
      { intros x [Hx|Hx]%elem_of_app; [by apply Hnew |].
        apply list_elem_of_singleton in Hx. by subst. }
      split; [simpl; lia |]. split; [rewrite length_app; simpl; lia |].
      constructor; [rewrite length_app; simpl; lia |].
      eapply Forall_impl; [exact Hcells |]. simpl. intros c Hc.
      rewrite length_app. simpl. lia.
    + simpl. rewrite Hconn, list_to_set_app_L. apply set_eq. intros x.
      rewrite !elem_of_union, !elem_of_list_to_set, elem_of_singleton,
        list_elem_of_singleton.
      tauto.
    + unfold holds. pairs. rewrite reverse_app. simpl. constructor.
      * by rewrite list_lookup_middle.
      * eapply Forall2_impl; [exact Hh |]. simpl. intros c x Hc.
        by apply lookup_app_l_Some.
Qed.

Lemma bodyWith_after (w0 : World) (opened : list Handle) (r : Handle)
    (pv : PersistentVolume) (fr : Frame) :
  opening w0 opened fr → holds opened fr →
  afterBound w0 (fst (fst (Earlier.bodyWith env newQ newSize r pv fr)))
    (snd (Earlier.bodyWith env newQ newSize r pv fr)).
Proof.
  intros Hop Hh. unfold Earlier.bodyWith, belongs.
  destruct (VolumeBelongsToProvider (resizerOf env r) pv); pairs.
  2: { exists opened. split; [|done].
       eapply opening_transport; [exact Hop | by apply quiet_log | done | done]. }
  set (fr0 := countCompatible (withWorld (log (EvBelongs r (pvName pv)) (world fr)) fr)).
  assert (Hop0 : opening w0 opened fr0).
  { eapply opening_transport; [exact Hop | by apply quiet_log | done | done]. }
  assert (Hh0 : holds opened fr0) by done.
  pose proof (connectAndDefer_after w0 opened r fr0 Hop0 Hh0) as Haft.
  destruct (Earlier.connectAndDefer env r fr0) as [[|o] fr1]; pairs; [|done].
  destruct Haft as (opened1 & Hop1 & Hh1).
  destruct (newSize <? quantityToGigabyte (storageOf pv)); pairs;
    [by apply (carries_on w0 opened1) |].
  destruct (negb (quantityToGigabyte (storageOf pv) =? newSize)); pairs;
    [|by exists opened1].
  destruct (growVolume_quiet env newQ newSize r pv fr1) as (Hq & Hd & Hv).
  destruct (growVolume env newQ newSize r pv fr1) as [[flow pv'] fr2]; pairs.
  apply (carries_on w0 opened1).
  - eapply opening_transport; [exact Hop1 | done | done | by rewrite Hv].
  - by eapply holds_transport.
Qed.

Lemma backendsLoop_after (w0 : World) (rs : list Handle) :
  ∀ opened pv fr,
    opening w0 opened fr → holds opened fr →
    afterBound w0 (fst (Earlier.backendsLoop env newQ newSize rs pv fr))
      (snd (Earlier.backendsLoop env newQ newSize rs pv fr)).
Proof.
  induction rs as [|r rs IH]; intros opened pv fr Hop Hh.
  - simpl. by exists opened.
  - cbn [Earlier.backendsLoop].
    pose proof (bodyWith_after w0 opened r pv fr Hop Hh) as Haft.
    destruct (Earlier.bodyWith env newQ newSize r pv fr) as [[[|o] pv'] fr1];
      pairs; [|done].
    destruct Haft as (opened1 & Hop1 & Hh1). by apply (IH opened1).
Qed.

Lemma batchLoop_after (w0 : World) (rs : list Handle) (pvs : list PersistentVolume) :
  ∀ opened fr,
    opening w0 opened fr → holds opened fr →
    afterBound w0 (fst (Earlier.batchLoop env newQ newSize rs pvs fr))
      (snd (Earlier.batchLoop env newQ newSize rs pvs fr)).
Proof.
  induction pvs as [|pv pvs IH]; intros opened fr Hop Hh.
  - simpl. by exists opened.
  - cbn [Earlier.batchLoop].
    pose proof (backendsLoop_after w0 rs opened pv fr Hop Hh) as Haft.
    destruct (Earlier.backendsLoop env newQ newSize rs pv fr) as [[|o] fr1];
      pairs; [|done].
    destruct Haft as (opened1 & Hop1 & Hh1). by apply (IH opened1).
Qed.

(** Each deferred call releases the backend its cell holds. *)
Lemma runDeferred_bound (vars : list Handle) (ds : list nat) :
  ∀ rs w,
    Forall2 (λ cell r, vars !! cell = Some r) ds rs →
    ∃ released,
      connectionCalls (trace (runDeferred env ds vars w)) =
        connectionCalls (trace w) ++ released
      ∧ releasesOf released rs.
Proof.
  induction ds as [|cell ds IH]; intros rs w Hall.
  - inversion Hall; subst. exists []. simpl. rewrite app_nil_r.
    split; [done | constructor].
  - inversion Hall as [|? r ? rs' Hc Hrest]; subst. simpl. rewrite Hc.
    destruct (IH rs' (snd (disconnect env r w)) Hrest) as (released & Hce & Hrel).
    unfold disconnect in *.
    destruct (DisconnectFromProvider (resizerOf env r) (trace w)) as [e|]; simpl in *.
    + exists (EvDisconnect r false :: released).
      rewrite Hce, connectionCalls_app. unfold connectionCalls at 2.
      rewrite filter_cons_True by done. rewrite filter_nil, <- app_assoc.
      split; [done |]. constructor; [by exists false | done].
    + exists (EvDisconnect r true :: released).
      rewrite Hce, connectionCalls_app. unfold connectionCalls at 2.
      rewrite filter_cons_True by done. rewrite filter_nil, <- app_assoc.
      split; [done |]. constructor; [by exists true | done].
Qed.

End Before.

End Before.

(** X17.  In the earlier revision of [resizeVolumes], where the release is
    deferred with its receiver bound, the connection calls of the loops
    over a listed batch are: the backends connected, each once and only
    when it was not connected before, at most one failed attempt after
    them, and then one release of each backend connected, the one
    connected last first. *)
Theorem earlier_releases_what_it_opened (env : Env) (newQuantity : Quantity)
    (newSize : Z) (resizers : list Handle) (pvs : list PersistentVolume) (w : World) :
  ∃ opened failed released,
    connectionCalls
      (trace (snd (Earlier.resizeListed env newQuantity newSize resizers pvs w))) =
      connectionCalls (trace w) ++ ((λ r, EvConnect r true) <$> opened)
                                ++ ((λ r, EvConnect r false) <$> failed)
                                ++ released
    ∧ NoDup (opened ++ failed)
    ∧ (∀ r, r ∈ opened ++ failed → r ∉ connected w)
    ∧ (length failed ≤ 1)%nat
    ∧ releasesOf released (reverse opened).
Proof.
  assert (Hstart : opening w [] (enter w)).
  { split; [|simpl; by rewrite union_empty_r_L]. unfold exiting. simpl. rewrite app_nil_r.
    split; [done |]. split; [constructor |]. split; [|by repeat constructor].
    intros r Hr. by apply not_elem_of_nil in Hr. }
  assert (Hh : holds [] (enter w)) by constructor.
  pose proof (Before.batchLoop_after env newQuantity newSize w resizers pvs []
                (enter w) Hstart Hh) as Haft.
  unfold Earlier.resizeListed.
  assert (Hfin : ∀ opened failed fr,
    exiting w opened failed fr → holds opened fr →
    ∃ opened failed released,
      connectionCalls (trace (leave env fr)) =
        connectionCalls (trace w) ++ ((λ r, EvConnect r true) <$> opened)
                                  ++ ((λ r, EvConnect r false) <$> failed)
                                  ++ released
      ∧ NoDup (opened ++ failed)
      ∧ (∀ r, r ∈ opened ++ failed → r ∉ connected w)
      ∧ (length failed ≤ 1)%nat
      ∧ releasesOf released (reverse opened)).
  { intros opened failed fr (Hce & Hnd & Hnew & Hf & Hlen & Hcells) Hhold.
    destruct (Before.runDeferred_bound env (loopVars fr) (deferred fr)
                (reverse opened) (world fr) Hhold) as (released & Hrel & Hall).
    exists opened, failed, released. unfold leave.
    rewrite Hrel, Hce, <- !app_assoc. done. }
  destruct (Earlier.batchLoop env newQuantity newSize resizers pvs (enter w))
    as [[|o] fr]; cbn [fst snd] in *.
  - destruct Haft as (opened & [Hex _] & Hhold). by apply (Hfin opened []).
  - destruct Haft as (opened & failed & Hex & Hhold). by apply (Hfin opened failed).
Qed.

(** ** Runs in which every collaborator succeeds *)

Module Progress.


Section Progress.

Variable env : Env.
Variable newQ : Quantity.
Variable newSize : Z.
Variable rs : list Handle.

Hypothesis connects : ∀ r tr, r ∈ rs → ConnectToProvider (resizerOf env r) tr = None.
Hypothesis resolves :
  ∀ r tr pv, r ∈ rs → ∃ id, GetProviderVolumeID (resizerOf env r) tr pv = inr id.
Hypothesis resizes :
  ∀ r tr id, r ∈ rs → ResizeVolume (resizerOf env r) tr id newSize = None.
Hypothesis grows : ∀ tr pod, resizePostgresFilesystem env tr pod = None.
Hypothesis updates : ∀ tr pv, updateVolumeFails env tr pv = None.







End Progress.

End Progress.



(** ** The listing of the earlier revision *)

Module ByProvisioner.

Import Provisioned.

Section ByProvisioner.

Variable claimKey volumeKey ebs : string.
Variable getVolume : list string → string → Error + Vol.

Lemma listLoop_kept (pvcs : list Claim) :
  ∀ result fetched0 vols fetched,
    listLoop claimKey volumeKey ebs getVolume pvcs result fetched0 = (inr vols, fetched) →
    ∃ vols',
      vols = result ++ vols'
      ∧ fetched = fetched0
          ++ (claimVolumeName <$> filter (λ c, claimIsEBS claimKey ebs c = true) pvcs)
      ∧ Forall (λ pv, volumeIsEBS volumeKey ebs pv = true) vols'
      ∧ length vols' = length (filter (λ c, claimIsEBS claimKey ebs c = true) pvcs)
      ∧ ∀ i c,
          filter (λ c, claimIsEBS claimKey ebs c = true) pvcs !! i = Some c →
          ∃ pv, vols' !! i = Some pv
                ∧ getVolume (fetched0 ++ take i (claimVolumeName <$>
                      filter (λ c, claimIsEBS claimKey ebs c = true) pvcs))
                    (claimVolumeName c) = inr pv.
Proof.
  induction pvcs as [|c pvcs IH]; intros result fetched0 vols fetched H.
  - simpl in H. injection H as <- <-. exists []. rewrite !app_nil_r.
    split; [done |]. split; [done |]. split; [constructor |]. split; [done |].
    intros i c Hc. by rewrite filter_nil in Hc.
  - cbn [listLoop] in H.
    destruct (claimIsEBS claimKey ebs c) eqn:Hc; simpl in H.
    + rewrite filter_cons_True by done.
      destruct (getVolume fetched0 (claimVolumeName c)) as [e|pv] eqn:Hget; [done |].
      destruct (volumeIsEBS volumeKey ebs pv) eqn:Hv; simpl in H; [|done].
      destruct (IH _ _ _ _ H) as (vols' & -> & -> & Hall & Hlen & Hidx).
      exists (pv :: vols'). rewrite <- !app_assoc. simpl.
      split; [done |]. split; [done |]. split; [by constructor |].
      split; [by rewrite Hlen |].
      intros [|i] c' Hc'; simpl in *.
      * injection Hc' as <-. exists pv. by rewrite app_nil_r.
      * destruct (Hidx i c' Hc') as (pv' & Hpv' & Hg). exists pv'.
        split; [done |]. by rewrite <- app_assoc in Hg.
    + rewrite filter_cons_False by (by rewrite Hc). by apply IH.
Qed.

Lemma listLoop_mismatch (pvcs : list Claim) (c : Claim) :
  c ∈ pvcs → claimIsEBS claimKey ebs c = true →
  (∀ tr pv, getVolume tr (claimVolumeName c) = inr pv →
            volumeIsEBS volumeKey ebs pv = false) →
  ∀ result fetched0,
    ∃ e, fst (listLoop claimKey volumeKey ebs getVolume pvcs result fetched0) = inl e.
Proof.
  intros Hin Hc Hbad.
  induction pvcs as [|c' pvcs IH]; intros result fetched0;
    [by apply not_elem_of_nil in Hin |].
  cbn [listLoop].
  destruct (claimIsEBS claimKey ebs c') eqn:Hc'; simpl.
  - destruct (getVolume fetched0 (claimVolumeName c')) as [e|pv] eqn:Hget;
      [by eexists |].
    destruct (volumeIsEBS volumeKey ebs pv) eqn:Hv; simpl; [|by eexists].
    apply elem_of_cons in Hin as [->|Hin]; [|by apply IH].
    by rewrite (Hbad _ _ Hget) in Hv.
  - apply elem_of_cons in Hin as [->|Hin]; [congruence | by apply IH].
Qed.

End ByProvisioner.

End ByProvisioner.

(** X21.  When the listing of the earlier revision succeeds, it has asked
    the store for the volumes of the claims that carry the provisioner
    annotation, once each and in the order of the claims, and for no
    other; it returns what the store answered, in that order, and every
    volume it returns carries the provisioner annotation. *)
Theorem earlier_listing_selects_by_provisioner (claimKey volumeKey ebs : string)
    (getVolume : list string → string → Error + Provisioned.Vol)
    (pvcs : list Provisioned.Claim) (vols : list Provisioned.Vol)
    (fetched : list string) :
  Provisioned.listPersistentVolumes claimKey volumeKey ebs getVolume (inr pvcs)
    = (inr vols, fetched) →
  fetched = Provisioned.claimVolumeName
              <$> filter (λ c, Provisioned.claimIsEBS claimKey ebs c = true) pvcs
  ∧ length vols = length fetched
  ∧ Forall (λ pv, Provisioned.annotation (Provisioned.volAnnotations pv) volumeKey = ebs)
      vols
  ∧ ∀ i name, fetched !! i = Some name →
      ∃ pv, vols !! i = Some pv ∧ getVolume (take i fetched) name = inr pv.
Proof.
  intros H. simpl in H.
  apply ByProvisioner.listLoop_kept in H as (vols' & -> & -> & Hall & Hlen & Hidx).
  simpl in *. split; [done |].
  split; [by rewrite length_fmap |].
  split.
  - eapply Forall_impl; [exact Hall |]. intros pv Hpv.
    unfold Provisioned.volumeIsEBS in Hpv. by apply bool_decide_eq_true in Hpv.
  - intros i name Hi. apply list_lookup_fmap_Some in Hi as (c & -> & Hc).
    by apply Hidx.
Qed.

Lemma earlier_listing_selects_by_provisioner_witness :
  let ebsClaim := {| Provisioned.claimAnnotations := {[ "provisioner" := "ebs" ]};
                     Provisioned.claimVolumeName := "pv-0" |} in
  let otherClaim := {| Provisioned.claimAnnotations := ∅;
                       Provisioned.claimVolumeName := "pv-1" |} in
  let get : list string → string → Error + Provisioned.Vol := λ _ name,
    inr {| Provisioned.volName := name;
           Provisioned.volAnnotations := {[ "provisioned-by" := "ebs" ]} |} in
  ["pv-0"] = Provisioned.claimVolumeName
     <$> filter (λ c, Provisioned.claimIsEBS "provisioner" "ebs" c = true)
           [otherClaim; ebsClaim].
Proof.
  intros ebsClaim otherClaim get.
  refine (proj1
    (earlier_listing_selects_by_provisioner "provisioner" "provisioned-by" "ebs" get
       [otherClaim; ebsClaim]
       [{| Provisioned.volName := "pv-0";
           Provisioned.volAnnotations := {[ "provisioned-by" := "ebs" ]} |}]
       ["pv-0"] _)).
  vm_compute. reflexivity.
Defined.

(** X22.  In the earlier revision, a claim that carries the provisioner
    annotation and whose volume, as the store returns it, does not, makes
    the whole listing fail: no partial list is returned. *)
Theorem earlier_listing_aborts_on_mismatch (claimKey volumeKey ebs : string)
    (getVolume : list string → string → Error + Provisioned.Vol)
    (pvcs : list Provisioned.Claim) (c : Provisioned.Claim) :
  c ∈ pvcs →
  Provisioned.annotation (Provisioned.claimAnnotations c) claimKey = ebs →
  (∀ tr pv, getVolume tr (Provisioned.claimVolumeName c) = inr pv →
            Provisioned.annotation (Provisioned.volAnnotations pv) volumeKey ≠ ebs) →
  ∃ e, fst (Provisioned.listPersistentVolumes claimKey volumeKey ebs getVolume
              (inr pvcs)) = inl e.
Proof.
  intros Hin Hc Hbad. simpl.
  apply (ByProvisioner.listLoop_mismatch claimKey volumeKey ebs getVolume pvcs c);
    [done | by apply bool_decide_eq_true | ].
  intros tr pv Hget. apply bool_decide_eq_false. by eapply Hbad.
Qed.

Lemma earlier_listing_aborts_on_mismatch_witness :
  let ebsClaim := {| Provisioned.claimAnnotations := {[ "provisioner" := "ebs" ]};
                     Provisioned.claimVolumeName := "pv-0" |} in
  let get : list string → string → Error + Provisioned.Vol := λ _ name,
    inr {| Provisioned.volName := name; Provisioned.volAnnotations := ∅ |} in
  ∃ e, fst (Provisioned.listPersistentVolumes "provisioner" "provisioned-by" "ebs" get
              (inr [ebsClaim])) = inl e.
Proof.
  intros ebsClaim get.
  apply (earlier_listing_aborts_on_mismatch "provisioner" "provisioned-by" "ebs" get
           [ebsClaim] ebsClaim).
  - by left.
  - reflexivity.
  - intros tr pv Hget. injection Hget as <-. vm_compute. discriminate.
Defined.
